(** * Tic-tac-toe teacher and network engine: a shallow embedding

    The development follows the TypeScript sources:
    - [gameLogic]       : [computeWinner], [isMoveValid], [nextSymbol];
    - [minimaxTeacher]  : [negamax], [minimaxPolicy], [generateTeacherDataset];
    - [neuralNetwork]   : the [NeuralNetwork] class;
    - [ai]              : [aiMove], [minimax], [minimaxOpponent].

    Boards are strings, the two memo tables are finite maps keyed by strings,
    and the module-level tables are threaded explicitly through every call. *)

From Stdlib Require Import ZArith QArith Qminmax Lia List String Ascii Bool Reals Lra.
From stdpp Require Import gmap mapset strings list.
Import ListNotations.

Local Open Scope string_scope.
Local Open Scope Z_scope.

(** ** JavaScript numbers used by the teacher

    Scores are small integers, except for the two infinities that the search
    uses as sentinels. *)

Inductive jsnum : Type :=
| NegInf : jsnum
| Int (z : Z) : jsnum
| PosInf : jsnum.

#[global] Instance jsnum_eq_dec : EqDecision jsnum.
Proof. solve_decision. Defined.

Definition jsneg (x : jsnum) : jsnum :=
  match x with
  | NegInf => PosInf
  | Int z => Int (- z)
  | PosInf => NegInf
  end.

(** [x > y] on numbers. *)
Definition jsgt (x y : jsnum) : bool :=
  match x, y with
  | NegInf, _ => false
  | Int _, NegInf => true
  | Int a, Int b => b <? a
  | Int _, PosInf => false
  | PosInf, PosInf => false
  | PosInf, _ => true
  end.

(** [x === y] on numbers. *)
Definition jseq (x y : jsnum) : bool := bool_decide (x = y).

Module GameLogic.

Inductive PlayerSymbol : Type := X | O.

#[global] Instance PlayerSymbol_eq_dec : EqDecision PlayerSymbol.
Proof. solve_decision. Defined.

Definition symbolChar (s : PlayerSymbol) : ascii :=
  match s with X => "X"%char | O => "O"%char end.

Definition WINNING_LINES : list (nat * nat * nat) :=
  [ (0, 1, 2); (3, 4, 5); (6, 7, 8);
    (0, 3, 6); (1, 4, 7); (2, 5, 8);
    (0, 4, 8); (2, 4, 6) ]%nat.

(** [board[i]]: [None] stands for [undefined]. *)
Definition charAt (board : string) (i : nat) : option ascii := String.get i board.

Definition isEmptyCell (c : option ascii) : bool :=
  bool_decide (c = Some "_"%char).

(** The loop of [computeWinner] over the remaining lines.  The function
    returns [board[a]] at the first line that passes the test; its callers
    only test the result for truthiness, so [null] and [undefined] are both
    [None] here. *)
Fixpoint scanLines (board : string) (lines : list (nat * nat * nat)) : option ascii :=
  match lines with
  | [] => None
  | (a, b, c) :: rest =>
      if negb (isEmptyCell (charAt board a))
         && bool_decide (charAt board a = charAt board b)
         && bool_decide (charAt board b = charAt board c)
      then charAt board a
      else scanLines board rest
  end.

Definition computeWinner (board : string) : option ascii :=
  scanLines board WINNING_LINES.

Definition isMoveValid (board : string) (index : nat) : bool :=
  isEmptyCell (charAt board index).

Definition nextSymbol (s : PlayerSymbol) : PlayerSymbol :=
  match s with X => O | O => X end.

End GameLogic.

Module Teacher.
Import GameLogic.

Definition SCORE_WIN : Z := 10.

(** [board.substring(0, index) + symbol + board.substring(index + 1)] *)
Definition applyMove (board : string) (index : nat) (symbol : PlayerSymbol) : string :=
  substring 0 index board
    ++ String (symbolChar symbol) EmptyString
    ++ substring (index + 1) (String.length board) board.

Definition boardMask (board : string) : list Z :=
  map (fun c => if bool_decide (c = "_"%char) then 1 else 0) (list_ascii_of_string board).

(** [board.includes('_')] *)
Definition hasEmpty (board : string) : bool :=
  existsb (fun c => bool_decide (c = "_"%char)) (list_ascii_of_string board).

Definition isTerminal (board : string) : bool :=
  bool_decide (is_Some (computeWinner board)) || negb (hasEmpty board).

Definition terminalScore (board : string) (depth : Z) : option jsnum :=
  if bool_decide (is_Some (computeWinner board)) then Some (Int (- (SCORE_WIN - depth)))
  else if negb (hasEmpty board) then Some (Int 0)
  else None.

(** The memo key [`${board}|${turn}`]. *)
Definition cacheKey (board : string) (turn : PlayerSymbol) : string :=
  board ++ "|" ++ String (symbolChar turn) EmptyString.

(** One iteration of the [for] loop of [negamax]; [recurse] is the
    recursive call. *)
Definition negamaxStep
    (recurse : gmap string jsnum → string → PlayerSymbol → Z → option (jsnum * gmap string jsnum))
    (board : string) (playerToMove : PlayerSymbol) (depth : Z)
    (acc : option (jsnum * gmap string jsnum)) (i : nat)
    : option (jsnum * gmap string jsnum) :=
  '(best, cache) ← acc;
  if negb (isMoveValid board i) then Some (best, cache)
  else
    let nextBoard := applyMove board i playerToMove in
    '(v, cache') ← recurse cache nextBoard (nextSymbol playerToMove) (depth + 1);
    let score := jsneg v in
    Some (if jsgt score best then score else best, cache').

(** [negamax], with the module-level [negamaxCache] passed in and out.  The
    recursion of the source is on the board; [fuel] bounds its depth and
    [None] means that the bound was too small, which does not happen with
    the fuel that [minimaxPolicy] gives (see [negamax_fuel]). *)
Fixpoint negamax (fuel : nat) (cache : gmap string jsnum)
    (board : string) (playerToMove : PlayerSymbol) (depth : Z)
    : option (jsnum * gmap string jsnum) :=
  match fuel with
  | 0%nat => None
  | S fuel' =>
      let key := cacheKey board playerToMove in
      match cache !! key with
      | Some cached => Some (cached, cache)
      | None =>
          match terminalScore board depth with
          | Some terminal => Some (terminal, <[key := terminal]> cache)
          | None =>
              '(best, cache') ←
                fold_left (negamaxStep (negamax fuel') board playerToMove depth)
                          (seq 0 9) (Some (NegInf, cache));
              Some (best, <[key := best]> cache')
          end
      end
  end.

(** The two module-level memo tables. *)
Record Caches : Type := mkCaches {
  negamaxCache : gmap string jsnum;
  policyCache : gmap string (list Q * Q);
}.

Definition freshCaches : Caches := mkCaches ∅ ∅.

Record PolicyResult : Type := mkPolicyResult {
  policy : list Q;
  mask : list Z;
  value : Q;
}.

(** [Math.max(-1, Math.min(1, bestScore / SCORE_WIN))], in lowest terms. *)
Definition boundedValueOf (bestScore : jsnum) : Q :=
  match bestScore with
  | NegInf => (-1)%Q
  | PosInf => 1%Q
  | Int z => Qmax (-1) (Qmin 1 (Qred (z # 10)))
  end.

(** The search can go at most nine plies deep, plus the terminal call. *)
Definition searchFuel : nat := 10.

(** One iteration of the first loop of [minimaxPolicy]. *)
Definition scoreStep (board : string) (turn : PlayerSymbol) (mask : list Z)
    (acc : option (jsnum * list jsnum * gmap string jsnum)) (i : nat)
    : option (jsnum * list jsnum * gmap string jsnum) :=
  '(bestScore, scores, cache) ← acc;
  if bool_decide (mask !! i = Some 0) then Some (bestScore, scores, cache)
  else
    let nextBoard := applyMove board i turn in
    '(v, cache') ← negamax searchFuel cache nextBoard (nextSymbol turn) 1;
    let score := jsneg v in
    Some (if jsgt score bestScore then score else bestScore,
          <[i := score]> scores, cache').

(** The first loop of [minimaxPolicy]: it fills [scores] and [bestScore]. *)
Definition scoreMoves (cache : gmap string jsnum) (board : string) (turn : PlayerSymbol)
    (mask : list Z) : option (jsnum * list jsnum * gmap string jsnum) :=
  fold_left (scoreStep board turn mask) (seq 0 9) (Some (NegInf, repeat NegInf 9, cache)).

(** [scores.map((s, i) => ({s, i})).filter(x => mask[x.i] === 1 && x.s === bestScore)],
    keeping the indices. *)
Definition bestMovesOf (scores : list jsnum) (mask : list Z) (bestScore : jsnum) : list nat :=
  map fst
    (filter (fun x => bool_decide (mask !! x.1 = Some 1) && jseq x.2 bestScore)
            (imap (fun i s => (i, s)) scores)).

Definition policyOf (bestMoves : list nat) : list Q :=
  let p := if (0 <? List.length bestMoves)%nat
           then (1 # Pos.of_nat (List.length bestMoves))%Q else 0%Q in
  fold_left (fun pol i => <[i := p]> pol) bestMoves (repeat 0%Q 9).

Definition minimaxPolicy (st : Caches) (board : string) (turn : PlayerSymbol)
    : option (PolicyResult * Caches) :=
  let key := cacheKey board turn in
  match policyCache st !! key with
  | Some (cachedPolicy, cachedValue) =>
      Some (mkPolicyResult cachedPolicy (boardMask board) cachedValue, st)
  | None =>
      let mask := boardMask board in
      if isTerminal board then
        let zeros := repeat 0%Q 9 in
        Some (mkPolicyResult zeros mask 0%Q,
              mkCaches (negamaxCache st) (<[key := (zeros, 0%Q)]> (policyCache st)))
      else
        '(bestScore, scores, cache') ← scoreMoves (negamaxCache st) board turn mask;
        let bestMoves := bestMovesOf scores mask bestScore in
        let policy := policyOf bestMoves in
        let boundedValue := boundedValueOf bestScore in
        Some (mkPolicyResult policy mask boundedValue,
              mkCaches cache' (<[key := (policy, boundedValue)]> (policyCache st)))
  end.

Definition emptyBoard : string := "_________".

(** *** Symmetry augmentation *)

Definition TRANSFORMS : list (string * list nat) :=
  [ ("id",     [0; 1; 2; 3; 4; 5; 6; 7; 8]);
    ("rot90",  [2; 5; 8; 1; 4; 7; 0; 3; 6]);
    ("rot180", [8; 7; 6; 5; 4; 3; 2; 1; 0]);
    ("rot270", [6; 3; 0; 7; 4; 1; 8; 5; 2]);
    ("flipTB", [6; 7; 8; 3; 4; 5; 0; 1; 2]);
    ("flipLR", [2; 1; 0; 5; 4; 3; 8; 7; 6]);
    ("diag",   [0; 3; 6; 1; 4; 7; 2; 5; 8]);
    ("anti",   [8; 5; 2; 7; 4; 1; 6; 3; 0]) ]%nat.

(** [out[map[i]] = board[i]] for [i < 9], then [out.join('')]; an
    [undefined] entry joins as the empty string.  A write at an index read
    from [map] that is [undefined] is not modelled: every map of
    [TRANSFORMS] has nine entries. *)
Definition transformBoard (board : string) (map : list nat) : string :=
  let cell i := match charAt board i with
                | Some c => String c EmptyString
                | None => EmptyString
                end in
  let out :=
    fold_left (fun out i => match map !! i with
                            | Some k => <[k := cell i]> out
                            | None => out
                            end)
              (seq 0 9) (repeat "_" 9) in
  String.concat "" out.

(** [out[map[i]] += dist[i] ?? 0] for [i < 9]. *)
Definition transformDist (dist : list Q) (map : list nat) : list Q :=
  fold_left (fun out i => match map !! i with
                          | Some k => <[k := (default 0 (out !! k) + default 0 (dist !! i))%Q]> out
                          | None => out
                          end)
            (seq 0 9) (repeat 0%Q 9).

(** [set.add(key)]: the set [{[key]} ∪ set], written as an insertion into
    the underlying map. *)
Definition setAdd (key : string) (set : gset string) : gset string :=
  let (m) := set in Mapset (<[key := ()]> m).

Record TeacherState : Type := mkTeacherState {
  ts_board : string;
  ts_turn : PlayerSymbol;
  ts_policy : list Q;
  ts_mask : list Z;
  ts_value : Q;
}.

(** One iteration of the [for] loop of [walk]. *)
Definition walkStep
    (recurse : gset string → list (string * PlayerSymbol) → string → PlayerSymbol
               → option (gset string * list (string * PlayerSymbol)))
    (board : string) (turn : PlayerSymbol)
    (acc : option (gset string * list (string * PlayerSymbol))) (i : nat)
    : option (gset string * list (string * PlayerSymbol)) :=
  '(seen, states) ← acc;
  if negb (isMoveValid board i) then Some (seen, states)
  else recurse seen states (applyMove board i turn) (nextSymbol turn).

(** The inner function [walk] of [generateTeacherDataset]; [seen] and
    [states] are the two variables it closes over. *)
Fixpoint walk (fuel : nat) (seen : gset string) (states : list (string * PlayerSymbol))
    (board : string) (turn : PlayerSymbol)
    : option (gset string * list (string * PlayerSymbol)) :=
  match fuel with
  | 0%nat => None
  | S fuel' =>
      let key := cacheKey board turn in
      if bool_decide (key ∈ seen) then Some (seen, states)
      else
        let seen := setAdd key seen in
        if isTerminal board then Some (seen, states)
        else
          let states := (states ++ [(board, turn)])%list in
          fold_left (walkStep (walk fuel') board turn) (seq 0 9) (Some (seen, states))
  end.

(** The state of the labelling loop: the output so far, the [dedupe] set
    and the memo tables. *)
Definition emitState : Type := (list TeacherState * gset string * Caches)%type.

Definition emitPlain (s : string * PlayerSymbol) (r : PolicyResult) (acc : emitState)
    : emitState :=
  let '(out, dedupe, st) := acc in
  let k := cacheKey s.1 s.2 in
  if bool_decide (k ∈ dedupe) then acc
  else ((out ++ [mkTeacherState s.1 s.2 (policy r) (mask r) (value r)])%list, setAdd k dedupe, st).

Definition emitSymmetries (s : string * PlayerSymbol) (r : PolicyResult) (acc : emitState)
    : emitState :=
  fold_left
    (fun acc t =>
       let '(out, dedupe, st) := acc in
       let b2 := transformBoard s.1 t.2 in
       let p2 := transformDist (policy r) t.2 in
       let m2 := boardMask b2 in
       let k := cacheKey b2 s.2 in
       if bool_decide (k ∈ dedupe) then acc
       else ((out ++ [mkTeacherState b2 s.2 p2 m2 (value r)])%list, setAdd k dedupe, st))
    TRANSFORMS acc.

Definition generateTeacherDataset (augmentSymmetries : bool) (st : Caches)
    : option (list TeacherState * Caches) :=
  '(_, states) ← walk searchFuel ∅ [] emptyBoard X;
  '(out, _, st') ←
    fold_left
      (fun acc s =>
         '(out, dedupe, st) ← acc;
         '(r, st') ← minimaxPolicy st s.1 s.2;
         if negb augmentSymmetries then Some (emitPlain s r (out, dedupe, st'))
         else Some (emitSymmetries s r (out, dedupe, st')))
      states (Some ([], ∅, st));
  Some (out, st').

(** *** The TeacherState invariant *)

(** The sum of [policy[i]] over the indices with [mask[i] = 1]. *)
Definition legalMass (policy : list Q) (mask : list Z) : Q :=
  fold_left (fun acc i => if bool_decide (mask !! i = Some 1)
                          then (acc + default 0 (policy !! i))%Q else acc)
            (seq 0 (List.length mask)) 0%Q.

Definition TeacherStateInv (t : TeacherState) : Prop :=
  (legalMass (ts_policy t) (ts_mask t) == 1)%Q
  ∧ ∀ i, ts_mask t !! i = Some 0 → ∃ p, ts_policy t !! i = Some p ∧ (p == 0)%Q.

End Teacher.

(** * The network engine

    Numbers are real numbers: the arithmetic of the network is exact here.
    A read past the end of an array gives [undefined] in the source, which
    either raises a [TypeError] or turns the result into [NaN]; both leave the
    real numbers, and the functions below return [None] there.  The library
    functions [Math.exp], [Math.tanh], [Math.log] and [Math.random] are
    parameters of the development. *)

Module Network.
Local Open Scope R_scope.

Inductive JsError : Type :=
| RangeError : JsError
| TypeError : JsError
| MissingLayerData (layer : nat) : JsError
| ShapeMismatch (layer expectedIn expectedOut gotIn : nat) (gotOut : option nat) : JsError.

(** The outcome of code that may throw. *)
Inductive result (A : Type) : Type :=
| Ok (a : A) : result A
| Throw (e : JsError) : result A.
Arguments Ok {A} a.
Arguments Throw {A} e.

#[global] Instance result_bind : MBind result :=
  fun A B f r => match r with Ok a => f a | Throw e => Throw e end.

Record NetworkConfig : Type := mkNetworkConfig {
  inputSize : Z;
  hiddenLayers : list Z;
  outputSize : Z;
  learningRate : R;
  cfgValueLossWeight : option R;
  cfgWeightDecay : option R;
  cfgGradientClip : option R;
  cfgDropout : option R;
}.

Record TrainingExample : Type := mkTrainingExample {
  exInput : list R;
  exTarget : list R;
  exMask : list Z;
  exWeight : R;
  exValue : R;
}.

Record NetworkSnapshot : Type := mkNetworkSnapshot {
  snapConfig : NetworkConfig;
  snapWeights : list (list (list R));
  snapBiases : list (list R);
  valueHeadWeights : option (list (list R));
  valueHeadBiases : option (list R);
  snapTrainingCount : Z;
}.

Record Layer : Type := mkLayer {
  weights : list (list R);
  biases : list R;
  weightDeltas : list (list R);
  biasDeltas : list R;
  inputActivation : list R;
  outputActivation : list R;
}.

Record NeuralNetwork : Type := mkNeuralNetwork {
  config : NetworkConfig;
  layers : list Layer;
  valueHead : Layer;
  trainingCount : Z;
  lastHiddenActivation : list R;
  valueLossWeight : R;
  weightDecay : R;
  gradientClip : R;
  currentLearningRate : R;
  dropout : R;
  isTraining : bool;
  dropoutMasks : list (list R);
}.

Definition setActivations (l : Layer) (inAct outAct : list R) : Layer :=
  mkLayer (weights l) (biases l) (weightDeltas l) (biasDeltas l) inAct outAct.

Definition setParameters (l : Layer) (w : list (list R)) (b : list R) : Layer :=
  mkLayer w b (weightDeltas l) (biasDeltas l) (inputActivation l) (outputActivation l).

Definition setUpdate (l : Layer) (w : list (list R)) (b : list R)
    (wd : list (list R)) (bd : list R) : Layer :=
  mkLayer w b wd bd (inputActivation l) (outputActivation l).

(** [layers[layers.length - 1]] together with the layers before it. *)
Fixpoint splitLast {A} (l : list A) : option (list A * A) :=
  match l with
  | [] => None
  | [x] => Some ([], x)
  | x :: rest => '(front, y) ← splitLast rest; Some (x :: front, y)
  end.

(** [x <= y] on numbers. *)
Definition Rleb (x y : R) : bool := if Rle_dec x y then true else false.

(** [Array(n)]: a [RangeError] unless [n] is a valid array length. *)
Definition arrayLength (n : Z) : result nat :=
  if ((0 <=? n) && (n <=? 4294967295))%Z then Ok (Z.to_nat n) else Throw RangeError.

Section Engine.

(** [Math.exp], [Math.tanh], [Math.log], and the successive results of
    [Math.random()]. *)
Variable Mexp : R → R.
Variable Mtanh : R → R.
Variable Mlog : R → R.
Variable Mrandom : nat → R.

(** [new Layer(inputSize, outputSize)].  [rs] counts the calls to
    [Math.random()] made so far.  Both array allocations are attempted
    whatever the sizes ([biases] is allocated with [outputSize] even when
    there is no row), so the constructor throws when either size is not a
    valid length. *)
Definition newLayer (inS outS : Z) (rs : nat) : result (Layer * nat) :=
  n ← arrayLength inS;
  m ← arrayLength outS;
  let limit := sqrt (6 / IZR (inS + outS)) in
  let w := map (fun i => map (fun j => (Mrandom (rs + i * m + j) * 2 - 1) * limit)
                             (seq 0 m))
               (seq 0 n) in
  Ok (mkLayer w (repeat 0 m) (repeat (repeat 0 m) n) (repeat 0 m) [] [],
      (rs + n * m)%nat).

(** The loop that builds the trunk from [hiddenSizes]. *)
Fixpoint newTrunk (hiddenSizes : list Z) (rs : nat) : result (list Layer * nat) :=
  match hiddenSizes with
  | a :: (b :: _) as rest =>
      '(l, rs1) ← newLayer a b rs;
      '(ls, rs2) ← newTrunk rest rs1;
      Ok (l :: ls, rs2)
  | _ => Ok ([], rs)
  end.

Definition constructor (config : NetworkConfig) (rs : nat) : result (NeuralNetwork * nat) :=
  let hiddenSizes := inputSize config :: hiddenLayers config in
  '(trunk, rs1) ← newTrunk hiddenSizes rs;
  let lastHidden := List.last hiddenSizes (inputSize config) in
  '(policyLayer, rs2) ← newLayer lastHidden (outputSize config) rs1;
  '(valueLayer, rs3) ← newLayer lastHidden 1 rs2;
  Ok (mkNeuralNetwork config (trunk ++ [policyLayer]) valueLayer 0%Z []
        (default 0.5 (cfgValueLossWeight config))
        (default 0.0005 (cfgWeightDecay config))
        (default 5 (cfgGradientClip config))
        (learningRate config)
        (default 0.15 (cfgDropout config))
        false [],
      rs3).

Definition relu (x : R) : R := Rmax 0 x.

Definition reluDerivative (x : R) : R := if Rlt_dec 0 x then 1 else 0.

Definition clipGradient (net : NeuralNetwork) (grad : R) : R :=
  Rmax (- gradientClip net) (Rmin (gradientClip net) grad).

(** The logits after masking: [-1e9] where [mask[i] === 0]. *)
Definition adjustLogits (logits : list R) (mask : option (list Z)) : list R :=
  imap (fun i v => match mask with
                   | Some m => if bool_decide (m !! i = Some 0%Z) then -1e9 else v
                   | None => v
                   end) logits.

(** [Math.max(...adjusted)] is only read when there is a logit. *)
Definition softmax (logits : list R) (mask : option (list Z)) : list R :=
  let adjusted := adjustLogits logits mask in
  match adjusted with
  | [] => []
  | a :: rest =>
      let maxLogit := fold_left Rmax rest a in
      let exps := map (fun v => Mexp (v - maxLogit)) adjusted in
      let sum0 := fold_left Rplus exps 0 in
      let sum := if Req_dec_T sum0 0 then 1 else sum0 in
      map (fun v => v / sum) exps
  end.

Definition setTraining (net : NeuralNetwork) (training : bool) : NeuralNetwork :=
  mkNeuralNetwork (config net) (layers net) (valueHead net) (trainingCount net)
    (lastHiddenActivation net) (valueLossWeight net) (weightDecay net) (gradientClip net)
    (currentLearningRate net) (dropout net) training (dropoutMasks net).

Definition generateDropoutMask (net : NeuralNetwork) (size : nat) (rs : nat)
    : list R * nat :=
  if negb (isTraining net) || Rleb (dropout net) 0 then (repeat 1 size, rs)
  else
    let scale := 1 / (1 - dropout net) in
    (map (fun k => if Rlt_dec (dropout net) (Mrandom (rs + k)) then scale else 0)
         (seq 0 size),
     (rs + size)%nat).

(** [bias + Σ_i activation[i] * W[i][j]], summed in the order of the loop. *)
Definition dotColumn (activation : list R) (W : list (list R)) (j : nat) (bias : R)
    : option R :=
  fold_left (fun acc i =>
               sum ← acc; a ← activation !! i; row ← W !! i; w ← row !! j;
               Some (sum + a * w))
            (seq 0 (List.length activation)) (Some bias).

(** One output per column of [W], as many as [W[0].length]. *)
Definition affine (activation : list R) (W : list (list R)) (b : list R)
    : option (list R) :=
  row0 ← W !! 0%nat;
  mapM (fun j => bias ← b !! j; dotColumn activation W j bias) (seq 0 (List.length row0)).

(** The loop of [forward] over the trunk layers. *)
Fixpoint forwardTrunk (net : NeuralNetwork) (trunk : list Layer) (activation : list R)
    (rs : nat) : option (list Layer * list R * list (list R) * nat) :=
  match trunk with
  | [] => Some ([], activation, [], rs)
  | layer :: rest =>
      sums ← affine activation (weights layer) (biases layer);
      let next := map relu sums in
      let '(dropoutMask, rs1) := generateDropoutMask net (List.length next) rs in
      let droppedNext := zip_with Rmult next dropoutMask in
      let layer' := setActivations layer activation droppedNext in
      '(rest', out, masks, rs2) ← forwardTrunk net rest droppedNext rs1;
      Some (layer' :: rest', out, dropoutMask :: masks, rs2)
  end.

(** [forward] up to the policy logits. *)
Definition forwardLogits (net : NeuralNetwork) (rs : nat) (input : list R)
    : option (list Layer * Layer * list R * list (list R) * nat * list R) :=
  '(trunk, policyLayer) ← splitLast (layers net);
  '(trunk', activation, masks, rs') ← forwardTrunk net trunk input rs;
  policyLogits ← affine activation (weights policyLayer) (biases policyLayer);
  Some (trunk', policyLayer, activation, masks, rs', policyLogits).

(** The logits alone. *)
Definition policyLogits (net : NeuralNetwork) (rs : nat) (input : list R)
    : option (list R) :=
  (fun r => r.2) <$> forwardLogits net rs input.

Definition forward (net : NeuralNetwork) (rs : nat) (input : list R)
    (mask : option (list Z)) : option (NeuralNetwork * nat * (list R * R)) :=
  '(trunk', policyLayer, activation, masks, rs', policyLogits) ← forwardLogits net rs input;
  let policy := softmax policyLogits mask in
  let policyLayer' := setActivations policyLayer activation policy in
  bias0 ← biases (valueHead net) !! 0%nat;
  valueSum ← dotColumn activation (weights (valueHead net)) 0 bias0;
  let value := Mtanh valueSum in
  let valueHead' := setActivations (valueHead net) activation [value] in
  Some (mkNeuralNetwork (config net) (trunk' ++ [policyLayer']) valueHead'
          (trainingCount net) activation (valueLossWeight net) (weightDecay net)
          (gradientClip net) (currentLearningRate net) (dropout net) (isTraining net)
          masks,
        rs', (policy, value)).

(** *** Backpropagation *)

(** [W[i][j] = W[i][j] * (1 - lr * weightDecay) - lr * grad] *)
Definition updateCell (net : NeuralNetwork) (W : list (list R)) (i j : nat) (grad : R)
    : option (list (list R)) :=
  row ← W !! i;
  w ← row !! j;
  Some (<[i := <[j := w * (1 - currentLearningRate net * weightDecay net)
                      - currentLearningRate net * grad]> row]> W).

(** The inner loop of a weight update: row [i] of the matrix. *)
Definition updateRow (net : NeuralNetwork) (prev delta : list R)
    (acc : option (list (list R))) (i : nat) : option (list (list R)) :=
  fold_left
    (fun acc j =>
       W ← acc; p ← prev !! i; d ← delta !! j;
       updateCell net W i j (clipGradient net (d * p)))
    (seq 0 (List.length delta)) acc.

(** The double loop that updates a weight matrix from the activation
    [prev] that fed the layer and the gradient [delta] at its output. *)
Definition updateWeights (net : NeuralNetwork) (prev delta : list R) (W : list (list R))
    : option (list (list R)) :=
  fold_left (updateRow net prev delta) (seq 0 (List.length prev)) (Some W).

(** [b[j] -= lr * clip(delta[j])] *)
Definition updateBiases (net : NeuralNetwork) (delta : list R) (b : list R)
    : option (list R) :=
  fold_left
    (fun acc j =>
       b ← acc; d ← delta !! j; bj ← b !! j;
       Some (<[j := bj - currentLearningRate net * clipGradient net d]> b))
    (seq 0 (List.length delta)) (Some b).

(** The diagnostic buffers: every cell is allocated, then written once. *)
Definition weightDeltasOf (net : NeuralNetwork) (prev delta : list R) : list (list R) :=
  map (fun p => map (fun d => Rabs (clipGradient net (d * p))) delta) prev.

Definition biasDeltasOf (net : NeuralNetwork) (delta : list R) : list R :=
  map (fun d => Rabs (clipGradient net d)) delta.

(** [Σ_j delta[j] * row[j]], from 0. *)
Definition backRow (delta : list R) (row : list R) : option R :=
  fold_left (fun acc j => sum ← acc; d ← delta !! j; w ← row !! j; Some (sum + d * w))
            (seq 0 (List.length delta)) (Some 0).

(** The gradient that reaches the activation [prev] through [W]. *)
Definition backThrough (prev delta : list R) (W : list (list R)) : option (list R) :=
  mapM (fun i => row ← W !! i; backRow delta row) (seq 0 (List.length prev)).

(** The loop of [backward] over the trunk, from the last hidden layer
    down; [revTrunk] lists the trunk layers in that order, so that the
    layer below the current one is the head of [below]. *)
Fixpoint backwardTrunk (net : NeuralNetwork) (revTrunk : list Layer) (sharedDelta : list R)
    : option (list Layer) :=
  match revTrunk with
  | [] => Some []
  | layer :: below =>
      let prevActivation := match below with
                            | [] => inputActivation layer
                            | lower :: _ => outputActivation lower
                            end in
      delta ← mapM (fun idx => act ← outputActivation layer !! idx;
                               sd ← sharedDelta !! idx;
                               Some (sd * reluDerivative act))
                   (seq 0 (List.length (outputActivation layer)));
      W' ← updateWeights net prevActivation delta (weights layer);
      b' ← updateBiases net delta (biases layer);
      nextShared ← backThrough prevActivation delta W';
      let layer' := setUpdate layer W' b' (weightDeltasOf net prevActivation delta)
                              (biasDeltasOf net delta) in
      below' ← backwardTrunk net below nextShared;
      Some (layer' :: below')
  end.

Definition backward (net : NeuralNetwork) (policyDelta valueDelta : list R)
    : option NeuralNetwork :=
  '(trunk, policyLayer) ← splitLast (layers net);
  let prevHidden := lastHiddenActivation net in
  let policyWeightsSnapshot := weights policyLayer in
  let valueWeightsSnapshot := weights (valueHead net) in
  Wp ← updateWeights net prevHidden policyDelta (weights policyLayer);
  bp ← updateBiases net policyDelta (biases policyLayer);
  let policyLayer' := setUpdate policyLayer Wp bp
                        (weightDeltasOf net prevHidden policyDelta)
                        (biasDeltasOf net policyDelta) in
  vd0 ← valueDelta !! 0%nat;
  Wv ← updateWeights net prevHidden [vd0] (weights (valueHead net));
  bv ← updateBiases net [vd0] (biases (valueHead net));
  let valueHead' := setUpdate (valueHead net) Wv bv
                      (weightDeltasOf net prevHidden [vd0])
                      (biasDeltasOf net [vd0]) in
  fromPolicy ← backThrough prevHidden policyDelta policyWeightsSnapshot;
  sharedDelta ← mapM (fun i => s ← fromPolicy !! i;
                               row ← valueWeightsSnapshot !! i;
                               w ← row !! 0%nat;
                               Some (0 + s + vd0 * w))
                     (seq 0 (List.length prevHidden));
  revTrunk' ← backwardTrunk net (rev trunk) sharedDelta;
  Some (mkNeuralNetwork (config net) (rev revTrunk' ++ [policyLayer']) valueHead'
          (trainingCount net) (lastHiddenActivation net) (valueLossWeight net)
          (weightDecay net) (gradientClip net) (currentLearningRate net) (dropout net)
          (isTraining net) (dropoutMasks net)).

(** The body of the loop of [train] for one example: the new network and
    the loss of the sample. *)
Definition trainExample (net : NeuralNetwork) (rs : nat) (example : TrainingExample)
    : option (NeuralNetwork * nat * R) :=
  '(net1, rs1, (policy, value)) ← forward net rs (exInput example) (Some (exMask example));
  let eps := 1e-9 in
  terms ← mapM (fun i => t ← exTarget example !! i; p ← policy !! i;
                         Some (t * Mlog (Rmax p eps)))
               (seq 0 (List.length (exTarget example)));
  let policyLoss := - fold_left Rplus terms 0 in
  let valueError := value - exValue example in
  let valueLoss := valueError * valueError in
  let sampleLoss := policyLoss + valueLossWeight net * valueLoss in
  policyGrad ← mapM (fun i => p ← policy !! i; t ← exTarget example !! i;
                              Some ((p - t) * exWeight example))
                    (seq 0 (List.length policy));
  let dValue := 2 * valueError * valueLossWeight net * exWeight example
                * (1 - value * value) in
  net2 ← backward net1 policyGrad [dValue];
  Some (net2, rs1, sampleLoss).

Definition train (net : NeuralNetwork) (rs : nat) (examples : list TrainingExample)
    : option (NeuralNetwork * nat * R) :=
  '(net1, rs1, totalLoss, totalWeight) ←
    fold_left
      (fun acc example =>
         '(net, rs, totalLoss, totalWeight) ← acc;
         '(net', rs', sampleLoss) ← trainExample net rs example;
         Some (net', rs', totalLoss + sampleLoss * exWeight example,
               totalWeight + exWeight example))
      examples (Some (setTraining net true, rs, 0, 0));
  let net2 := setTraining net1 false in
  let net3 :=
    mkNeuralNetwork (config net2) (layers net2) (valueHead net2)
      (trainingCount net2 + Z.of_nat (List.length examples))%Z
      (lastHiddenActivation net2) (valueLossWeight net2) (weightDecay net2)
      (gradientClip net2) (currentLearningRate net2) (dropout net2) (isTraining net2)
      (dropoutMasks net2) in
  Some (net3, rs1, if Rlt_dec 0 totalWeight then totalLoss / totalWeight else 0).

(** *** Snapshots *)

Definition setLearningRateOf (c : NetworkConfig) (lr : R) : NetworkConfig :=
  mkNetworkConfig (inputSize c) (hiddenLayers c) (outputSize c) lr
    (cfgValueLossWeight c) (cfgWeightDecay c) (cfgGradientClip c) (cfgDropout c).

(** [getSnapshot] writes the live learning rate into the configuration
    and returns the parameters.  (The source returns the live arrays, not
    copies; [loadSnapshot] copies what it reads.) *)
Definition getSnapshot (net : NeuralNetwork) : NeuralNetwork * NetworkSnapshot :=
  let config' := setLearningRateOf (config net) (currentLearningRate net) in
  (mkNeuralNetwork config' (layers net) (valueHead net) (trainingCount net)
     (lastHiddenActivation net) (valueLossWeight net) (weightDecay net)
     (gradientClip net) (currentLearningRate net) (dropout net) (isTraining net)
     (dropoutMasks net),
   mkNetworkSnapshot config' (map weights (layers net)) (map biases (layers net))
     (Some (weights (valueHead net))) (Some (biases (valueHead net)))
     (trainingCount net)).

(** The loop of [loadSnapshot] from layer [i] on: the layers as the loop
    leaves them, and the error if it threw. *)
Fixpoint loadLayers (i : nat) (ls : list Layer) (snapshot : NetworkSnapshot)
    : list Layer * option JsError :=
  match ls with
  | [] => ([], None)
  | layer :: rest =>
      match snapWeights snapshot !! i, snapBiases snapshot !! i with
      | Some w, Some b =>
          let expectedIn := List.length (weights layer) in
          match weights layer !! 0%nat with
          | None => (ls, Some TypeError)
          | Some row0 =>
              let expectedOut := List.length row0 in
              let gotIn := List.length w in
              let gotOut := List.length <$> w !! 0%nat in
              if bool_decide (expectedIn ≠ gotIn) || bool_decide (Some expectedOut ≠ gotOut)
              then (ls, Some (ShapeMismatch i expectedIn expectedOut gotIn gotOut))
              else
                let '(rest', err) := loadLayers (S i) rest snapshot in
                (setParameters layer w b :: rest', err)
          end
      | _, _ => (ls, Some (MissingLayerData i))
      end
  end.

(** [loadSnapshot]: the network as the call leaves it, and the error if
    it threw.  [JSON.parse(JSON.stringify(a))] copies an array of
    numbers. *)
Definition loadSnapshot (net : NeuralNetwork) (snapshot : NetworkSnapshot)
    : NeuralNetwork * option JsError :=
  let '(layers', err) := loadLayers 0 (layers net) snapshot in
  match err with
  | Some e =>
      (mkNeuralNetwork (config net) layers' (valueHead net) (snapTrainingCount snapshot)
         (lastHiddenActivation net) (valueLossWeight net) (weightDecay net)
         (gradientClip net) (currentLearningRate net) (dropout net) (isTraining net)
         (dropoutMasks net),
       Some e)
  | None =>
      let valueHead' :=
        match valueHeadWeights snapshot, valueHeadBiases snapshot with
        | Some w, Some b => setParameters (valueHead net) w b
        | _, _ => valueHead net
        end in
      (mkNeuralNetwork (config net) layers' valueHead' (snapTrainingCount snapshot)
         (lastHiddenActivation net) (valueLossWeight net) (weightDecay net)
         (gradientClip net) (learningRate (config net)) (dropout net) (isTraining net)
         (dropoutMasks net),
       None)
  end.

End Engine.
End Network.

(** * The rest of the network's interface

    [predict], the accessors and the static encoders of the [NeuralNetwork]
    class. *)

Module NetworkApi.
Import GameLogic Network.
Local Open Scope R_scope.

(** One iteration of the loop of [predict]: [best] starts at -1 and
    [score] at [-Infinity], which is [None] here. *)
Definition predictStep (policy : list R) (mask : option (list Z))
    (acc : Z * option R) (i : nat) : Z * option R :=
  match policy !! i with
  | None => acc
  | Some s =>
      let masked := match mask with
                    | Some m => bool_decide (m !! i = Some 0%Z)
                    | None => false
                    end in
      if masked then acc
      else
        let higher := match acc.2 with
                      | None => true
                      | Some score => if Rlt_dec score s then true else false
                      end in
        if higher then (Z.of_nat i, Some s) else acc
  end.

(** The loop of [predict] over the policy. *)
Definition bestIndex (policy : list R) (mask : option (list Z)) : Z :=
  (fold_left (predictStep policy mask) (seq 0 (List.length policy)) (-1, None)%Z).1.

(** [getLayerDeltas]: reading a layer that does not exist is a
    [TypeError]. *)
Definition getLayerDeltas (net : NeuralNetwork) (layerIndex : nat)
    : option (list (list R) * list R) :=
  layer ← layers net !! layerIndex;
  Some (weightDeltas layer, biasDeltas layer).

Definition setLearningRate (net : NeuralNetwork) (lr : R) : NeuralNetwork :=
  mkNeuralNetwork (setLearningRateOf (config net) lr) (layers net) (valueHead net)
    (trainingCount net) (lastHiddenActivation net) (valueLossWeight net) (weightDecay net)
    (gradientClip net) lr (dropout net) (isTraining net) (dropoutMasks net).

Definition getLearningRate (net : NeuralNetwork) : R := currentLearningRate net.

(** [boardToInputWithTurn]: one number per cell, then the turn. *)
Definition cellValue (c : ascii) : R :=
  if bool_decide (c = "X"%char) then 1
  else if bool_decide (c = "O"%char) then -1
  else 0.

Definition boardToInputWithTurn (board : string) (turn : PlayerSymbol) : list R :=
  let turnVal := match turn with X => 1 | O => -1 end in
  (map cellValue (list_ascii_of_string board) ++ [turnVal])%list.

Definition boardToMask (board : string) : list Z :=
  map (fun c => if bool_decide (c = "_"%char) then 1%Z else 0%Z)
      (list_ascii_of_string board).

(** The first entry of [getLayerActivations]: the input scaled from
    [-1, 1] to [0, 1] and clamped. *)
Definition inputActivations (input : list R) : list R :=
  map (fun v => Rmax 0 (Rmin 1 ((v + 1) / 2))) input.

(** The entry of a hidden layer: its stored output divided by
    [Math.max(...outputActivation, 0.001)], or the empty array when nothing
    is stored. *)
Definition hiddenActivations (layer : Layer) : list R :=
  match outputActivation layer with
  | [] => []
  | a :: rest =>
      let maxAct := Rmax (fold_left Rmax rest a) 0.001 in
      map (fun v => v / maxAct) (a :: rest)
  end.

(** [getLayerActivations]: a network without layers has no policy layer to
    read, which is a [TypeError]. *)
Definition getLayerActivations (net : NeuralNetwork) (input : list R)
    : option (list (list R)) :=
  '(trunk, policyLayer) ← splitLast (layers net);
  Some (inputActivations input :: map hiddenActivations trunk
          ++ [outputActivation policyLayer])%list.

Section Predict.
Variable Mexp : R → R.
Variable Mtanh : R → R.
Variable Mrandom : nat → R.

Definition predict (net : NeuralNetwork) (rs : nat) (input : list R)
    (mask : option (list Z)) : option (NeuralNetwork * nat * Z) :=
  '(net', rs', (policy, _)) ← forward Mexp Mtanh Mrandom net rs input mask;
  Some (net', rs', bestIndex policy mask).

End Predict.
End NetworkApi.

(** * The opponent of the single-player page

    [aiMove] and its two search functions.  The search has no memo table;
    [fuel] bounds the depth of the recursion as in [Teacher.negamax]. *)

Module Ai.
Import GameLogic Teacher.
Local Open Scope R_scope.

Inductive Difficulty : Type := EASY | HARD.

(** What [aiMove] returns: a number, [null], or the [undefined] of a read
    past the end of [options]. *)
Inductive MoveResult : Type :=
| Null : MoveResult
| Undefined : MoveResult
| Index (i : Z) : MoveResult.

(** [x < y] on numbers. *)
Definition jslt (x y : jsnum) : bool := jsgt y x.

(** [winner === ai ? 10 : -10] *)
Definition winnerScore (winner : ascii) (ai : PlayerSymbol) : jsnum :=
  if bool_decide (winner = symbolChar ai) then Int 10 else Int (-10).

(** One iteration of the loop of [minimax] or of [minimaxOpponent]:
    [better] is the comparison that the function makes and [recurse] the
    function that it calls. *)
Definition searchStep (better : jsnum → jsnum → bool)
    (recurse : string → PlayerSymbol → option (jsnum * option nat))
    (board : string) (player : PlayerSymbol)
    (acc : option (jsnum * option nat)) (i : nat) : option (jsnum * option nat) :=
  '(bestScore, bestIndex) ← acc;
  if negb (isMoveValid board i) then Some (bestScore, bestIndex)
  else
    let nextBoard := applyMove board i player in
    let nextPlayer := nextSymbol player in
    '(score, _) ← recurse nextBoard nextPlayer;
    if better score bestScore then Some (score, Some i) else Some (bestScore, bestIndex).

(** [minimax] and [minimaxOpponent]: the score and the index, [None] for
    the index [null]. *)
Fixpoint minimax (fuel : nat) (board : string) (player ai : PlayerSymbol)
    : option (jsnum * option nat) :=
  match fuel with
  | 0%nat => None
  | S fuel' =>
      match computeWinner board with
      | Some winner => Some (winnerScore winner ai, None)
      | None =>
          if negb (hasEmpty board) then Some (Int 0, None)
          else fold_left
                 (searchStep jsgt (fun b p => minimaxOpponent fuel' b p ai) board player)
                 (seq 0 9) (Some (NegInf, None))
      end
  end
with minimaxOpponent (fuel : nat) (board : string) (player ai : PlayerSymbol)
    : option (jsnum * option nat) :=
  match fuel with
  | 0%nat => None
  | S fuel' =>
      match computeWinner board with
      | Some winner => Some (winnerScore winner ai, None)
      | None =>
          if negb (hasEmpty board) then Some (Int 0, None)
          else fold_left
                 (searchStep jslt (fun b p => minimax fuel' b p ai) board player)
                 (seq 0 9) (Some (PosInf, None))
      end
  end.

(** [[...board].map((c, i) => (c === '_' ? i : -1)).filter((i) => i >= 0)] *)
Definition emptyOptions (board : string) : list Z :=
  filter (fun i => (0 ≤ i)%Z)
         (imap (fun i c => if bool_decide (c = "_"%char) then Z.of_nat i else (-1)%Z)
               (list_ascii_of_string board)).

(** [options[k]] *)
Definition optionAt (options : list Z) (k : Z) : MoveResult :=
  if (k <? 0)%Z then Undefined
  else match options !! Z.to_nat k with
       | Some i => Index i
       | None => Undefined
       end.

(** [aiMove]; [random] is the result of [Math.random()], which only the
    easy opponent reads. *)
Definition aiMove (random : R) (board : string) (aiSymbol : PlayerSymbol)
    (difficulty : Difficulty) : option MoveResult :=
  match difficulty with
  | EASY =>
      let options := emptyOptions board in
      if bool_decide (List.length options = 0%nat) then Some Null
      else Some (optionAt options (Int_part (random * INR (List.length options))))
  | HARD =>
      '(_, index) ← minimax searchFuel board aiSymbol aiSymbol;
      Some (match index with Some i => Index (Z.of_nat i) | None => Null end)
  end.

End Ai.

(** * Loops over [0 .. n-1]

    The source iterates with [for] loops over index ranges; the model folds
    over [seq 0 n] with an optional state.  These two lemmas are the loop
    rules used by the proofs about both the teacher and the network. *)

Module Loops.

Lemma fold_left_None {A B} (f : option A → B → option A) (l : list B) :
  (∀ x, f None x = None) → fold_left f l None = None.
Proof. intros Hf. induction l as [|x l IH]; simpl; [reflexivity|]. now rewrite Hf. Qed.

(** An invariant that every iteration preserves holds when the loop ends. *)
Lemma fold_seq_invariant {A} (f : option A → nat → option A) (Inv : nat → A → Prop)
    (n : nat) (a b : A) :
  (∀ x, f None x = None) →
  Inv 0%nat a →
  (∀ k s s', (k < n)%nat → Inv k s → f (Some s) k = Some s' → Inv (S k) s') →
  fold_left f (seq 0 n) (Some a) = Some b →
  Inv n b.
Proof.
  intros Hnone H0 Hstep. revert b.
  induction n as [|n IH]; intros b.
  - simpl. now intros [= <-].
  - rewrite seq_S, fold_left_app. simpl.
    destruct (fold_left f (seq 0 n) (Some a)) as [s|] eqn:Hs.
    + intros Hb. apply (Hstep n s b); [lia| |exact Hb].
      apply IH; [|reflexivity]. intros k s1 s2 Hk. apply Hstep. lia.
    + rewrite Hnone. discriminate.
Qed.

End Loops.

(** * Properties of the teacher *)

Module TeacherProofs.
Import GameLogic Teacher Loops.

#[local] Arguments negamax : simpl never.
#[local] Arguments walk : simpl never.

(** ** Strings as lists of characters *)

Lemma charAt_lookup (s : string) (i : nat) :
  charAt s i = list_ascii_of_string s !! i.
Proof.
  unfold charAt. revert i. induction s as [|c s IH]; intros [|i]; simpl; auto.
Qed.

Lemma chars_append (s1 s2 : string) :
  list_ascii_of_string (s1 ++ s2) = (list_ascii_of_string s1 ++ list_ascii_of_string s2)%list.
Proof. induction s1 as [|c s1 IH]; simpl; [reflexivity | now rewrite IH]. Qed.

Lemma chars_length (s : string) :
  List.length (list_ascii_of_string s) = String.length s.
Proof. induction s as [|c s IH]; simpl; auto. Qed.

Lemma chars_substring (n m : nat) (s : string) :
  list_ascii_of_string (substring n m s) = take m (drop n (list_ascii_of_string s)).
Proof.
  revert n m. induction s as [|c s IH]; intros [|n] [|m]; simpl; try reflexivity.
  - now rewrite IH.
  - apply IH.
  - apply IH.
Qed.

Lemma chars_applyMove (b : string) (i : nat) (p : PlayerSymbol) :
  list_ascii_of_string (applyMove b i p)
  = (take i (list_ascii_of_string b) ++ symbolChar p :: drop (i + 1) (list_ascii_of_string b))%list.
Proof.
  unfold applyMove. rewrite !chars_append, !chars_substring. simpl.
  rewrite drop_0. f_equal. f_equal.
  apply take_ge. rewrite length_drop, chars_length. lia.
Qed.

(** A move on a cell of the board replaces that cell and no other. *)
Lemma charAt_applyMove (b : string) (i j : nat) (p : PlayerSymbol) :
  (i < String.length b)%nat →
  charAt (applyMove b i p) j = if decide (j = i) then Some (symbolChar p) else charAt b j.
Proof.
  intros Hi. rewrite !charAt_lookup, chars_applyMove.
  rewrite <- chars_length in Hi.
  destruct (decide (j = i)) as [->|Hne].
  - rewrite lookup_app_r by (rewrite length_take; lia).
    rewrite length_take. replace (i - i `min` _)%nat with 0%nat by lia. reflexivity.
  - destruct (decide (j < i)%nat).
    + rewrite lookup_app_l by (rewrite length_take; lia).
      now rewrite lookup_take_lt by lia.
    + rewrite lookup_app_r by (rewrite length_take; lia).
      rewrite length_take.
      replace (j - i `min` _)%nat with (S (j - i - 1)) by lia. simpl.
      rewrite lookup_drop. f_equal. lia.
Qed.

Lemma isMoveValid_lt (b : string) (i : nat) :
  isMoveValid b i = true → (i < String.length b)%nat.
Proof.
  unfold isMoveValid, isEmptyCell. intros H%bool_decide_eq_true.
  rewrite charAt_lookup in H. apply lookup_lt_Some in H. now rewrite chars_length in H.
Qed.

(** ** The search terminates: ten units of fuel are always enough *)

(** The number of moves that [isMoveValid] accepts among the nine cells. *)
Definition emptiesIn (b : string) : nat :=
  List.length (filter (fun i => isMoveValid b i = true) (seq 0 9)).

Lemma emptiesIn_le (b : string) : (emptiesIn b ≤ 9)%nat.
Proof.
  unfold emptiesIn.
  etransitivity; [apply length_filter|]. now rewrite length_seq.
Qed.

Lemma isMoveValid_applyMove (b : string) (i j : nat) (p : PlayerSymbol) :
  (i < String.length b)%nat →
  isMoveValid (applyMove b i p) j = if decide (j = i) then false else isMoveValid b j.
Proof.
  intros Hi. unfold isMoveValid. rewrite charAt_applyMove by assumption.
  destruct (decide (j = i)); [|reflexivity].
  unfold isEmptyCell. apply bool_decide_eq_false. destruct p; discriminate.
Qed.

Lemma filter_length_lt {A} (P Q : A → Prop) `{∀ x, Decision (P x)} `{∀ x, Decision (Q x)}
    (l : list A) (w : A) :
  (∀ x, P x → Q x) → w ∈ l → Q w → ¬ P w →
  (List.length (filter P l) < List.length (filter Q l))%nat.
Proof.
  intros HPQ Hw HQw HPw. induction l as [|x l IH]; [by apply elem_of_nil in Hw|].
  rewrite !filter_cons.
  assert (Hle : (List.length (filter P l) ≤ List.length (filter Q l))%nat).
  { clear -HPQ. induction l as [|y l IH]; [done|]. rewrite !filter_cons.
    destruct (decide (P y)), (decide (Q y)); simpl; try lia. exfalso; auto. }
  apply elem_of_cons in Hw as [<-|Hw].
  - destruct (decide (P w)); [done|]. destruct (decide (Q w)); [simpl; lia|done].
  - specialize (IH Hw).
    destruct (decide (P x)), (decide (Q x)); simpl; try lia. exfalso; auto.
Qed.

Lemma emptiesIn_applyMove (b : string) (i : nat) (p : PlayerSymbol) :
  (i < 9)%nat → isMoveValid b i = true →
  (emptiesIn (applyMove b i p) < emptiesIn b)%nat.
Proof.
  intros Hi Hv. pose proof (isMoveValid_lt _ _ Hv) as Hlt.
  unfold emptiesIn. apply (filter_length_lt _ _ _ i).
  - intros j. rewrite isMoveValid_applyMove by assumption.
    destruct (decide (j = i)); [discriminate | auto].
  - apply elem_of_seq. lia.
  - assumption.
  - rewrite isMoveValid_applyMove by assumption.
    destruct (decide (i = i)); [discriminate | congruence].
Qed.

(** A loop whose body never fails does not fail. *)
Lemma fold_left_option_total {A B} (f : option A → B → option A) (l : list B) (P : B → Prop) :
  (∀ a x, P x → is_Some (f (Some a) x)) →
  Forall P l → ∀ a, is_Some (fold_left f l (Some a)).
Proof.
  intros Hf Hl. induction Hl as [|x l Hx Hl IH]; intros a; simpl; [eauto|].
  destruct (Hf a x Hx) as [a' ->]. apply IH.
Qed.

Lemma negamax_S (fuel : nat) (cache : gmap string jsnum) (b : string)
    (p : PlayerSymbol) (d : Z) :
  negamax (S fuel) cache b p d =
  match cache !! cacheKey b p with
  | Some cached => Some (cached, cache)
  | None =>
      match terminalScore b d with
      | Some terminal => Some (terminal, <[cacheKey b p := terminal]> cache)
      | None =>
          '(best, cache') ←
            fold_left (negamaxStep (negamax fuel) b p d) (seq 0 9) (Some (NegInf, cache));
          Some (best, <[cacheKey b p := best]> cache')
      end
  end.
Proof. reflexivity. Qed.

Lemma negamax_fuel (fuel : nat) :
  ∀ cache b p d, (emptiesIn b < fuel)%nat → is_Some (negamax fuel cache b p d).
Proof.
  induction fuel as [|fuel IH]; intros cache b p d Hlt; [lia|].
  rewrite negamax_S. destruct (cache !! cacheKey b p); [eauto|].
  destruct (terminalScore b d); [eauto|].
  assert (Hstep : ∀ a i, (i < 9)%nat →
            is_Some (negamaxStep (negamax fuel) b p d (Some a) i)).
  { intros [best c] i Hi. unfold negamaxStep. simpl.
    destruct (isMoveValid b i) eqn:Hv; simpl; [|eauto].
    destruct (IH c (applyMove b i p) (nextSymbol p) (d + 1)) as [[v c'] ->]; simpl; eauto.
    pose proof (emptiesIn_applyMove b i p Hi Hv). lia. }
  assert (Hall : Forall (fun i => (i < 9)%nat) (seq 0 9)).
  { apply Forall_forall. intros i Hi%elem_of_seq. lia. }
  destruct (fold_left_option_total _ _ _ Hstep Hall (NegInf, cache)) as [[best c] ->].
  simpl. eauto.
Qed.

Lemma scoreMoves_total (cache : gmap string jsnum) (b : string) (t : PlayerSymbol)
    (m : list Z) :
  is_Some (scoreMoves cache b t m).
Proof.
  unfold scoreMoves.
  apply (fold_left_option_total _ _ (fun _ => True)); [|apply Forall_forall; auto].
  intros [[best scores] c] i _. unfold scoreStep. simpl.
  destruct (bool_decide (m !! i = Some 0)); [eauto|].
  destruct (negamax_fuel searchFuel c (applyMove b i t) (nextSymbol t) 1) as [[v c'] ->];
    simpl; eauto.
  pose proof (emptiesIn_le (applyMove b i t)). unfold searchFuel. lia.
Qed.

(** [minimaxPolicy] returns on every board, whatever the tables hold. *)
Lemma minimaxPolicy_total (st : Caches) (b : string) (t : PlayerSymbol) :
  is_Some (minimaxPolicy st b t).
Proof.
  unfold minimaxPolicy.
  destruct (policyCache st !! cacheKey b t) as [[pol v]|]; [eauto|].
  destruct (isTerminal b); [eauto|].
  destruct (scoreMoves_total (negamaxCache st) b t (boardMask b)) as [[[best scores] c] ->].
  simpl. eauto.
Qed.

(** ** Memo tables and repeated queries *)

Lemma minimaxPolicy_hit (st : Caches) (b : string) (t : PlayerSymbol) (pol : list Q) (v : Q) :
  policyCache st !! cacheKey b t = Some (pol, v) →
  minimaxPolicy st b t = Some (mkPolicyResult pol (boardMask b) v, st).
Proof. intros H. unfold minimaxPolicy. now rewrite H. Qed.

(** After a call, the policy table holds the answer that was returned, and
    no earlier entry was lost. *)
Lemma minimaxPolicy_records (st st' : Caches) (b : string) (t : PlayerSymbol)
    (r : PolicyResult) :
  minimaxPolicy st b t = Some (r, st') →
  policyCache st' !! cacheKey b t = Some (policy r, value r)
  ∧ mask r = boardMask b
  ∧ policyCache st ⊆ policyCache st'.
Proof.
  unfold minimaxPolicy.
  destruct (policyCache st !! cacheKey b t) as [[pol v]|] eqn:Hlook.
  - intros [= <- <-]. simpl. auto.
  - destruct (isTerminal b).
    + intros [= <- <-]. simpl. rewrite lookup_insert_eq.
      split_and!; auto. now apply insert_subseteq.
    + destruct (scoreMoves _ _ _ _) as [[[best scores] c]|]; simpl; [|discriminate].
      intros [= <- <-]. simpl. rewrite lookup_insert_eq.
      split_and!; auto. now apply insert_subseteq.
Qed.

(** The tables after any number of further queries. *)
Inductive laterCaches (st : Caches) : Caches → Prop :=
| later_here : laterCaches st st
| later_call (st1 st2 : Caches) (b : string) (t : PlayerSymbol) (r : PolicyResult) :
    laterCaches st st1 →
    minimaxPolicy st1 b t = Some (r, st2) →
    laterCaches st st2.

Lemma laterCaches_policyCache (st st' : Caches) :
  laterCaches st st' → policyCache st ⊆ policyCache st'.
Proof.
  induction 1 as [|st1 st2 b t r _ IH Hcall]; [reflexivity|].
  etransitivity; [exact IH|]. now apply minimaxPolicy_records in Hcall.
Qed.

Lemma filter_none {A} (P : A → Prop) `{∀ x, Decision (P x)} (l : list A) :
  (∀ x, x ∈ l → ¬ P x) → filter P l = [].
Proof.
  induction l as [|x l IH]; intros Hl; [reflexivity|].
  rewrite filter_cons. destruct (decide (P x)) as [HP|_].
  - exfalso. apply (Hl x); [apply elem_of_cons; now left | exact HP].
  - apply IH. intros y Hy. apply Hl. apply elem_of_cons; now right.
Qed.

Lemma filter_unique {A} (P : A → Prop) `{∀ x, Decision (P x)} (l : list A) (w : A) :
  NoDup l → w ∈ l → P w → (∀ x, x ∈ l → P x → x = w) → filter P l = [w].
Proof.
  intros Hnd Hw HPw Huniq. induction Hnd as [|x l Hx Hnd IH]; [by apply elem_of_nil in Hw|].
  rewrite filter_cons. apply elem_of_cons in Hw as [<-|Hw].
  - destruct (decide (P w)); [|done]. f_equal.
    apply filter_none. intros y Hy HPy.
    apply Hx. rewrite <- (Huniq y); [done| |done]. apply elem_of_cons; now right.
  - destruct (decide (P x)) as [HPx|_].
    + exfalso. apply Hx. rewrite (Huniq x); [done| |done]. apply elem_of_cons; now left.
    + apply IH; [done|]. intros y Hy. apply Huniq. apply elem_of_cons; now right.
Qed.

(** ** Keys, lengths and counts *)

Lemma string_chars_inj (s1 s2 : string) :
  list_ascii_of_string s1 = list_ascii_of_string s2 → s1 = s2.
Proof.
  intros H. rewrite <- (string_of_list_ascii_of_string s1),
    <- (string_of_list_ascii_of_string s2). now rewrite H.
Qed.

(** Two queries share a memo key only when they are the same query. *)
Lemma cacheKey_inj (b b' : string) (p p' : PlayerSymbol) :
  cacheKey b p = cacheKey b' p' → b = b' ∧ p = p'.
Proof.
  unfold cacheKey. intros H. apply (f_equal list_ascii_of_string) in H.
  rewrite !chars_append in H. simpl in H.
  change (list_ascii_of_string b ++ "|"%char :: [symbolChar p])%list
    with (list_ascii_of_string b ++ ["|"%char] ++ [symbolChar p])%list in H.
  change (list_ascii_of_string b' ++ "|"%char :: [symbolChar p'])%list
    with (list_ascii_of_string b' ++ ["|"%char] ++ [symbolChar p'])%list in H.
  rewrite !app_assoc in H.
  apply app_inj_tail in H as [H Hp]. apply app_inj_tail in H as [H _].
  split; [now apply string_chars_inj|].
  destruct p, p'; try reflexivity; discriminate Hp.
Qed.

Lemma length_applyMove (b : string) (i : nat) (p : PlayerSymbol) :
  (i < String.length b)%nat → String.length (applyMove b i p) = String.length b.
Proof.
  intros Hi. rewrite <- !chars_length, chars_applyMove.
  rewrite length_app, length_take. simpl. rewrite length_drop, chars_length. lia.
Qed.

Lemma filter_length_remove {A} (P Q : A → Prop) `{∀ x, Decision (P x)} `{∀ x, Decision (Q x)}
    (l : list A) (w : A) :
  NoDup l → w ∈ l → Q w → ¬ P w → (∀ x, x ≠ w → (P x ↔ Q x)) →
  S (List.length (filter P l)) = List.length (filter Q l).
Proof.
  intros Hnd Hw HQw HPw Hiff. induction Hnd as [|x l Hx Hnd IH]; [by apply elem_of_nil in Hw|].
  rewrite !filter_cons. apply elem_of_cons in Hw as [<-|Hw].
  - destruct (decide (P w)); [done|]. destruct (decide (Q w)); [|done]. simpl. f_equal.
    clear IH. induction l as [|y l IH]; [reflexivity|].
    apply not_elem_of_cons in Hx as [Hne Hx]. apply NoDup_cons in Hnd as [_ Hnd].
    rewrite !filter_cons. specialize (IH Hx Hnd).
    destruct (decide (P y)) as [HP|HP], (decide (Q y)) as [HQ|HQ]; simpl; try lia.
    + exfalso. apply HQ, Hiff; [congruence | exact HP].
    + exfalso. apply HP, Hiff; [congruence | exact HQ].
  - specialize (IH Hw). assert (x ≠ w) by (intros ->; contradiction).
    destruct (decide (P x)) as [HP|HP], (decide (Q x)) as [HQ|HQ]; simpl; try lia.
    + exfalso. apply HQ, Hiff; assumption.
    + exfalso. apply HP, Hiff; assumption.
Qed.

(** A move fills exactly one empty cell. *)
Lemma emptiesIn_applyMove_S (b : string) (i : nat) (p : PlayerSymbol) :
  (i < 9)%nat → isMoveValid b i = true →
  S (emptiesIn (applyMove b i p)) = emptiesIn b.
Proof.
  intros Hi Hv. pose proof (isMoveValid_lt _ _ Hv) as Hlt.
  unfold emptiesIn. apply (filter_length_remove _ _ _ i).
  - apply NoDup_seq.
  - apply elem_of_seq. lia.
  - exact Hv.
  - rewrite isMoveValid_applyMove by assumption.
    destruct (decide (i = i)); [discriminate | congruence].
  - intros j Hj. rewrite isMoveValid_applyMove by assumption.
    destruct (decide (j = i)); [contradiction | reflexivity].
Qed.

(** On a nine-cell board, [board.includes('_')] means that some move is
    legal. *)
Lemma hasEmpty_valid (b : string) :
  String.length b = 9%nat → hasEmpty b = true → ∃ i, (i < 9)%nat ∧ isMoveValid b i = true.
Proof.
  intros Hlen Hempty. unfold hasEmpty in Hempty.
  apply existsb_exists in Hempty as (c & Hin & Hc).
  apply bool_decide_eq_true in Hc. subst c.
  apply list_elem_of_In, list_elem_of_lookup in Hin as [i Hi].
  exists i. split.
  - apply lookup_lt_Some in Hi. rewrite chars_length in Hi. lia.
  - unfold isMoveValid, isEmptyCell. rewrite charAt_lookup, Hi.
    now apply bool_decide_eq_true_2.
Qed.

Lemma emptiesIn_valid (b : string) (i : nat) :
  (i < 9)%nat → isMoveValid b i = true → (0 < emptiesIn b)%nat.
Proof.
  intros Hi Hv. unfold emptiesIn.
  assert (Hin : i ∈ filter (fun j => isMoveValid b j = true) (seq 0 9)).
  { apply list_elem_of_filter. split; [exact Hv | apply elem_of_seq; lia]. }
  destruct (filter _ _); [by apply elem_of_nil in Hin | simpl; lia].
Qed.

(** ** Winning lines *)

Definition lineTest (b : string) (l : nat * nat * nat) : bool :=
  negb (isEmptyCell (charAt b l.1.1))
  && bool_decide (charAt b l.1.1 = charAt b l.1.2)
  && bool_decide (charAt b l.1.2 = charAt b l.2).

Lemma scanLines_Some (b : string) (lines : list (nat * nat * nat)) (c : ascii) :
  scanLines b lines = Some c →
  ∃ l, l ∈ lines ∧ lineTest b l = true ∧ charAt b l.1.1 = Some c.
Proof.
  induction lines as [|[[x y] z] lines IH]; simpl; [discriminate|].
  destruct (negb _ && _ && _) eqn:Htest.
  - intros Hc. exists (x, y, z). split; [apply elem_of_cons; now left|]. auto.
  - intros Hc. destruct (IH Hc) as (l & Hl & Hrest). exists l.
    split; [apply elem_of_cons; now right | exact Hrest].
Qed.

Lemma scanLines_None (b : string) (lines : list (nat * nat * nat)) :
  scanLines b lines = None →
  Forall (fun l => is_Some (charAt b l.1.1)) lines →
  Forall (fun l => lineTest b l = false) lines.
Proof.
  induction lines as [|[[x y] z] lines IH]; simpl; [constructor|].
  intros Hscan Hdef. apply Forall_cons in Hdef as [[c Hc] Hdef].
  destruct (negb _ && _ && _) eqn:Htest.
  - simpl in Hc. congruence.
  - constructor; [exact Htest | auto].
Qed.

Lemma WINNING_LINES_range :
  Forall (fun l => (l.1.1 < 9 ∧ l.1.2 < 9 ∧ l.2 < 9)%nat) WINNING_LINES.
Proof. repeat constructor. Qed.

Lemma charAt_is_Some (b : string) (i : nat) :
  String.length b = 9%nat → (i < 9)%nat → is_Some (charAt b i).
Proof.
  intros Hlen Hi. rewrite charAt_lookup. apply lookup_lt_is_Some_2.
  rewrite chars_length. lia.
Qed.

(** On an open board, a move can only complete a line of the mark that was
    just placed. *)
Lemma winner_after_move (b : string) (i : nat) (t : PlayerSymbol) (c : ascii) :
  String.length b = 9%nat →
  computeWinner b = None →
  (i < 9)%nat →
  computeWinner (applyMove b i t) = Some c →
  c = symbolChar t.
Proof.
  intros Hlen Hopen Hi Hwin. unfold computeWinner in *.
  apply scanLines_Some in Hwin as ([[x y] z] & Hl & Htest & Hc).
  assert (Hold : lineTest b (x, y, z) = false).
  { assert (Hall : Forall (fun l => lineTest b l = false) WINNING_LINES).
    { apply scanLines_None; [exact Hopen|].
      eapply Forall_impl; [apply WINNING_LINES_range|].
      intros l (H1 & _ & _). now apply charAt_is_Some. }
    rewrite Forall_forall in Hall. now apply Hall. }
  assert (Hib : (i < String.length b)%nat) by lia.
  unfold lineTest in Htest, Hold. simpl in *.
  rewrite (charAt_applyMove b i x t Hib) in Hc.
  rewrite (charAt_applyMove b i x t Hib), (charAt_applyMove b i y t Hib),
    (charAt_applyMove b i z t Hib) in Htest.
  apply andb_true_iff in Htest as [Htest H3]. apply andb_true_iff in Htest as [H1 H2].
  apply bool_decide_eq_true in H2, H3.
  destruct (decide (x = i)) as [Hx|Hx], (decide (y = i)) as [Hy|Hy],
    (decide (z = i)) as [Hz|Hz]; try congruence.
  exfalso. rewrite H1 in Hold. simpl in Hold.
  rewrite (bool_decide_eq_true_2 _ H2), (bool_decide_eq_true_2 _ H3) in Hold.
  discriminate Hold.
Qed.

(** ** The scores of one search

    Within one call of [minimaxPolicy], the depth at which [negamax] meets a
    board is the number of cells filled since the call.  The scores it
    returns and the scores it stores then lie in a range that the depth
    fixes. *)

Section Search.

(** The number of empty cells of the board that [minimaxPolicy] was called
    on. *)
Variable e0 : nat.
Hypothesis e0_le : (e0 ≤ 9)%nat.

Definition depthOf (b : string) : Z := Z.of_nat e0 - Z.of_nat (emptiesIn b).

(** A lost position carries the exact depth; an open or drawn one is
    bounded by the quickest win still possible. *)
Definition valueOk (b : string) (v : jsnum) : Prop :=
  ∃ z, v = Int z
       ∧ (is_Some (computeWinner b) → z = - (SCORE_WIN - depthOf b))
       ∧ (computeWinner b = None → - (9 - depthOf b) ≤ z ≤ 9 - depthOf b).

Definition cacheInv (cache : gmap string jsnum) : Prop :=
  ∀ b p v, cache !! cacheKey b p = Some v → valueOk b v.

Lemma cacheInv_empty : cacheInv ∅.
Proof. intros b p v H. rewrite lookup_empty in H. discriminate H. Qed.

Lemma cacheInv_insert (cache : gmap string jsnum) (b : string) (p : PlayerSymbol) (v : jsnum) :
  cacheInv cache → valueOk b v → cacheInv (<[cacheKey b p := v]> cache).
Proof.
  intros Hinv Hv b' p' v' Hlook.
  destruct (decide (cacheKey b p = cacheKey b' p')) as [Heq|Hne].
  - rewrite Heq, lookup_insert_eq in Hlook. injection Hlook as <-.
    apply cacheKey_inj in Heq as [<- _]. exact Hv.
  - rewrite lookup_insert_ne in Hlook by exact Hne. eapply Hinv. exact Hlook.
Qed.

Lemma depthOf_applyMove (b : string) (i : nat) (p : PlayerSymbol) :
  (i < 9)%nat → isMoveValid b i = true → depthOf (applyMove b i p) = depthOf b + 1.
Proof.
  clear e0_le.
  intros Hi Hv. unfold depthOf. pose proof (emptiesIn_applyMove_S b i p Hi Hv). lia.
Qed.

(** The range of the running maximum in the loop of [negamax] at depth [d]. *)
Definition bestOk (d : Z) (best : jsnum) : Prop :=
  ∃ z, best = Int z ∧ - (8 - d) ≤ z ≤ 9 - d.

Lemma negamax_inv (fuel : nat) :
  ∀ cache b p r cache',
    String.length b = 9%nat →
    1 ≤ depthOf b →
    cacheInv cache →
    negamax fuel cache b p (depthOf b) = Some (r, cache') →
    valueOk b r ∧ cacheInv cache'.
Proof.
  induction fuel as [|fuel IH]; intros cache b p r cache' Hlen Hd Hinv; [discriminate|].
  assert (Hd9 : depthOf b ≤ 9) by (unfold depthOf; lia).
  rewrite negamax_S.
  destruct (cache !! cacheKey b p) as [cached|] eqn:Hlook.
  { intros [= <- <-]. split; [eapply Hinv; exact Hlook | exact Hinv]. }
  unfold terminalScore.
  destruct (bool_decide (is_Some (computeWinner b))) eqn:Hwin.
  { intros [= <- <-]. apply bool_decide_eq_true in Hwin.
    assert (Hok : valueOk b (Int (- (SCORE_WIN - depthOf b)))).
    { eexists. split_and!; [reflexivity | auto |].
      intros Hnone. rewrite Hnone in Hwin. destruct Hwin as [? [=]]. }
    split; [exact Hok | now apply cacheInv_insert]. }
  apply bool_decide_eq_false in Hwin.
  assert (Hopen : computeWinner b = None).
  { destruct (computeWinner b); [exfalso; apply Hwin; eauto | reflexivity]. }
  destruct (negb (hasEmpty b)) eqn:Hfull.
  { intros [= <- <-].
    assert (Hok : valueOk b (Int 0)).
    { eexists. split_and!; [reflexivity | intros H; contradiction | intros _; lia]. }
    split; [exact Hok | now apply cacheInv_insert]. }
  apply negb_false_iff in Hfull.
  destruct (hasEmpty_valid b Hlen Hfull) as (i0 & Hi0 & Hv0).
  destruct (fold_left _ _ _) as [[best c]|] eqn:Hfold; simpl; [|discriminate].
  intros [= <- <-].
  pose (Inv := fun (k : nat) (s : jsnum * gmap string jsnum) =>
    cacheInv s.2
    ∧ (((∀ i, (i < k)%nat → isMoveValid b i = false) ∧ s.1 = NegInf)
       ∨ bestOk (depthOf b) s.1)).
  assert (Hend : Inv 9%nat (best, c)).
  { eapply (fold_seq_invariant _ Inv); [| | |exact Hfold].
    - reflexivity.
    - split; [exact Hinv|]. left. split; [intros i Hi; lia | reflexivity].
    - intros k [best0 c0] [best1 c1] Hk [Hc0 Hbest0]. unfold negamaxStep. simpl in *.
      destruct (isMoveValid b k) eqn:Hvk; simpl.
      + destruct (negamax fuel c0 (applyMove b k p) (nextSymbol p) (depthOf b + 1))
          as [[v c2]|] eqn:Hrec; simpl; [|discriminate].
        intros [= <- <-].
        rewrite <- (depthOf_applyMove b k p Hk Hvk) in Hrec.
        assert (Hlenk : String.length (applyMove b k p) = 9%nat).
        { rewrite length_applyMove; [exact Hlen | now apply isMoveValid_lt]. }
        assert (Hdk : 1 ≤ depthOf (applyMove b k p))
          by (rewrite (depthOf_applyMove b k p Hk Hvk); lia).
        assert (Hd8 : depthOf b + 1 ≤ 9)
          by (rewrite <- (depthOf_applyMove b k p Hk Hvk); unfold depthOf; lia).
        destruct (IH c0 _ _ v c2 Hlenk Hdk Hc0 Hrec) as [(z & -> & Hlost & Hbound) Hc2].
        rewrite (depthOf_applyMove b k p Hk Hvk) in Hlost, Hbound.
        split; [exact Hc2|]. right.
        assert (Hscore : bestOk (depthOf b) (Int (- z))).
        { exists (- z). split; [reflexivity|].
          destruct (computeWinner (applyMove b k p)) as [c'|] eqn:Hc'.
          - rewrite Hlost by eauto. unfold SCORE_WIN. lia.
          - specialize (Hbound eq_refl). lia. }
        simpl jsneg.
        destruct (jsgt (Int (- z)) best0) eqn:Hgt; [exact Hscore|].
        destruct Hbest0 as [[_ ->]|Hb]; [discriminate Hgt | exact Hb].
      + intros [= <- <-]. split; [exact Hc0|].
        destruct Hbest0 as [[Hnone ->]|Hb]; [|now right].
        left. split; [|reflexivity]. intros i Hi.
        destruct (decide (i = k)) as [->|Hne]; [exact Hvk | apply Hnone; lia]. }
  destruct Hend as [Hc [[Hnone _]|(z & Hz & Hrange)]].
  { rewrite (Hnone i0 Hi0) in Hv0. discriminate Hv0. }
  simpl in Hz, Hc. subst best.
  assert (Hok : valueOk b (Int z)).
  { exists z. split_and!; [reflexivity | intros H; contradiction | intros _; lia]. }
  split; [exact Hok | now apply cacheInv_insert].
Qed.

End Search.

(** ** A board with one winning move *)

Lemma boardMask_lookup (b : string) (i : nat) :
  boardMask b !! i
  = (fun c => if bool_decide (c = "_"%char) then 1 else 0) <$> charAt b i.
Proof. unfold boardMask. now rewrite list_lookup_fmap, charAt_lookup. Qed.

Lemma boardMask_length (b : string) : List.length (boardMask b) = String.length b.
Proof. unfold boardMask. now rewrite length_map, chars_length. Qed.

(** On a nine-cell board the mask is 1 exactly on the legal moves and 0 on
    the other cells. *)
Lemma boardMask_cases (b : string) (i : nat) :
  String.length b = 9%nat → (i < 9)%nat →
  (isMoveValid b i = true ∧ boardMask b !! i = Some 1)
  ∨ (isMoveValid b i = false ∧ boardMask b !! i = Some 0).
Proof.
  intros Hlen Hi. rewrite boardMask_lookup. unfold isMoveValid, isEmptyCell.
  destruct (charAt_is_Some b i Hlen Hi) as [c ->]. simpl.
  destruct (decide (c = "_"%char)) as [->|Hne].
  - left. now rewrite !bool_decide_eq_true_2.
  - right. rewrite !bool_decide_eq_false_2; [done | congruence | congruence].
Qed.

Lemma isMoveValid_hasEmpty (b : string) (i : nat) :
  isMoveValid b i = true → hasEmpty b = true.
Proof.
  unfold isMoveValid, isEmptyCell, hasEmpty. intros H%bool_decide_eq_true.
  rewrite charAt_lookup in H. apply existsb_exists. exists "_"%char. split.
  - apply list_elem_of_In, list_elem_of_lookup. eauto.
  - now apply bool_decide_eq_true_2.
Qed.

(** The moves that win at once for [t]. *)
Definition winsAtOnce (b : string) (t : PlayerSymbol) (i : nat) : bool :=
  isMoveValid b i && bool_decide (computeWinner (applyMove b i t) = Some (symbolChar t)).

Definition forcedWinAnswer (b : string) (w : nat) : PolicyResult :=
  mkPolicyResult (<[w := 1%Q]> (repeat 0%Q 9)) (boardMask b) (9 # 10)%Q.

(** A score below that of an immediate win. *)
Definition belowWin (s : jsnum) : Prop := s = NegInf ∨ ∃ z, s = Int z ∧ z ≤ 8.

Lemma belowWin_jsgt (s best : jsnum) :
  belowWin s → belowWin best → belowWin (if jsgt s best then s else best).
Proof. intros Hs Hb. now destruct (jsgt s best). Qed.

Lemma belowWin_not_win (s : jsnum) : belowWin s → s ≠ Int 9.
Proof. intros [->|(z & -> & Hz)]; [discriminate | intros [= ->]; lia]. Qed.

Section ForcedWin.

Variable b : string.
Variable t : PlayerSymbol.
Variable w : nat.

Hypothesis b_length : String.length b = 9%nat.
Hypothesis b_open : computeWinner b = None.
Hypothesis w_lt : (w < 9)%nat.
Hypothesis w_wins : winsAtOnce b t w = true.
Hypothesis w_only : ∀ i, (i < 9)%nat → winsAtOnce b t i = true → i = w.

Lemma w_valid : isMoveValid b w = true.
Proof. unfold winsAtOnce in w_wins. now apply andb_true_iff in w_wins as [H _]. Qed.

Lemma e0_bounds : (0 < emptiesIn b ≤ 9)%nat.
Proof. split; [apply (emptiesIn_valid b w w_lt w_valid) | apply emptiesIn_le]. Qed.

(** The score of the move [i], from tables that satisfy the invariant. *)
Lemma child_score (cache cache' : gmap string jsnum) (i : nat) (v : jsnum) :
  (i < 9)%nat → isMoveValid b i = true →
  cacheInv (emptiesIn b) cache →
  negamax searchFuel cache (applyMove b i t) (nextSymbol t) 1 = Some (v, cache') →
  cacheInv (emptiesIn b) cache'
  ∧ (i = w → jsneg v = Int 9)
  ∧ (i ≠ w → belowWin (jsneg v)).
Proof.
  intros Hi Hv Hinv Hrun.
  pose proof e0_bounds as [_ He0].
  assert (Hd : depthOf (emptiesIn b) (applyMove b i t) = 1).
  { rewrite (depthOf_applyMove _ b i t Hi Hv). unfold depthOf. lia. }
  rewrite <- Hd in Hrun.
  assert (Hlen : String.length (applyMove b i t) = 9%nat).
  { rewrite length_applyMove; [exact b_length | now apply isMoveValid_lt]. }
  destruct (negamax_inv (emptiesIn b) He0 searchFuel cache _ _ v cache' Hlen
              ltac:(lia) Hinv Hrun) as [(z & -> & Hlost & Hbound) Hinv'].
  rewrite Hd in Hlost, Hbound. split_and!; [exact Hinv'| |].
  - intros ->. unfold winsAtOnce in w_wins.
    apply andb_true_iff in w_wins as [_ Hw%bool_decide_eq_true].
    simpl. rewrite Hlost by (rewrite Hw; eauto). reflexivity.
  - intros Hne. right. exists (- z). split; [reflexivity|].
    destruct (computeWinner (applyMove b i t)) as [c|] eqn:Hc.
    + exfalso. apply Hne, w_only; [exact Hi|].
      unfold winsAtOnce. rewrite Hv. simpl. apply bool_decide_eq_true_2.
      rewrite Hc in *. f_equal.
      apply (winner_after_move b i t c b_length b_open Hi Hc).
    + specialize (Hbound eq_refl). lia.
Qed.

(** The state of the first loop of [minimaxPolicy] before iteration [k]. *)
Definition scoresInv (k : nat) (s : jsnum * list jsnum * gmap string jsnum) : Prop :=
  cacheInv (emptiesIn b) s.2
  ∧ List.length s.1.2 = 9%nat
  ∧ (∀ i x, s.1.2 !! i = Some x → i ≠ w → belowWin x)
  ∧ (((w < k)%nat ∧ s.1.1 = Int 9 ∧ s.1.2 !! w = Some (Int 9))
     ∨ ((k ≤ w)%nat ∧ belowWin s.1.1)).

Lemma scoreStep_inv (k : nat) (s s' : jsnum * list jsnum * gmap string jsnum) :
  (k < 9)%nat → scoresInv k s →
  scoreStep b t (boardMask b) (Some s) k = Some s' →
  scoresInv (S k) s'.
Proof.
  intros Hk (Hinv & Hlen & Hothers & Hbest). destruct s as [[best scores] c].
  unfold scoreStep. simpl in *.
  destruct (boardMask_cases b k b_length Hk) as [[Hvk Hmk]|[Hvk Hmk]]; rewrite Hmk.
  - rewrite bool_decide_eq_false_2 by discriminate.
    destruct (negamax searchFuel c (applyMove b k t) (nextSymbol t) 1) as [[v c']|] eqn:Hrun;
      simpl; [|discriminate].
    intros [= <-].
    destruct (child_score c c' k v Hk Hvk Hinv Hrun) as (Hinv' & Hwin & Hbelow).
    unfold scoresInv. simpl. split_and!; [exact Hinv' | now rewrite length_insert | |].
    + intros i x Hx Hne. destruct (decide (i = k)) as [->|Hik].
      * rewrite list_lookup_insert_eq in Hx by lia. injection Hx as <-. now apply Hbelow.
      * rewrite list_lookup_insert_ne in Hx by congruence. eapply Hothers; eassumption.
    + destruct (decide (k = w)) as [->|Hkw].
      * left. rewrite (Hwin eq_refl).
        destruct Hbest as [[Hlt _]|[_ Hb]]; [lia|].
        split_and!; [lia | | now rewrite list_lookup_insert_eq by lia].
        destruct Hb as [->|(z & -> & Hz)]; simpl; [reflexivity|].
        destruct (z <? 9) eqn:E; [reflexivity | apply Z.ltb_ge in E; lia].
      * specialize (Hbelow Hkw).
        destruct Hbest as [(Hlt & -> & Hw)|[Hle Hb]].
        -- left. split_and!; [lia | | now rewrite list_lookup_insert_ne by congruence].
           destruct Hbelow as [->|(z & -> & Hz)]; simpl; [reflexivity|].
           destruct (9 <? z) eqn:E; [apply Z.ltb_lt in E; lia | reflexivity].
        -- right. split; [lia | now apply belowWin_jsgt].
  - rewrite bool_decide_eq_true_2 by reflexivity. intros [= <-].
    assert (Hkw : k ≠ w) by (intros ->; rewrite w_valid in Hvk; discriminate).
    unfold scoresInv. simpl. split_and!; auto.
    destruct Hbest as [(Hlt & Hb)|[Hle Hb]]; [left; split; [lia | exact Hb] |].
    right. split; [lia | exact Hb].
Qed.

Lemma scoreMoves_forced (cache : gmap string jsnum) :
  cacheInv (emptiesIn b) cache →
  ∃ scores cache',
    scoreMoves cache b t (boardMask b) = Some (Int 9, scores, cache')
    ∧ List.length scores = 9%nat
    ∧ scores !! w = Some (Int 9)
    ∧ ∀ i x, scores !! i = Some x → i ≠ w → x ≠ Int 9.
Proof.
  intros Hinv.
  destruct (scoreMoves_total cache b t (boardMask b)) as [[[best scores] cache'] Hrun].
  assert (Hend : scoresInv 9 (best, scores, cache')).
  { unfold scoreMoves in Hrun.
    eapply (fold_seq_invariant _ scoresInv); [| | |exact Hrun].
    - reflexivity.
    - unfold scoresInv. simpl. split_and!; [exact Hinv | reflexivity | |].
      + intros i x Hx _. left.
        apply list_elem_of_lookup_2, list_elem_of_In in Hx. exact (repeat_spec 9 NegInf x Hx).
      + right. split; [lia | now left].
    - intros k s s' Hk. now apply scoreStep_inv. }
  destruct Hend as (_ & Hlen & Hothers & [(_ & Hb & Hw)|[Hle _]]); [|lia].
  simpl in *. subst best. exists scores, cache'. split_and!; auto.
  intros i x Hx Hne. apply belowWin_not_win. eapply Hothers; eassumption.
Qed.

End ForcedWin.


Lemma bestMovesOf_unique (scores : list jsnum) (mask : list Z) (best : jsnum) (w : nat) :
  scores !! w = Some best →
  mask !! w = Some 1 →
  (∀ i x, scores !! i = Some x → i ≠ w → x ≠ best) →
  bestMovesOf scores mask best = [w].
Proof.
  intros Hw Hm Hothers. unfold bestMovesOf.
  rewrite (filter_unique _ (imap (fun i s => (i, s)) scores) (w, best)); [reflexivity| | | |].
  - apply NoDup_alt. intros i j [k x] Hi Hj.
    rewrite list_lookup_imap in Hi, Hj.
    destruct (scores !! i); simpl in Hi; [|discriminate].
    destruct (scores !! j); simpl in Hj; [|discriminate].
    congruence.
  - apply elem_of_lookup_imap. eauto.
  - simpl. apply andb_True. split; [now apply bool_decide_pack|].
    unfold jseq. now apply bool_decide_pack.
  - intros [i x] Hin HP. apply elem_of_lookup_imap in Hin as (i' & x' & [= -> ->] & Hx).
    simpl in HP. apply andb_True in HP as [_ HP]. unfold jseq in HP.
    apply bool_decide_unpack in HP. subst x'.
    destruct (decide (i' = w)) as [->|Hne]; [reflexivity|].
    exfalso. exact (Hothers i' best Hx Hne eq_refl).
Qed.

(** The answer of [minimaxPolicy] on a board with one winning move, from
    tables that hold no entry for the query and whose scores are in range. *)
Lemma forced_win_from_tables (b : string) (t : PlayerSymbol) (w : nat) :
  String.length b = 9%nat →
  computeWinner b = None →
  (w < 9)%nat →
  winsAtOnce b t w = true →
  (∀ i, (i < 9)%nat → winsAtOnce b t i = true → i = w) →
  ∀ st, policyCache st !! cacheKey b t = None →
        cacheInv (emptiesIn b) (negamaxCache st) →
        ∃ st', minimaxPolicy st b t = Some (forcedWinAnswer b w, st').
Proof.
  intros Hlen Hopen Hw Hwin Honly st Hmiss Hinv.
  pose proof (w_valid b t w Hwin) as Hvalid.
  unfold minimaxPolicy. rewrite Hmiss.
  assert (Hterm : isTerminal b = false).
  { unfold isTerminal. rewrite Hopen, (isMoveValid_hasEmpty b w Hvalid).
    rewrite bool_decide_eq_false_2 by (intros [? [=]]). reflexivity. }
  rewrite Hterm.
  destruct (scoreMoves_forced b t w Hlen Hopen Hw Hwin Honly (negamaxCache st) Hinv)
    as (scores & cache' & -> & Hslen & Hsw & Hothers).
  simpl.
  assert (Hmask : boardMask b !! w = Some 1).
  { destruct (boardMask_cases b w Hlen Hw) as [[_ H]|[H _]]; [exact H | congruence]. }
  rewrite (bestMovesOf_unique scores (boardMask b) (Int 9) w Hsw Hmask Hothers).
  eexists. reflexivity.
Qed.


(** ** The policy of an open board

    The policy that [minimaxPolicy] gives on an open nine-cell board is a
    distribution over the legal moves, whatever the score table holds. *)

Definition policyOk (pol : list Q) (m : list Z) : Prop :=
  (legalMass pol m == 1)%Q
  ∧ ∀ i, m !! i = Some 0 → ∃ p, pol !! i = Some p ∧ (p == 0)%Q.

(** The term that cell [i] adds to [legalMass]. *)
Definition massAt (pol : list Q) (m : list Z) (i : nat) : Q :=
  if bool_decide (m !! i = Some 1) then default 0%Q (pol !! i) else 0%Q.

Definition sumQ (l : list Q) : Q := fold_right Qplus 0%Q l.

Lemma legalMass_sum (pol : list Q) (m : list Z) :
  (legalMass pol m == sumQ (map (massAt pol m) (seq 0 (List.length m))))%Q.
Proof.
  unfold legalMass.
  assert (H : ∀ l a a', (a == a')%Q →
            (fold_left (fun acc i => if bool_decide (m !! i = Some 1%Z)
                                     then acc + default 0 (pol !! i) else acc) l a
             == a' + sumQ (map (massAt pol m) l))%Q).
  { induction l as [|i l IH]; intros a a' Ha; simpl.
    - rewrite Ha. ring.
    - rewrite (IH _ (a' + massAt pol m i)%Q).
      + ring.
      + unfold massAt. destruct (bool_decide (m !! i = Some 1)); rewrite Ha; ring. }
  rewrite (H _ 0%Q 0%Q); [ring | reflexivity].
Qed.

(** A sum whose terms are [p] where [P] holds and 0 elsewhere. *)
Lemma sumQ_count (P : nat → Prop) `{∀ i, Decision (P i)} (g : nat → Q) (p : Q)
    (l : list nat) :
  (∀ i, i ∈ l → (g i == if decide (P i) then p else 0)%Q) →
  (sumQ (map g l) == inject_Z (Z.of_nat (List.length (filter P l))) * p)%Q.
Proof.
  induction l as [|i l IH]; intros Hg.
  - simpl. ring.
  - cbn [map sumQ fold_right]. fold (sumQ (map g l)).
    rewrite IH by (intros j Hj; apply Hg; now right).
    rewrite (Hg i) by now left.
    rewrite filter_cons. destruct (decide (P i)).
    + cbn [List.length]. rewrite Nat2Z.inj_succ. unfold Z.succ.
      rewrite inject_Z_plus. ring.
    + ring.
Qed.

Lemma share_total (n : nat) :
  (0 < n)%nat → (inject_Z (Z.of_nat n) * (1 # Pos.of_nat n) == 1)%Q.
Proof.
  intros Hn. unfold Qeq, Qmult, inject_Z. simpl.
  rewrite Pos.mul_1_l. rewrite !Z.mul_1_r.
  destruct n as [|n]; [lia|]. now rewrite Znat.positive_nat_Z || lia.
Qed.

(** [bestMovesOf] keeps the indices that are legal and carry the best score. *)
Definition isBest (scores : list jsnum) (m : list Z) (best : jsnum) (i : nat) : Prop :=
  m !! i = Some 1 ∧ scores !! i = Some best.

#[local] Instance isBest_dec scores m best i : Decision (isBest scores m best i).
Proof. unfold isBest. apply _. Defined.

Lemma filter_ext_in {A} (P Q : A → Prop) `{∀ x, Decision (P x)} `{∀ x, Decision (Q x)}
    (l : list A) :
  (∀ x, x ∈ l → P x ↔ Q x) → filter P l = filter Q l.
Proof.
  induction l as [|x l IH]; intros Hext; [reflexivity|].
  rewrite !filter_cons.
  rewrite IH by (intros y Hy; apply Hext; now right).
  destruct (decide (P x)) as [HP|HP], (decide (Q x)) as [HQ|HQ]; try reflexivity;
    exfalso; apply (Hext x (list_elem_of_here _ _)) in HP || apply HP, (Hext x); auto;
    try (now left); contradiction.
Qed.

Lemma bestMovesOf_filter (scores : list jsnum) (m : list Z) (best : jsnum) :
  bestMovesOf scores m best
  = filter (isBest scores m best) (seq 0 (List.length scores)).
Proof.
  unfold bestMovesOf.
  induction scores as [|x scores IH] using rev_ind; [reflexivity|].
  rewrite imap_app, filter_app, map_app, length_app. cbn [List.length imap].
  rewrite Nat.add_1_r, seq_S, filter_app. cbn [Nat.add].
  rewrite IH. f_equal.
  - apply filter_ext_in. intros i Hi%elem_of_seq. unfold isBest.
    rewrite lookup_app_l by lia. reflexivity.
  - rewrite Nat.add_0_r. rewrite !filter_cons, !filter_nil. cbn [fst snd].
    pose proof (list_lookup_middle scores [] x (List.length scores) eq_refl) as Hlast.
    destruct (decide (isBest (scores ++ [x]) m best (List.length scores)))
      as [[Hm Hx]|Hno].
    + rewrite Hlast in Hx. injection Hx as ->.
      rewrite decide_True; [reflexivity|].
      apply andb_True. split; [now apply bool_decide_pack|].
      unfold jseq. now apply bool_decide_pack.
    + rewrite decide_False; [reflexivity|].
      intros [Hm Hx]%andb_True. apply Hno. split; [now apply bool_decide_unpack in Hm|].
      unfold jseq in Hx. apply bool_decide_unpack in Hx. rewrite Hlast. now subst.
Qed.

(** The entries of the policy that [policyOf] builds. *)
Definition shareOf (bestMoves : list nat) : Q :=
  if (0 <? List.length bestMoves)%nat
  then (1 # Pos.of_nat (List.length bestMoves))%Q else 0%Q.

Lemma policyOf_fill (p : Q) (bestMoves : list nat) :
  ∀ pol, List.length pol = 9%nat →
    List.length (fold_left (fun pol i => <[i := p]> pol) bestMoves pol) = 9%nat
    ∧ ∀ i, (i < 9)%nat →
        fold_left (fun pol i => <[i := p]> pol) bestMoves pol !! i
        = if decide (i ∈ bestMoves) then Some p else pol !! i.
Proof.
  induction bestMoves as [|j bestMoves IH]; intros pol Hlen; cbn [fold_left].
  - split; [exact Hlen|]. intros i _. rewrite decide_False; [reflexivity|].
    apply not_elem_of_nil.
  - destruct (IH (<[j := p]> pol)) as [Hlen' Hget]; [now rewrite length_insert|].
    split; [exact Hlen'|]. intros i Hi. rewrite Hget by exact Hi.
    destruct (decide (i ∈ bestMoves)) as [Hin|Hout].
    + rewrite decide_True; [reflexivity | now right].
    + destruct (decide (i = j)) as [->|Hne].
      * rewrite decide_True by now left.
        apply list_lookup_insert_eq. lia.
      * rewrite decide_False by (intros [?|?]%elem_of_cons; contradiction).
        now apply list_lookup_insert_ne.
Qed.

Lemma policyOf_length (bestMoves : list nat) : List.length (policyOf bestMoves) = 9%nat.
Proof. unfold policyOf. now apply policyOf_fill. Qed.

Lemma policyOf_lookup (bestMoves : list nat) (i : nat) :
  (i < 9)%nat →
  policyOf bestMoves !! i
  = Some (if decide (i ∈ bestMoves) then shareOf bestMoves else 0%Q).
Proof.
  intros Hi. unfold policyOf.
  destruct (policyOf_fill (shareOf bestMoves) bestMoves (repeat 0%Q 9) eq_refl) as [_ Hget].
  unfold shareOf in *. rewrite Hget by exact Hi.
  destruct (decide (i ∈ bestMoves)); [reflexivity|].
  do 9 (destruct i as [|i]; [reflexivity|]). lia.
Qed.

(** When some legal move carries the best score, the policy is a
    distribution over the legal moves. *)
Lemma policyOf_ok (scores : list jsnum) (m : list Z) (best : jsnum) (w : nat) :
  List.length scores = 9%nat → List.length m = 9%nat →
  (w < 9)%nat → isBest scores m best w →
  policyOk (policyOf (bestMovesOf scores m best)) m.
Proof.
  intros Hs Hm Hw Hbest. rewrite bestMovesOf_filter, Hs.
  set (bm := filter (isBest scores m best) (seq 0 9)).
  assert (Hin : ∀ i, (i < 9)%nat → i ∈ bm ↔ isBest scores m best i).
  { intros i Hi. unfold bm. rewrite list_elem_of_filter, elem_of_seq.
    split; [tauto | intros; split; [assumption | lia]]. }
  assert (Hpos : (0 < List.length bm)%nat).
  { assert (Hwin : w ∈ bm) by now apply Hin.
    destruct bm; [by apply elem_of_nil in Hwin | simpl; lia]. }
  split.
  - rewrite legalMass_sum, Hm.
    rewrite (sumQ_count (isBest scores m best) _ (shareOf bm)).
    + fold bm. unfold shareOf.
      apply Nat.ltb_lt in Hpos as Hpos'. rewrite Hpos'. now apply share_total.
    + intros i Hi%elem_of_seq. unfold massAt.
      rewrite policyOf_lookup by lia. simpl.
      destruct (decide (isBest scores m best i)) as [Hb|Hb].
      * rewrite bool_decide_eq_true_2 by apply Hb.
        rewrite decide_True by (apply Hin; [lia | exact Hb]). reflexivity.
      * destruct (bool_decide (m !! i = Some 1)); [|reflexivity].
        rewrite decide_False; [reflexivity|]. intros Hc. apply Hb, Hin; [lia | exact Hc].
  - intros i Hi. assert (Hlt : (i < 9)%nat) by (apply lookup_lt_Some in Hi; lia).
    rewrite policyOf_lookup by exact Hlt. eexists. split; [reflexivity|].
    rewrite decide_False; [reflexivity|].
    intros Hc. apply Hin in Hc as [Hc _]; [congruence | exact Hlt].
Qed.

(** After the loop of [minimaxPolicy], [bestScore] is the score of some
    legal move, provided that there is one. *)
Definition attained (b : string) (k : nat) (s : jsnum * list jsnum * gmap string jsnum)
    : Prop :=
  let '(best, scores, _) := s in
  List.length scores = 9%nat
  ∧ ((∃ i, (i < k)%nat ∧ isBest scores (boardMask b) best i)
     ∨ (best = NegInf
        ∧ ∀ i, (i < k)%nat → boardMask b !! i = Some 1 → scores !! i = Some NegInf)).

Lemma jsgt_NegInf (s : jsnum) : jsgt s NegInf = false → s = NegInf.
Proof. destruct s; simpl; congruence. Qed.

Lemma scoreStep_attained (b : string) (t : PlayerSymbol) (k : nat)
    (s s' : jsnum * list jsnum * gmap string jsnum) :
  String.length b = 9%nat → (k < 9)%nat →
  attained b k s → scoreStep b t (boardMask b) (Some s) k = Some s' →
  attained b (S k) s'.
Proof.
  intros Hlen Hk. destruct s as [[best scores] c]. intros [Hs Hinv]. unfold scoreStep.
  cbn [mbind option_bind].
  destruct (boardMask_cases b k Hlen Hk) as [[_ Hm]|[_ Hm]]; rewrite Hm.
  - rewrite bool_decide_eq_false_2 by discriminate.
    destruct (negamax searchFuel c (applyMove b k t) (nextSymbol t) 1) as [[v c']|];
      [|discriminate].
    cbn [mbind option_bind]. intros [= <-]. split; [now rewrite length_insert|].
    assert (Hat : <[k := jsneg v]> scores !! k = Some (jsneg v))
      by (apply list_lookup_insert_eq; lia).
    destruct (jsgt (jsneg v) best) eqn:Hgt.
    + left. exists k. split; [lia|]. split; assumption.
    + destruct Hinv as [(i & Hi & Hmi & Hsi)|[-> Hall]].
      * left. exists i. split; [lia|]. split; [exact Hmi|].
        rewrite list_lookup_insert_ne by lia. exact Hsi.
      * right. split; [reflexivity|]. intros i Hi Hmi.
        destruct (decide (i = k)) as [->|Hne].
        -- rewrite Hat. f_equal. now apply jsgt_NegInf.
        -- rewrite list_lookup_insert_ne by lia. apply Hall; [lia | exact Hmi].
  - rewrite bool_decide_eq_true_2 by reflexivity. intros [= <-]. split; [exact Hs|].
    destruct Hinv as [(i & Hi & Hbest)|[-> Hall]].
    + left. exists i. split; [lia | exact Hbest].
    + right. split; [reflexivity|]. intros i Hi Hmi.
      destruct (decide (i = k)) as [->|Hne]; [congruence|]. apply Hall; [lia | exact Hmi].
Qed.

Lemma scoreMoves_attained (cache cache' : gmap string jsnum) (b : string)
    (t : PlayerSymbol) (best : jsnum) (scores : list jsnum) :
  String.length b = 9%nat → hasEmpty b = true →
  scoreMoves cache b t (boardMask b) = Some (best, scores, cache') →
  List.length scores = 9%nat ∧ ∃ w, (w < 9)%nat ∧ isBest scores (boardMask b) best w.
Proof.
  intros Hlen Hempty Hrun.
  assert (Hend : attained b 9 (best, scores, cache')).
  { apply (fold_seq_invariant (scoreStep b t (boardMask b)) (attained b) 9
             (NegInf, repeat NegInf 9, cache)); [reflexivity | | |exact Hrun].
    - split; [reflexivity|]. right. split; [reflexivity|]. intros i Hi; lia.
    - intros k s s' Hk. now apply scoreStep_attained. }
  destruct Hend as [Hs Hinv]. split; [exact Hs|].
  destruct Hinv as [(i & Hi & Hbest)|[-> Hall]]; [now exists i|].
  destruct (hasEmpty_valid b Hlen Hempty) as (w & Hw & Hv).
  exists w. split; [exact Hw|].
  destruct (boardMask_cases b w Hlen Hw) as [[_ Hm]|[Hv' _]]; [|congruence].
  split; [exact Hm | now apply Hall].
Qed.

(** ** The policy table

    The stored policies of open nine-cell boards are distributions over the
    legal moves; every call of [minimaxPolicy] keeps it so. *)

Definition openBoard (b : string) : Prop :=
  String.length b = 9%nat ∧ isTerminal b = false.

Definition policyCacheOk (st : Caches) : Prop :=
  ∀ b t pol v, openBoard b → policyCache st !! cacheKey b t = Some (pol, v) →
    List.length pol = 9%nat ∧ policyOk pol (boardMask b).

Lemma policyCacheOk_fresh : policyCacheOk freshCaches.
Proof. intros b t pol v _ H. simpl in H. now rewrite lookup_empty in H. Qed.

Lemma policyCacheOk_insert (st : Caches) (cache : gmap string jsnum) (b : string)
    (t : PlayerSymbol) (pol : list Q) (v : Q) :
  policyCacheOk st →
  (openBoard b → List.length pol = 9%nat ∧ policyOk pol (boardMask b)) →
  policyCacheOk (mkCaches cache (<[cacheKey b t := (pol, v)]> (policyCache st))).
Proof.
  intros Hst Hnew b' t' pol' v' Hopen. cbn [policyCache].
  destruct (decide (cacheKey b t = cacheKey b' t')) as [Heq|Hne].
  - rewrite Heq, lookup_insert_eq. intros [= <- <-].
    apply cacheKey_inj in Heq as [<- _]. now apply Hnew.
  - rewrite lookup_insert_ne by exact Hne. now apply Hst.
Qed.

Lemma isTerminal_hasEmpty (b : string) : isTerminal b = false → hasEmpty b = true.
Proof.
  unfold isTerminal. intros [_ H]%orb_false_iff. now apply negb_false_iff in H.
Qed.

(** The answer on an open board, and the tables after it. *)
Lemma minimaxPolicy_ok (st st' : Caches) (b : string) (t : PlayerSymbol) (r : PolicyResult) :
  policyCacheOk st → openBoard b →
  minimaxPolicy st b t = Some (r, st') →
  mask r = boardMask b
  ∧ List.length (policy r) = 9%nat
  ∧ policyOk (policy r) (boardMask b)
  ∧ policyCacheOk st'.
Proof.
  intros Hst Hopen. unfold minimaxPolicy.
  destruct (policyCache st !! cacheKey b t) as [[pol v]|] eqn:Hhit.
  - intros [= <- <-]. destruct (Hst b t pol v Hopen Hhit) as [Hlen Hok]. auto.
  - destruct Hopen as [Hlen Hterm]. rewrite Hterm.
    destruct (scoreMoves (negamaxCache st) b t (boardMask b))
      as [[[best scores] cache']|] eqn:Hrun; [|discriminate].
    cbn [mbind option_bind]. intros [= <- <-]. cbn [mask policy].
    destruct (scoreMoves_attained _ _ _ _ _ _ Hlen (isTerminal_hasEmpty b Hterm) Hrun)
      as (Hs & w & Hw & Hbest).
    assert (Hok : policyOk (policyOf (bestMovesOf scores (boardMask b) best)) (boardMask b)).
    { apply (policyOf_ok scores (boardMask b) best w); try assumption.
      now rewrite boardMask_length. }
    split; [reflexivity|]. split; [apply policyOf_length|]. split; [exact Hok|].
    apply policyCacheOk_insert; [exact Hst|]. intros _. split; [apply policyOf_length|exact Hok].
Qed.

(** Calls on other boards keep the table in order too. *)
Lemma minimaxPolicy_keeps_table (st st' : Caches) (b : string) (t : PlayerSymbol)
    (r : PolicyResult) :
  policyCacheOk st → minimaxPolicy st b t = Some (r, st') → policyCacheOk st'.
Proof.
  intros Hst Hrun.
  destruct (decide (String.length b = 9%nat)) as [Hlen|Hlen].
  - destruct (isTerminal b) eqn:Hterm.
    + revert Hrun. unfold minimaxPolicy.
      destruct (policyCache st !! cacheKey b t) as [[pol v]|]; [now intros [= _ <-]|].
      rewrite Hterm. intros [= _ <-]. apply policyCacheOk_insert; [exact Hst|].
      intros [_ Hopen]. congruence.
    + now apply (minimaxPolicy_ok st st' b t r Hst (conj Hlen Hterm)) in Hrun.
  - revert Hrun. unfold minimaxPolicy.
    destruct (policyCache st !! cacheKey b t) as [[pol v]|]; [now intros [= _ <-]|].
    destruct (isTerminal b).
    + intros [= _ <-]. apply policyCacheOk_insert; [exact Hst|]. now intros [? _].
    + destruct (scoreMoves _ _ _ _) as [[[best scores] cache']|]; [|discriminate].
      cbn [mbind option_bind]. intros [= _ <-].
      apply policyCacheOk_insert; [exact Hst|]. now intros [? _].
Qed.

Lemma laterCaches_ok (st : Caches) : laterCaches freshCaches st → policyCacheOk st.
Proof.
  induction 1 as [|st1 st2 b t r _ IH Hcall]; [apply policyCacheOk_fresh|].
  exact (minimaxPolicy_keeps_table _ _ _ _ _ IH Hcall).
Qed.

(** ** The states that [walk] collects *)

Lemma walk_S (fuel : nat) (seen : gset string) (states : list (string * PlayerSymbol))
    (b : string) (t : PlayerSymbol) :
  walk (S fuel) seen states b t =
  if bool_decide (cacheKey b t ∈ seen) then Some (seen, states)
  else if isTerminal b then Some (setAdd (cacheKey b t) seen, states)
  else fold_left (walkStep (walk fuel) b t) (seq 0 9)
         (Some (setAdd (cacheKey b t) seen, (states ++ [(b, t)])%list)).
Proof. reflexivity. Qed.

(** [walk] returns: the recursion is at most nine moves deep. *)
Lemma walk_fuel (fuel : nat) :
  ∀ seen states b t, (emptiesIn b < fuel)%nat → is_Some (walk fuel seen states b t).
Proof.
  induction fuel as [|fuel IH]; intros seen states b t Hlt; [lia|].
  rewrite walk_S. destruct (bool_decide _); [eauto|]. destruct (isTerminal b); [eauto|].
  apply (fold_left_option_total _ _ (fun i => (i < 9)%nat)).
  - intros [sn ss] i Hi. unfold walkStep. cbn [mbind option_bind].
    destruct (isMoveValid b i) eqn:Hv; cbn [negb]; [|eauto].
    apply IH. pose proof (emptiesIn_applyMove b i t Hi Hv). lia.
  - apply Forall_forall. intros i Hi%elem_of_seq. lia.
Qed.

(** [walk] collects open nine-cell boards only. *)
Lemma walk_open (fuel : nat) :
  ∀ seen states b t seen' states',
    String.length b = 9%nat →
    Forall (fun s => openBoard s.1) states →
    walk fuel seen states b t = Some (seen', states') →
    Forall (fun s => openBoard s.1) states'.
Proof.
  induction fuel as [|fuel IH]; intros seen states b t seen' states' Hlen Hst;
    [discriminate|].
  rewrite walk_S. destruct (bool_decide _); [now intros [= _ <-]|].
  destruct (isTerminal b) eqn:Hterm; [now intros [= _ <-]|].
  intros Hrun.
  refine (fold_seq_invariant (walkStep (walk fuel) b t)
            (fun _ s => Forall (fun s => openBoard s.1) s.2) 9 _ (seen', states')
            _ _ _ Hrun).
  - reflexivity.
  - cbn [snd]. apply Forall_app. split; [exact Hst|]. constructor; [|constructor].
    split; assumption.
  - intros k [sn ss] [sn' ss'] Hk Hinv. unfold walkStep. cbn [mbind option_bind snd] in *.
    destruct (isMoveValid b k) eqn:Hv; cbn [negb].
    + apply IH; [|exact Hinv]. rewrite length_applyMove; [exact Hlen | lia].
    + now intros [= _ <-].
Qed.

(** ** The eight symmetries

    Every map of [TRANSFORMS] is a permutation of the nine cells:
    [transformBoard] and [transformDist] move the content of cell
    [sourceOf map j] to cell [j]. *)

Fixpoint sourceOf (map : list nat) (j : nat) : nat :=
  match map with
  | [] => 0%nat
  | k :: map' => if (k =? j)%nat then 0%nat else S (sourceOf map' j)
  end.

Lemma string_nine (b : string) :
  String.length b = 9%nat →
  ∃ c0 c1 c2 c3 c4 c5 c6 c7 c8,
    b = String c0 (String c1 (String c2 (String c3 (String c4 (String c5
          (String c6 (String c7 (String c8 EmptyString)))))))).
Proof.
  intros H. do 9 (destruct b as [|? b]; [discriminate|]).
  destruct b; [|discriminate]. repeat eexists.
Qed.

Lemma list_nine {A} (l : list A) :
  List.length l = 9%nat → ∃ x0 x1 x2 x3 x4 x5 x6 x7 x8, l = [x0; x1; x2; x3; x4; x5; x6; x7; x8].
Proof.
  intros H. do 9 (destruct l as [|? l]; [discriminate|]).
  destruct l; [|discriminate]. repeat eexists.
Qed.

(** Runs [tac] on each of the eight maps, given [H : tr ∈ TRANSFORMS]. *)
Ltac each_transform H tac :=
  unfold TRANSFORMS in H;
  repeat (apply elem_of_cons in H as [->|H]; [tac|]);
  by apply elem_of_nil in H.

Lemma transformBoard_cells (b : string) (tr : string * list nat) :
  tr ∈ TRANSFORMS → String.length b = 9%nat →
  String.length (transformBoard b tr.2) = 9%nat
  ∧ ∀ j, (j < 9)%nat →
      boardMask (transformBoard b tr.2) !! j = boardMask b !! sourceOf tr.2 j.
Proof.
  intros Htr Hlen.
  destruct (string_nine b Hlen) as (c0 & c1 & c2 & c3 & c4 & c5 & c6 & c7 & c8 & ->).
  each_transform Htr
    ltac:(split; [reflexivity|]; intros j Hj;
          do 9 (destruct j as [|j]; [reflexivity|]); lia).
Qed.

Lemma transformDist_cells (pol : list Q) (tr : string * list nat) :
  tr ∈ TRANSFORMS → List.length pol = 9%nat →
  ∀ j, (j < 9)%nat →
    transformDist pol tr.2 !! j = Qplus 0 <$> pol !! sourceOf tr.2 j.
Proof.
  intros Htr Hlen.
  destruct (list_nine pol Hlen) as (p0 & p1 & p2 & p3 & p4 & p5 & p6 & p7 & p8 & ->).
  each_transform Htr
    ltac:(intros j Hj; do 9 (destruct j as [|j]; [reflexivity|]); lia).
Qed.

#[local] Arguments Qplus : simpl never.

(** Summing over the cells in the order of a symmetry gives the same sum. *)
Lemma sumQ_transform (f : nat → Q) (tr : string * list nat) :
  tr ∈ TRANSFORMS →
  (sumQ (map (fun j => f (sourceOf tr.2 j)) (seq 0 9)) == sumQ (map f (seq 0 9)))%Q.
Proof.
  intros Htr. each_transform Htr ltac:(simpl; ring).
Qed.

Lemma sumQ_ext (f g : nat → Q) (l : list nat) :
  (∀ i, i ∈ l → (f i == g i)%Q) → (sumQ (map f l) == sumQ (map g l))%Q.
Proof.
  induction l as [|i l IH]; intros Hfg; [reflexivity|].
  cbn [map sumQ fold_right]. fold (sumQ (map f l)) (sumQ (map g l)).
  rewrite IH by (intros j Hj; apply Hfg; now right).
  rewrite (Hfg i) by now left. reflexivity.
Qed.

Lemma sourceOf_lt (tr : string * list nat) (j : nat) :
  tr ∈ TRANSFORMS → (j < 9)%nat → (sourceOf tr.2 j < 9)%nat.
Proof.
  intros Htr Hj.
  each_transform Htr ltac:(do 9 (destruct j as [|j]; [simpl; lia|]); lia).
Qed.

(** A symmetry of a distribution over the legal moves of a board is a
    distribution over the legal moves of the transformed board. *)
Lemma transform_policyOk (b : string) (pol : list Q) (tr : string * list nat) :
  tr ∈ TRANSFORMS → String.length b = 9%nat → List.length pol = 9%nat →
  policyOk pol (boardMask b) →
  policyOk (transformDist pol tr.2) (boardMask (transformBoard b tr.2)).
Proof.
  intros Htr Hb Hpol [Hmass Hzero].
  destruct (transformBoard_cells b tr Htr Hb) as [Hlen' Hmask].
  pose proof (transformDist_cells pol tr Htr Hpol) as Hdist.
  split.
  - rewrite <- Hmass, !legalMass_sum, !boardMask_length, Hlen', Hb.
    rewrite <- (sumQ_transform (massAt pol (boardMask b)) tr Htr).
    apply sumQ_ext. intros j Hj%elem_of_seq. unfold massAt.
    rewrite Hmask, Hdist by lia.
    destruct (bool_decide _); [|reflexivity].
    destruct (pol !! sourceOf tr.2 j); simpl; ring.
  - intros j Hj.
    assert (Hlt : (j < 9)%nat).
    { apply lookup_lt_Some in Hj. rewrite boardMask_length, Hlen' in Hj. exact Hj. }
    rewrite Hmask in Hj by exact Hlt. destruct (Hzero _ Hj) as (p & Hp & Hp0).
    exists (0 + p)%Q. split; [now rewrite Hdist, Hp | rewrite Hp0; ring].
Qed.

(** ** The labelling loop *)

Lemma emitPlain_inv (s : string * PlayerSymbol) (r : PolicyResult)
    (out : list TeacherState) (dedupe : gset string) (st : Caches) :
  policyOk (policy r) (mask r) → Forall TeacherStateInv out →
  ∃ out' dedupe', emitPlain s r (out, dedupe, st) = (out', dedupe', st)
                  ∧ Forall TeacherStateInv out'.
Proof.
  intros Hok Hout. unfold emitPlain. destruct (bool_decide _); [eauto|].
  eexists _, _. split; [reflexivity|]. apply Forall_app. split; [exact Hout|].
  constructor; [exact Hok | constructor].
Qed.

Lemma emitSymmetries_inv (s : string * PlayerSymbol) (r : PolicyResult)
    (out : list TeacherState) (dedupe : gset string) (st : Caches) :
  String.length s.1 = 9%nat → List.length (policy r) = 9%nat →
  policyOk (policy r) (boardMask s.1) → Forall TeacherStateInv out →
  ∃ out' dedupe', emitSymmetries s r (out, dedupe, st) = (out', dedupe', st)
                  ∧ Forall TeacherStateInv out'.
Proof.
  intros Hb Hpol Hok. unfold emitSymmetries.
  assert (Hall : ∀ tr, tr ∈ TRANSFORMS → tr ∈ TRANSFORMS) by auto.
  revert out dedupe Hall. generalize TRANSFORMS at 1 3.
  induction l as [|tr l IH]; intros out dedupe Hall Hout; [simpl; eauto|].
  cbn [fold_left]. destruct (bool_decide _).
  - apply IH; [|exact Hout]. intros tr' Htr'. apply Hall. now right.
  - apply IH; [intros tr' Htr'; apply Hall; now right|].
    apply Forall_app. split; [exact Hout|]. constructor; [|constructor].
    apply (transform_policyOk s.1 (policy r) tr); try assumption. apply Hall. now left.
Qed.

Lemma laterCaches_trans (st1 st2 st3 : Caches) :
  laterCaches st1 st2 → laterCaches st2 st3 → laterCaches st1 st3.
Proof.
  intros H12 H23. induction H23 as [|st st' b t r _ IH Hcall]; [exact H12|].
  exact (later_call _ _ _ _ _ _ IH Hcall).
Qed.

Lemma labelling_loop (augmentSymmetries : bool) (states : list (string * PlayerSymbol)) :
  Forall (fun s => openBoard s.1) states →
  ∀ out dedupe st,
    Forall TeacherStateInv out → policyCacheOk st →
    ∃ out' dedupe' st',
      fold_left
        (fun acc s =>
           '(out, dedupe, st) ← acc;
           '(r, st') ← minimaxPolicy st s.1 s.2;
           if negb augmentSymmetries then Some (emitPlain s r (out, dedupe, st'))
           else Some (emitSymmetries s r (out, dedupe, st')))
        states (Some (out, dedupe, st)) = Some (out', dedupe', st')
      ∧ Forall TeacherStateInv out' ∧ policyCacheOk st' ∧ laterCaches st st'.
Proof.
  induction 1 as [|s states Hs _ IH]; intros out dedupe st Hout Hst.
  { simpl. eexists _, _, _.
    split; [reflexivity|]. split; [exact Hout|]. split; [exact Hst | constructor]. }
  assert (Hnext : ∀ st1 out1 dedupe1 r,
            minimaxPolicy st s.1 s.2 = Some (r, st1) →
            Forall TeacherStateInv out1 → policyCacheOk st1 →
            ∃ out' dedupe' st',
              fold_left
                (fun acc s =>
                   '(out, dedupe, st) ← acc;
                   '(r, st') ← minimaxPolicy st s.1 s.2;
                   if negb augmentSymmetries then Some (emitPlain s r (out, dedupe, st'))
                   else Some (emitSymmetries s r (out, dedupe, st')))
                states (Some (out1, dedupe1, st1)) = Some (out', dedupe', st')
              ∧ Forall TeacherStateInv out' ∧ policyCacheOk st' ∧ laterCaches st st').
  { intros st1 out1 dedupe1 r Hrun Hout1 Hst1.
    destruct (IH out1 dedupe1 st1 Hout1 Hst1) as (out' & dedupe' & st' & Hfold & ? & ? & Hl).
    exists out', dedupe', st'. split; [assumption|]. split; [assumption|].
    split; [assumption|]. apply (laterCaches_trans st st1 st'); [|exact Hl].
    exact (later_call _ _ _ _ _ _ (later_here st) Hrun). }
  cbn [fold_left mbind option_bind].
  destruct (minimaxPolicy_total st s.1 s.2) as [[r st1] Hrun]. rewrite Hrun.
  cbn [mbind option_bind].
  destruct (minimaxPolicy_ok st st1 s.1 s.2 r Hst Hs Hrun) as (Hmask & Hlen & Hok & Hst1).
  destruct augmentSymmetries; cbn [negb].
  - destruct (emitSymmetries_inv s r out dedupe st1 (proj1 Hs) Hlen Hok Hout)
      as (out1 & dedupe1 & -> & Hout1).
    now apply (Hnext st1 out1 dedupe1 r).
  - destruct (emitPlain_inv s r out dedupe st1) as (out1 & dedupe1 & -> & Hout1);
      [now rewrite Hmask | exact Hout|].
    now apply (Hnext st1 out1 dedupe1 r).
Qed.

(** The dataset from any tables that are in order: the run returns, every
    state it emits satisfies the invariant, and the tables it leaves are in
    order again, being those of a sequence of queries. *)
Lemma generateTeacherDataset_ok (augmentSymmetries : bool) (st : Caches) :
  policyCacheOk st →
  ∃ out st', generateTeacherDataset augmentSymmetries st = Some (out, st')
             ∧ Forall TeacherStateInv out ∧ policyCacheOk st' ∧ laterCaches st st'.
Proof.
  intros Hst. unfold generateTeacherDataset.
  destruct (walk_fuel searchFuel ∅ [] emptyBoard X) as [[seen states] Hwalk];
    [vm_compute; lia|].
  rewrite Hwalk. cbn [mbind option_bind].
  apply walk_open in Hwalk as Hopen; [|reflexivity|constructor].
  destruct (labelling_loop augmentSymmetries states Hopen [] ∅ st) as
    (out & dedupe & st' & -> & Hout & Hst' & Hlater); [constructor | exact Hst|].
  cbn [mbind option_bind]. eauto 6.
Qed.

(** ** The outcome of a position

    The scores that [negamax] stores carry the depth of the search that
    stored them, but their sign does not depend on it: it is the outcome of
    the position for the player to move (-1 lost, 0 drawn, 1 won). *)

Definition sgn (v : jsnum) : Z :=
  match v with
  | NegInf => -1
  | Int z => Z.sgn z
  | PosInf => 1
  end.

(** The search of [negamax] on signs, without the table. *)
Definition outcomeStep (recurse : string → PlayerSymbol → Z) (b : string) (p : PlayerSymbol)
    (best : Z) (i : nat) : Z :=
  if negb (isMoveValid b i) then best
  else Z.max best (- recurse (applyMove b i p) (nextSymbol p)).

Fixpoint outcome (fuel : nat) (b : string) (p : PlayerSymbol) : Z :=
  match fuel with
  | 0%nat => 0
  | S fuel' =>
      if bool_decide (is_Some (computeWinner b)) then -1
      else if negb (hasEmpty b) then 0
      else fold_left (outcomeStep (outcome fuel') b p) (seq 0 9) (-1)
  end.

Definition outcomeOf (b : string) (p : PlayerSymbol) : Z := outcome (S (emptiesIn b)) b p.

Definition signOk (cache : gmap string jsnum) : Prop :=
  ∀ b p v, cache !! cacheKey b p = Some v → sgn v = outcomeOf b p.

Lemma sgn_jsneg (v : jsnum) : sgn (jsneg v) = - sgn v.
Proof. destruct v as [|z|]; simpl; [reflexivity | apply Z.sgn_opp | reflexivity]. Qed.

Lemma sgn_best (s best : jsnum) :
  sgn (if jsgt s best then s else best) = Z.max (sgn best) (sgn s).
Proof.
  destruct s as [|a|], best as [|b|]; simpl; try reflexivity.
  - destruct b; reflexivity.
  - destruct a; reflexivity.
  - destruct (Z.ltb_spec b a); destruct a, b; simpl; lia.
  - destruct a; reflexivity.
  - destruct b; reflexivity.
Qed.

Lemma sgn_zero (v : jsnum) : sgn v = 0 → v = Int 0.
Proof. destruct v as [|z|]; simpl; try discriminate. destruct z; now intros. Qed.

Lemma signOk_empty : signOk ∅.
Proof. intros b p v H. rewrite lookup_empty in H. discriminate H. Qed.

Lemma signOk_insert (cache : gmap string jsnum) (b : string) (p : PlayerSymbol) (v : jsnum) :
  signOk cache → sgn v = outcomeOf b p → signOk (<[cacheKey b p := v]> cache).
Proof.
  intros Hinv Hv b' p' v' Hlook.
  destruct (decide (cacheKey b p = cacheKey b' p')) as [Heq|Hne].
  - rewrite Heq, lookup_insert_eq in Hlook. injection Hlook as <-.
    apply cacheKey_inj in Heq as [<- <-]. exact Hv.
  - rewrite lookup_insert_ne in Hlook by exact Hne. eapply Hinv. exact Hlook.
Qed.

Lemma outcomeOf_eq (b : string) (p : PlayerSymbol) :
  outcomeOf b p =
  if bool_decide (is_Some (computeWinner b)) then -1
  else if negb (hasEmpty b) then 0
  else fold_left (outcomeStep (outcome (emptiesIn b)) b p) (seq 0 9) (-1).
Proof. reflexivity. Qed.

(** Whatever the depth of the call (at most 9 on the deepest board), the
    sign of the score that [negamax] returns is the outcome, given a table
    that holds scores of the right sign; the table it leaves is such a table
    again. *)
Lemma negamax_sign (fuel : nat) :
  ∀ cache b p d r cache',
    d + Z.of_nat (emptiesIn b) ≤ 9 →
    signOk cache →
    negamax fuel cache b p d = Some (r, cache') →
    sgn r = outcomeOf b p ∧ signOk cache'.
Proof.
  induction fuel as [|fuel IH]; intros cache b p d r cache' Hd Hinv; [discriminate|].
  rewrite negamax_S.
  destruct (cache !! cacheKey b p) as [cached|] eqn:Hlook.
  { intros [= <- <-]. split; [eapply Hinv; exact Hlook | exact Hinv]. }
  rewrite outcomeOf_eq. unfold terminalScore.
  destruct (bool_decide (is_Some (computeWinner b))) eqn:Hwin.
  { intros [= <- <-].
    assert (Hs : sgn (Int (- (SCORE_WIN - d))) = -1).
    { simpl. apply Z.sgn_neg. unfold SCORE_WIN. lia. }
    split; [exact Hs|]. apply signOk_insert; [exact Hinv|].
    now rewrite outcomeOf_eq, Hwin. }
  destruct (negb (hasEmpty b)) eqn:Hfull.
  { intros [= <- <-]. split; [reflexivity|]. apply signOk_insert; [exact Hinv|].
    now rewrite outcomeOf_eq, Hwin, Hfull. }
  destruct (fold_left _ _ _) as [[best c]|] eqn:Hfold; simpl; [|discriminate].
  intros [= <- <-].
  pose (Inv := fun (k : nat) (s : jsnum * gmap string jsnum) =>
    sgn s.1 = fold_left (outcomeStep (outcome (emptiesIn b)) b p) (seq 0 k) (-1)
    ∧ signOk s.2).
  assert (Hend : Inv 9%nat (best, c)).
  { eapply (fold_seq_invariant _ Inv); [| | |exact Hfold].
    - reflexivity.
    - split; [reflexivity | exact Hinv].
    - intros k [best0 c0] [best1 c1] Hk [Hbest0 Hc0]. unfold Inv, negamaxStep.
      rewrite seq_S, fold_left_app. cbn [fst snd fold_left Nat.add mbind option_bind] in *.
      unfold outcomeStep at 1. rewrite <- Hbest0.
      destruct (isMoveValid b k) eqn:Hvk; cbn [negb].
      + destruct (negamax fuel c0 (applyMove b k p) (nextSymbol p) (d + 1))
          as [[v c2]|] eqn:Hrec; cbn [mbind option_bind]; [|discriminate].
        intros [= <- <-].
        pose proof (emptiesIn_applyMove_S b k p Hk Hvk) as He.
        assert (Hd' : d + 1 + Z.of_nat (emptiesIn (applyMove b k p)) ≤ 9) by lia.
        destruct (IH c0 _ _ _ v c2 Hd' Hc0 Hrec) as [Hv Hc2].
        split; [|exact Hc2].
        rewrite sgn_best, sgn_jsneg, Hv. unfold outcomeOf. now rewrite He.
      + intros [= <- <-]. split; [reflexivity | exact Hc0]. }
  destruct Hend as [Hbest Hc]. cbn [fst snd] in Hbest, Hc.
  split; [exact Hbest|]. apply signOk_insert; [exact Hc|].
  now rewrite outcomeOf_eq, Hwin, Hfull.
Qed.

(** After any move the board has a filled cell among the nine. *)
Lemma emptiesIn_after_move (b : string) (i : nat) (t : PlayerSymbol) :
  (i < 9)%nat → (emptiesIn (applyMove b i t) ≤ 8)%nat.
Proof.
  intros Hi. set (child := applyMove b i t).
  set (j := List.length (take i (list_ascii_of_string b))).
  assert (Hj : (j < 9)%nat) by (unfold j; rewrite length_take; lia).
  assert (Hcell : charAt child j = Some (symbolChar t)).
  { rewrite charAt_lookup. unfold child. rewrite chars_applyMove.
    now apply list_lookup_middle. }
  assert (Hfilled : isMoveValid child j ≠ true).
  { unfold isMoveValid, isEmptyCell. rewrite Hcell.
    rewrite bool_decide_eq_false_2; [discriminate|]. destruct t; discriminate. }
  unfold emptiesIn.
  pose proof (filter_length_lt (fun i => isMoveValid child i = true) (fun _ => True)
                (seq 0 9) j (fun _ _ => I)) as Hlt.
  pose proof (length_filter (fun _ : nat => True) (seq 0 9)) as Hle.
  rewrite length_seq in Hle.
  specialize (Hlt ltac:(apply elem_of_seq; lia) I Hfilled). lia.
Qed.

(** The loop of [minimaxPolicy] keeps the signs of the table right, on any
    board. *)
Lemma scoreMoves_sign (cache cache' : gmap string jsnum) (b : string) (t : PlayerSymbol)
    (m : list Z) (best : jsnum) (scores : list jsnum) :
  signOk cache → scoreMoves cache b t m = Some (best, scores, cache') → signOk cache'.
Proof.
  intros Hinv Hrun.
  refine (fold_seq_invariant (scoreStep b t m) (fun _ s => signOk s.2) 9 _
            (best, scores, cache') _ _ _ Hrun).
  - reflexivity.
  - exact Hinv.
  - intros k [[best0 scores0] c0] [[best1 scores1] c1] Hk Hc0. unfold scoreStep.
    cbn [mbind option_bind snd] in *.
    destruct (bool_decide (m !! k = Some 0)); [now intros [= _ _ <-]|].
    destruct (negamax searchFuel c0 (applyMove b k t) (nextSymbol t) 1)
      as [[v c2]|] eqn:Hrec; cbn [mbind option_bind]; [|discriminate].
    intros [= _ _ <-].
    pose proof (emptiesIn_after_move b k t Hk) as He.
    assert (Hd : 1 + Z.of_nat (emptiesIn (applyMove b k t)) ≤ 9) by lia.
    now destruct (negamax_sign _ _ _ _ _ _ _ Hd Hc0 Hrec).
Qed.

(** ** The empty board

    Each of the nine opening moves leads to a drawn position, so each scores
    0 whatever the depths of the scores in the table. *)

Definition uniformAnswer : PolicyResult :=
  {| policy := repeat (1 # 9)%Q 9; mask := repeat 1 9; value := 0%Q |}.

Lemma opening_scores :
  forallb (fun i => bool_decide (fst <$> negamax searchFuel ∅ (applyMove emptyBoard i X) O 1
                                 = Some (Int 0)))
          (seq 0 9) = true.
Proof. vm_compute. reflexivity. Qed.

Lemma opening_outcome (i : nat) :
  (i < 9)%nat → outcomeOf (applyMove emptyBoard i X) O = 0.
Proof.
  intros Hi. pose proof opening_scores as Hall. rewrite forallb_forall in Hall.
  specialize (Hall i ltac:(apply in_seq; lia)). apply bool_decide_eq_true in Hall.
  destruct (negamax searchFuel ∅ (applyMove emptyBoard i X) O 1) as [[r c]|] eqn:Hrun;
    [|discriminate].
  injection Hall as ->.
  pose proof (emptiesIn_after_move emptyBoard i X Hi) as He.
  assert (Hd : 1 + Z.of_nat (emptiesIn (applyMove emptyBoard i X)) ≤ 9) by lia.
  destruct (negamax_sign _ _ _ _ _ _ _ Hd signOk_empty Hrun) as [Hs _].
  symmetry. exact Hs.
Qed.

Lemma emptyBoard_mask (k : nat) : (k < 9)%nat → boardMask emptyBoard !! k = Some 1.
Proof. intros Hk. do 9 (destruct k as [|k]; [reflexivity|]). lia. Qed.

Lemma scores_fill (k : nat) :
  (k < 9)%nat →
  <[k := Int 0]> (repeat (Int 0) k ++ repeat NegInf (9 - k))%list
  = (repeat (Int 0) (S k) ++ repeat NegInf (9 - S k))%list.
Proof. intros Hk. do 9 (destruct k as [|k]; [reflexivity|]). lia. Qed.

Lemma scoreMoves_empty_board (cache cache' : gmap string jsnum) (best : jsnum)
    (scores : list jsnum) :
  signOk cache →
  scoreMoves cache emptyBoard X (boardMask emptyBoard) = Some (best, scores, cache') →
  best = Int 0 ∧ scores = repeat (Int 0) 9.
Proof.
  intros Hinv Hrun.
  pose (Inv := fun (k : nat) (s : jsnum * list jsnum * gmap string jsnum) =>
    s.1.1 = match k with 0%nat => NegInf | S _ => Int 0 end
    ∧ s.1.2 = (repeat (Int 0) k ++ repeat NegInf (9 - k))%list
    ∧ signOk s.2).
  assert (Hend : Inv 9%nat (best, scores, cache')).
  { refine (fold_seq_invariant (scoreStep emptyBoard X (boardMask emptyBoard)) Inv 9 _ _
              _ _ _ Hrun).
    - reflexivity.
    - split; [reflexivity|]. split; [reflexivity | exact Hinv].
    - intros k [[best0 scores0] c0] [[best1 scores1] c1] Hk (Hb0 & Hs0 & Hc0).
      cbn [fst snd] in Hb0, Hs0, Hc0. unfold scoreStep. cbn [mbind option_bind].
      rewrite (emptyBoard_mask k Hk), bool_decide_eq_false_2 by discriminate.
      destruct (negamax searchFuel c0 (applyMove emptyBoard k X) (nextSymbol X) 1)
        as [[v c2]|] eqn:Hrec; cbn [mbind option_bind]; [|discriminate].
      intros [= <- <- <-].
      pose proof (emptiesIn_after_move emptyBoard k X Hk) as He.
      assert (Hd : 1 + Z.of_nat (emptiesIn (applyMove emptyBoard k X)) ≤ 9) by lia.
      destruct (negamax_sign _ _ _ _ _ _ _ Hd Hc0 Hrec) as [Hv Hc2].
      change (nextSymbol X) with O in Hv. rewrite (opening_outcome k Hk) in Hv.
      apply sgn_zero in Hv. subst v scores0 best0.
      split; [|split; [|exact Hc2]]; cbn [fst snd].
      + destruct k; reflexivity.
      + now apply scores_fill. }
  destruct Hend as (Hb & Hs & _). split; [exact Hb | exact Hs].
Qed.

(** The tables after any sequence of queries: the scores have the sign of
    the outcome, and the stored answer for the empty board, if any, is the
    uniform one. *)
Definition tablesOk (st : Caches) : Prop :=
  signOk (negamaxCache st)
  ∧ ∀ pol v, policyCache st !! cacheKey emptyBoard X = Some (pol, v) →
      pol = repeat (1 # 9)%Q 9 ∧ v = 0%Q.

Lemma tablesOk_fresh : tablesOk freshCaches.
Proof.
  split; [apply signOk_empty|]. intros pol v H. simpl in H.
  now rewrite lookup_empty in H.
Qed.

Lemma minimaxPolicy_tables (st st' : Caches) (b : string) (t : PlayerSymbol)
    (r : PolicyResult) :
  tablesOk st → minimaxPolicy st b t = Some (r, st') →
  tablesOk st' ∧ (b = emptyBoard → t = X → r = uniformAnswer).
Proof.
  intros [Hsign Hpol]. unfold minimaxPolicy.
  destruct (policyCache st !! cacheKey b t) as [[pol v]|] eqn:Hhit.
  { intros [= <- <-]. split; [now split|]. intros -> ->.
    destruct (Hpol pol v Hhit) as [-> ->]. reflexivity. }
  destruct (isTerminal b) eqn:Hterm.
  { intros [= <- <-]. split.
    - split; [exact Hsign|]. cbn [policyCache]. intros pol v.
      destruct (decide (cacheKey b t = cacheKey emptyBoard X)) as [Heq|Hne].
      + apply cacheKey_inj in Heq as [-> ->]. discriminate Hterm.
      + rewrite lookup_insert_ne by exact Hne. apply Hpol.
    - intros -> ->. discriminate Hterm. }
  destruct (scoreMoves (negamaxCache st) b t (boardMask b))
    as [[[best scores] c]|] eqn:Hrun; [|discriminate].
  cbn [mbind option_bind]. intros [= <- <-].
  assert (Hempty : b = emptyBoard → t = X → best = Int 0 ∧ scores = repeat (Int 0) 9).
  { intros -> ->. exact (scoreMoves_empty_board _ _ _ _ Hsign Hrun). }
  split.
  - split; [exact (scoreMoves_sign _ _ _ _ _ _ _ Hsign Hrun)|]. cbn [policyCache].
    intros pol v.
    destruct (decide (cacheKey b t = cacheKey emptyBoard X)) as [Heq|Hne].
    + rewrite Heq, lookup_insert_eq. apply cacheKey_inj in Heq as [-> ->].
      destruct (Hempty eq_refl eq_refl) as [-> ->]. intros [= <- <-].
      split; reflexivity.
    + rewrite lookup_insert_ne by exact Hne. apply Hpol.
  - intros -> ->. destruct (Hempty eq_refl eq_refl) as [-> ->]. reflexivity.
Qed.

Lemma laterCaches_tables (st : Caches) : laterCaches freshCaches st → tablesOk st.
Proof.
  induction 1 as [|st1 st2 b t r _ IH Hcall]; [apply tablesOk_fresh|].
  now apply (minimaxPolicy_tables st1 st2 b t r IH) in Hcall.
Qed.

(** ** The claims about the teacher *)

(** C1. [minimaxPolicy] on the empty board with [X] to move returns the
    value 0 and the policy that gives each of the nine opening moves the
    probability 1/9.  It does so from the empty tables and from the tables
    that any sequence of earlier queries has left. *)
Theorem minimaxPolicy_empty_board (st : Caches) :
  laterCaches freshCaches st →
  fst <$> minimaxPolicy st emptyBoard X
  = Some {| policy := repeat (1 # 9)%Q 9; mask := repeat 1 9; value := 0%Q |}.
Proof.
  intros Hlater. destruct (minimaxPolicy_total st emptyBoard X) as [[r st'] Hrun].
  rewrite Hrun. cbn [fmap option_fmap option_map fst]. f_equal.
  destruct (minimaxPolicy_tables st st' _ _ r (laterCaches_tables st Hlater) Hrun)
    as [_ Hr].
  now apply Hr.
Qed.

Lemma minimaxPolicy_empty_board_witness :
  laterCaches freshCaches freshCaches
  ∧ fst <$> minimaxPolicy freshCaches emptyBoard X
    = Some {| policy := repeat (1 # 9)%Q 9; mask := repeat 1 9; value := 0%Q |}.
Proof.
  split; [apply later_here|].
  apply (minimaxPolicy_empty_board freshCaches). apply later_here.
Defined.

(** C2, as the code has it.  From empty memo tables, on every open
    nine-cell board where exactly one legal move wins at once for the side
    to move, [minimaxPolicy] gives that move probability 1 (and every other
    move 0), and returns the value 9/10: the win is scored
    [SCORE_WIN - 1] because it happens at depth 1. *)
Theorem forced_win_from_empty_tables (b : string) (t : PlayerSymbol) (w : nat) :
  String.length b = 9%nat →
  computeWinner b = None →
  (w < 9)%nat →
  winsAtOnce b t w = true →
  (∀ i, (i < 9)%nat → winsAtOnce b t i = true → i = w) →
  ∃ st', minimaxPolicy freshCaches b t = Some (forcedWinAnswer b w, st').
Proof.
  intros Hlen Hopen Hw Hwin Honly.
  apply (forced_win_from_tables b t w Hlen Hopen Hw Hwin Honly freshCaches).
  - apply lookup_empty.
  - apply cacheInv_empty.
Qed.

Definition nearWin : string := "XX_OO____".

Lemma nearWin_only_win (i : nat) : (i < 9)%nat → winsAtOnce nearWin X i = true → i = 2%nat.
Proof.
  intros Hi. do 9 (destruct i as [|i]; [vm_compute; congruence|]). lia.
Qed.

Lemma forced_win_from_empty_tables_witness :
  ∃ st', minimaxPolicy freshCaches nearWin X = Some (forcedWinAnswer nearWin 2, st').
Proof.
  apply (forced_win_from_empty_tables nearWin X 2).
  - reflexivity.
  - reflexivity.
  - lia.
  - reflexivity.
  - exact nearWin_only_win.
Defined.

(** C2, as the specification states it, fails: on ["XX_OO____"] with [X] to
    move, cell 2 is the only move that wins at once and it gets probability
    1, but the value returned is 9/10, not 1. *)
Lemma forced_win_value_is_not_one :
  computeWinner nearWin = None
  ∧ winsAtOnce nearWin X 2 = true
  ∧ (∀ i, (i < 9)%nat → winsAtOnce nearWin X i = true → i = 2%nat)
  ∧ fst <$> minimaxPolicy freshCaches nearWin X
    = Some {| policy := [0; 0; 1; 0; 0; 0; 0; 0; 0]%Q;
              mask := [0; 0; 1; 0; 0; 1; 1; 1; 1];
              value := (9 # 10)%Q |}
  ∧ ¬ (9 # 10 == 1)%Q.
Proof.
  split_and!; try (vm_compute; reflexivity).
  - exact nearWin_only_win.
  - intros H. discriminate H.
Qed.

(** The value of a won position also depends on what the tables already
    hold: after a query on the empty board, the answer on ["XX_OO____"]
    carries the depth at which the full search met that win. *)
Lemma forced_win_value_after_full_search :
  (minimaxPolicy freshCaches emptyBoard X ≫= fun '(_, st) =>
   fst <$> minimaxPolicy st nearWin X)
  = Some {| policy := [0; 0; 1; 0; 0; 0; 0; 0; 0]%Q;
            mask := [0; 0; 1; 0; 0; 1; 1; 1; 1];
            value := (1 # 2)%Q |}.
Proof. vm_compute. reflexivity. Qed.

(** The policy depends on the tables as well.  On ["XX_O___O_"] cell 2 wins
    at once for [X].  After a query that scores the reply to the double
    threat at depth 1 and a query that meets the win at cell 2 at depth 4,
    the stored score of the immediate win (6) is below the score of the
    double threat at cell 4 (7): cell 4 gets probability 1 and cell 2 gets
    probability 0. *)
Lemma forced_win_move_after_other_queries :
  winsAtOnce "XX_O___O_" X 2 = true
  ∧ (minimaxPolicy freshCaches "XX_OX__OO" X ≫= fun '(_, st) =>
     minimaxPolicy st "__X______" O ≫= fun '(_, st) =>
     fst <$> minimaxPolicy st "XX_O___O_" X)
    = Some {| policy := [0; 0; 0; 0; 1; 0; 0; 0; 0]%Q;
              mask := [0; 0; 1; 0; 1; 1; 1; 0; 1];
              value := (7 # 10)%Q |}.
Proof. split; vm_compute; reflexivity. Qed.

(** C8. Every state that [generateTeacherDataset] emits, with or without
    symmetry augmentation, has a policy that sums to 1 over the cells where
    its mask is 1 and is 0 on the cells where its mask is 0.  The run starts
    from the tables that any sequence of earlier queries has left, and it
    returns. *)
Theorem generateTeacherDataset_invariant (augmentSymmetries : bool) (st : Caches) :
  laterCaches freshCaches st →
  ∃ out st', generateTeacherDataset augmentSymmetries st = Some (out, st')
             ∧ Forall TeacherStateInv out.
Proof.
  intros Hlater.
  destruct (generateTeacherDataset_ok augmentSymmetries st (laterCaches_ok st Hlater))
    as (out & st' & Hrun & Hout & _).
  eauto.
Qed.

Lemma generateTeacherDataset_invariant_witness :
  laterCaches freshCaches freshCaches
  ∧ ∃ out st', generateTeacherDataset true freshCaches = Some (out, st')
               ∧ Forall TeacherStateInv out.
Proof.
  split; [apply later_here|].
  apply (generateTeacherDataset_invariant true freshCaches). apply later_here.
Defined.

(** C9. A query repeated after any number of other queries returns the same
    policy, mask and value as the first time, and leaves the tables as they
    are. *)
Theorem minimaxPolicy_deterministic (st st1 st2 : Caches) (b : string) (t : PlayerSymbol)
    (r : PolicyResult) :
  minimaxPolicy st b t = Some (r, st1) →
  laterCaches st1 st2 →
  minimaxPolicy st2 b t = Some (r, st2).
Proof.
  intros Hfirst Hlater.
  apply minimaxPolicy_records in Hfirst as (Hentry & Hmask & _).
  apply laterCaches_policyCache in Hlater.
  rewrite (minimaxPolicy_hit st2 b t (policy r) (value r)).
  - destruct r as [pol m v]. simpl in *. now subst m.
  - eapply lookup_weaken; eassumption.
Qed.

Definition lateBoard : string := "XOXOXO_X_".

Lemma minimaxPolicy_deterministic_witness :
  ∃ r st1 st2,
    minimaxPolicy freshCaches lateBoard O = Some (r, st1)
    ∧ laterCaches st1 st2
    ∧ minimaxPolicy st2 lateBoard O = Some (r, st2).
Proof.
  destruct (minimaxPolicy_total freshCaches lateBoard O) as [[r st1] H1].
  destruct (minimaxPolicy_total st1 "XOX_XO_X_" O) as [[r' st2] H2].
  exists r, st1, st2. split; [exact H1|]. split.
  - eapply later_call; [apply later_here | exact H2].
  - apply (minimaxPolicy_deterministic freshCaches st1 st2 lateBoard O r H1).
    eapply later_call; [apply later_here | exact H2].
Defined.

End TeacherProofs.

(** * Properties of the network engine *)

Module NetworkProofs.
Import Network.
Local Open Scope R_scope.

(** ** Construction *)

Definition validLength (n : Z) : Prop := (0 ≤ n ≤ 4294967295)%Z.

(** Every size that the constructor hands to [Array]. *)
Definition allSizes (c : NetworkConfig) : list Z :=
  (inputSize c :: hiddenLayers c ++ [outputSize c])%list.

Lemma arrayLength_Ok (n : Z) (k : nat) :
  arrayLength n = Ok k → validLength n ∧ k = Z.to_nat n.
Proof.
  unfold arrayLength, validLength.
  destruct (0 <=? n)%Z eqn:H0, (n <=? 4294967295)%Z eqn:H1; simpl; intros [=]; subst.
  split; [lia | reflexivity].
Qed.

Lemma arrayLength_valid (n : Z) : validLength n → arrayLength n = Ok (Z.to_nat n).
Proof.
  unfold arrayLength, validLength. intros [H0 H1].
  destruct (0 <=? n)%Z eqn:E0, (n <=? 4294967295)%Z eqn:E1; simpl; auto; lia.
Qed.

Lemma arrayLength_Throw (n : Z) (e : JsError) :
  arrayLength n = Throw e → e = RangeError ∧ ¬ validLength n.
Proof.
  unfold arrayLength, validLength.
  destruct (0 <=? n)%Z eqn:H0, (n <=? 4294967295)%Z eqn:H1; simpl; intros [=]; subst;
    split; auto; lia.
Qed.

Section Construction.
Variable Mrandom : nat → R.

#[local] Arguments newTrunk : simpl never.

Lemma newLayer_valid (a b : Z) (rs : nat) :
  validLength a → validLength b →
  ∃ l, newLayer Mrandom a b rs = Ok (l, (rs + Z.to_nat a * Z.to_nat b)%nat)
       ∧ List.length (weights l) = Z.to_nat a
       ∧ Forall (fun row => List.length row = Z.to_nat b) (weights l)
       ∧ List.length (biases l) = Z.to_nat b.
Proof.
  intros Ha Hb. unfold newLayer.
  rewrite (arrayLength_valid a Ha), (arrayLength_valid b Hb). simpl.
  eexists. split; [reflexivity|]. simpl. split_and!.
  - now rewrite length_map, length_seq.
  - apply Forall_forall. intros row Hrow.
    apply list_elem_of_fmap in Hrow as (i & -> & _).
    now rewrite length_map, length_seq.
  - apply repeat_length.
Qed.

Lemma newLayer_Throw (a b : Z) (rs : nat) (e : JsError) :
  newLayer Mrandom a b rs = Throw e →
  e = RangeError ∧ (¬ validLength a ∨ ¬ validLength b).
Proof.
  unfold newLayer. destruct (arrayLength a) as [n|e1] eqn:Ea; simpl.
  - destruct (arrayLength b) as [m|e2] eqn:Eb; simpl; [discriminate|].
    intros [= <-]. apply arrayLength_Throw in Eb as [-> Hb]. auto.
  - intros [= <-]. apply arrayLength_Throw in Ea as [-> Ha]. auto.
Qed.

Lemma newLayer_Ok (a b : Z) (rs : nat) (r : Layer * nat) :
  newLayer Mrandom a b rs = Ok r → validLength a ∧ validLength b.
Proof.
  unfold newLayer. destruct (arrayLength a) as [n|e1] eqn:Ea; simpl; [|discriminate].
  destruct (arrayLength b) as [m|e2] eqn:Eb; simpl; [|discriminate].
  intros _. apply arrayLength_Ok in Ea as [Ha _]. apply arrayLength_Ok in Eb as [Hb _]. auto.
Qed.

Lemma newTrunk_cons (a b : Z) (rest : list Z) (rs : nat) :
  newTrunk Mrandom (a :: b :: rest) rs =
  (newLayer Mrandom a b rs ≫= fun '(l, rs1) =>
   newTrunk Mrandom (b :: rest) rs1 ≫= fun '(ls, rs2) => Ok (l :: ls, rs2)).
Proof. reflexivity. Qed.

Lemma newTrunk_Throw (sizes : list Z) (rs : nat) (e : JsError) :
  newTrunk Mrandom sizes rs = Throw e →
  e = RangeError ∧ Exists (fun n => ¬ validLength n) sizes.
Proof.
  revert rs. induction sizes as [|a sizes IH]; intros rs; [discriminate|].
  destruct sizes as [|b rest]; [discriminate|].
  rewrite newTrunk_cons.
  destruct (newLayer Mrandom a b rs) as [[l rs1]|e1] eqn:El; simpl.
  - destruct (newTrunk Mrandom (b :: rest) rs1) as [[ls rs2]|e2] eqn:Et; simpl;
      [discriminate|].
    intros [= <-]. destruct (IH _ Et) as [-> Hex]. split; [reflexivity|].
    now apply Exists_cons_tl.
  - intros [= <-].
    apply newLayer_Throw in El as [-> [Ha|Hb]]; (split; [reflexivity|]);
      [now apply Exists_cons_hd | apply Exists_cons_tl; now apply Exists_cons_hd].
Qed.

Lemma newTrunk_Ok (sizes : list Z) (rs : nat) (r : list Layer * nat) :
  (2 ≤ List.length sizes)%nat →
  newTrunk Mrandom sizes rs = Ok r → Forall validLength sizes.
Proof.
  revert rs r. induction sizes as [|a sizes IH]; intros rs r Hlen; [simpl in Hlen; lia|].
  destruct sizes as [|b rest]; [simpl in Hlen; lia|].
  rewrite newTrunk_cons.
  destruct (newLayer Mrandom a b rs) as [[l rs1]|e1] eqn:El; simpl; [|discriminate].
  destruct (newTrunk Mrandom (b :: rest) rs1) as [[ls rs2]|e2] eqn:Et; simpl;
    [|discriminate].
  intros _. apply newLayer_Ok in El as [Ha Hb].
  apply Forall_cons. split; [exact Ha|].
  destruct rest as [|c rest'].
  - apply Forall_cons. split; [exact Hb | apply Forall_nil_2].
  - eapply IH; [simpl; lia | exact Et].
Qed.

Lemma last_cons_elem (a d : Z) (l : list Z) : List.last (a :: l) d ∈ a :: l.
Proof.
  revert a. induction l as [|b l IH]; intros a.
  - simpl. apply elem_of_cons. now left.
  - change (List.last (a :: b :: l) d) with (List.last (b :: l) d).
    apply elem_of_cons. right. apply IH.
Qed.

Lemma Forall_validLength_allSizes (c : NetworkConfig) :
  Forall validLength (allSizes c) ↔
  Forall validLength (inputSize c :: hiddenLayers c) ∧ validLength (outputSize c).
Proof.
  unfold allSizes. rewrite app_comm_cons, Forall_app, Forall_singleton. reflexivity.
Qed.

(** The constructor checks nothing itself: it fails exactly when an
    array allocation does. *)
Lemma constructor_outcome (c : NetworkConfig) (rs : nat) :
  match constructor Mrandom c rs with
  | Ok _ => Forall validLength (allSizes c)
  | Throw e => e = RangeError ∧ Exists (fun n => ¬ validLength n) (allSizes c)
  end.
Proof.
  unfold constructor.
  set (hiddenSizes := inputSize c :: hiddenLayers c).
  assert (Hlast : List.last hiddenSizes (inputSize c) ∈ hiddenSizes)
    by apply last_cons_elem.
  assert (Hone : hiddenLayers c = [] → List.last hiddenSizes (inputSize c) = inputSize c)
    by (intros E; subst hiddenSizes; now rewrite E).
  set (lastHidden := List.last hiddenSizes (inputSize c)) in *.
  assert (Hsub : ∀ n, n ∈ hiddenSizes → n ∈ allSizes c).
  { intros n Hn. unfold allSizes. rewrite app_comm_cons. apply elem_of_app. now left. }
  destruct (newTrunk Mrandom hiddenSizes rs) as [[trunk rs1]|e] eqn:Et; simpl.
  - destruct (newLayer Mrandom _ (outputSize c) rs1) as [[pl rs2]|e] eqn:Ep; simpl.
    + apply newLayer_Ok in Ep as [Hl Ho].
      destruct (newLayer Mrandom _ 1 rs2) as [[vl rs3]|e] eqn:Ev; simpl.
      * apply Forall_validLength_allSizes. split; [|exact Ho].
        fold hiddenSizes. destruct (hiddenLayers c) as [|h hs] eqn:Eh.
        -- subst hiddenSizes. apply Forall_singleton. now rewrite <- Hone.
        -- eapply newTrunk_Ok; [|exact Et]. subst hiddenSizes. simpl. lia.
      * apply newLayer_Throw in Ev as [-> [Hbad|Hbad]]; [contradiction|].
        exfalso. apply Hbad. unfold validLength. lia.
    + apply newLayer_Throw in Ep as [-> [Hbad|Hbad]]; (split; [reflexivity|]).
      * apply Exists_exists. exists lastHidden. split; [|exact Hbad].
        apply Hsub, Hlast.
      * apply Exists_exists. exists (outputSize c). split; [|exact Hbad].
        unfold allSizes. rewrite app_comm_cons.
        apply elem_of_app. right. apply list_elem_of_singleton. reflexivity.
  - apply newTrunk_Throw in Et as [-> Hex]. split; [reflexivity|].
    apply Exists_exists in Hex as (n & Hn & Hbad).
    apply Exists_exists. exists n. split; [|exact Hbad].
    apply Hsub, Hn.
Qed.

(** The outcome of construction on valid sizes, with the shape of every
    layer. *)
Lemma newTrunk_valid (sizes : list Z) (rs : nat) :
  Forall validLength sizes →
  ∃ ls rs', newTrunk Mrandom sizes rs = Ok (ls, rs')
            ∧ List.length ls = pred (List.length sizes)
            ∧ ∀ i l, ls !! i = Some l →
                ∃ a b, sizes !! i = Some a ∧ sizes !! S i = Some b
                       ∧ List.length (weights l) = Z.to_nat a
                       ∧ Forall (fun row => List.length row = Z.to_nat b) (weights l)
                       ∧ List.length (biases l) = Z.to_nat b.
Proof.
  revert rs. induction sizes as [|a sizes IH]; intros rs Hall.
  - exists [], rs. split_and!; [reflexivity..|]. intros i l Hl. discriminate Hl.
  - destruct sizes as [|b rest].
    + exists [], rs. split_and!; [reflexivity..|]. intros i l Hl. discriminate Hl.
    + rewrite newTrunk_cons.
      apply Forall_cons in Hall as [Ha Hall]. pose proof Hall as Hall'.
      apply Forall_cons in Hall' as [Hb _].
      destruct (newLayer_valid a b rs Ha Hb) as (l0 & -> & Hw & Hrows & Hbias). simpl.
      destruct (IH (rs + Z.to_nat a * Z.to_nat b)%nat Hall) as (ls & rs' & -> & Hlen & Hls).
      simpl. exists (l0 :: ls), rs'. split_and!; [reflexivity|simpl in *; lia|].
      intros [|i] l Hl.
      * injection Hl as <-. exists a, b. split_and!; auto.
      * apply (Hls i l Hl).
Qed.

End Construction.

(** ** Loading a snapshot *)

(** What [loadSnapshot] compares: the number of rows, and the length of the
    first row. *)
Definition shapeOf (W : list (list R)) : nat * option nat :=
  (List.length W, List.length <$> W !! 0%nat).

(** The test that lets layer [l] take the weights [w]. *)
Definition accepts (l : Layer) (w : list (list R)) : Prop :=
  weights l ≠ [] ∧ shapeOf (weights l) = shapeOf w.

Lemma classic_accepts (l : Layer) (w : list (list R)) : accepts l w ∨ ¬ accepts l w.
Proof.
  unfold accepts.
  destruct (weights l) as [|row0 rows]; [right; intros [H _]; done|].
  destruct (decide (shapeOf (row0 :: rows) = shapeOf w)) as [H|H].
  - left. split; [done | exact H].
  - right. intros [_ H']. auto.
Qed.

Lemma loadLayers_cons (i : nat) (layer : Layer) (rest : list Layer)
    (snapshot : NetworkSnapshot) (w : list (list R)) (b : list R) :
  snapWeights snapshot !! i = Some w →
  snapBiases snapshot !! i = Some b →
  accepts layer w →
  loadLayers i (layer :: rest) snapshot =
  (setParameters layer w b :: (loadLayers (S i) rest snapshot).1,
   (loadLayers (S i) rest snapshot).2).
Proof.
  intros Hw Hb [Hne Hshape]. simpl. rewrite Hw, Hb.
  destruct (weights layer) as [|row0 rows] eqn:EW; [done|]. simpl.
  unfold shapeOf in Hshape. simpl in Hshape. injection Hshape as Hin Hout.
  rewrite bool_decide_eq_false_2 by (intros H; apply H; exact Hin).
  rewrite bool_decide_eq_false_2 by (intros H; apply H; exact Hout).
  simpl. now destruct (loadLayers (S i) rest snapshot).
Qed.

Lemma loadLayers_refused (i : nat) (layer : Layer) (rest : list Layer)
    (snapshot : NetworkSnapshot) (w : list (list R)) :
  snapWeights snapshot !! i = Some w →
  ¬ accepts layer w →
  ∃ e, loadLayers i (layer :: rest) snapshot = (layer :: rest, Some e).
Proof.
  intros Hw Hno. simpl. rewrite Hw.
  destruct (snapBiases snapshot !! i) as [b|]; [|eauto].
  destruct (weights layer) as [|row0 rows] eqn:EW; simpl; [eauto|].
  destruct (bool_decide _ || bool_decide _) eqn:Hcheck; [eauto|].
  exfalso. apply Hno. split; [now rewrite EW|].
  apply orb_false_iff in Hcheck as [H1 H2].
  apply bool_decide_eq_false in H1. apply bool_decide_eq_false in H2.
  rewrite EW. unfold shapeOf. simpl. f_equal.
  - destruct (decide (S (List.length rows) = List.length w)); [done|]. exfalso. auto.
  - destruct (decide (Some (List.length row0) = List.length <$> w !! 0%nat));
      [done|]. exfalso. auto.
Qed.

(** The loop stops at some layer [k]: the layers before [k] hold the
    snapshot's parameters, the others are as they were. *)
Lemma loadLayers_prefix (ls : list Layer) :
  ∀ i snapshot,
    ∃ k, (k ≤ List.length ls)%nat
         ∧ (∀ j, (j < k)%nat →
              ∃ l w b, ls !! j = Some l
                       ∧ snapWeights snapshot !! (i + j)%nat = Some w
                       ∧ snapBiases snapshot !! (i + j)%nat = Some b
                       ∧ accepts l w
                       ∧ (loadLayers i ls snapshot).1 !! j = Some (setParameters l w b))
         ∧ (∀ j, (k ≤ j)%nat → (loadLayers i ls snapshot).1 !! j = ls !! j)
         ∧ ((loadLayers i ls snapshot).2 = None → k = List.length ls)
         ∧ (is_Some (loadLayers i ls snapshot).2 → (k < List.length ls)%nat).
Proof.
  induction ls as [|layer rest IH]; intros i snapshot.
  - exists 0%nat. simpl. split_and!; auto; try lia. intros [e He]. discriminate He.
  - assert (Hstop : ∀ e, loadLayers i (layer :: rest) snapshot = (layer :: rest, Some e) →
              ∃ k, (k ≤ List.length (layer :: rest))%nat
                ∧ (∀ j, (j < k)%nat →
                     ∃ l w b, (layer :: rest) !! j = Some l
                       ∧ snapWeights snapshot !! (i + j)%nat = Some w
                       ∧ snapBiases snapshot !! (i + j)%nat = Some b
                       ∧ accepts l w
                       ∧ (loadLayers i (layer :: rest) snapshot).1 !! j
                         = Some (setParameters l w b))
                ∧ (∀ j, (k ≤ j)%nat →
                     (loadLayers i (layer :: rest) snapshot).1 !! j = (layer :: rest) !! j)
                ∧ ((loadLayers i (layer :: rest) snapshot).2 = None
                   → k = List.length (layer :: rest))
                ∧ (is_Some (loadLayers i (layer :: rest) snapshot).2
                   → (k < List.length (layer :: rest))%nat)).
    { intros e ->. exists 0%nat. simpl. split_and!; auto; try lia. discriminate. }
    destruct (snapWeights snapshot !! i) as [w|] eqn:Hw;
      [|apply (Hstop (MissingLayerData i)); simpl; now rewrite Hw].
    destruct (snapBiases snapshot !! i) as [b|] eqn:Hb;
      [|apply (Hstop (MissingLayerData i)); simpl; now rewrite Hw, Hb].
    destruct (classic_accepts layer w) as [Hacc|Hno].
    + rewrite (loadLayers_cons i layer rest snapshot w b Hw Hb Hacc).
      destruct (IH (S i) snapshot) as (k & Hk & Hloaded & Hkept & Hnone & Hsome).
      exists (S k). simpl. split_and!.
      * lia.
      * intros [|j] Hj.
        -- exists layer, w, b. rewrite Nat.add_0_r. split_and!; auto.
        -- destruct (Hloaded j ltac:(lia)) as (l & w' & b' & ? & ? & ? & ? & ?).
           exists l, w', b'. replace (i + S j)%nat with (S i + j)%nat by lia.
           split_and!; auto.
      * intros [|j] Hj; [lia|]. simpl. apply Hkept. lia.
      * intros H. f_equal. auto.
      * intros H. apply Hsome in H. lia.
    + destruct (loadLayers_refused i layer rest snapshot w Hw Hno) as [e He].
      apply (Hstop e He).
Qed.

Lemma loadSnapshot_layers (net : NeuralNetwork) (snapshot : NetworkSnapshot) :
  layers (loadSnapshot net snapshot).1 = (loadLayers 0 (layers net) snapshot).1
  ∧ (loadSnapshot net snapshot).2 = (loadLayers 0 (layers net) snapshot).2
  ∧ trainingCount (loadSnapshot net snapshot).1 = snapTrainingCount snapshot
  ∧ (is_Some (loadSnapshot net snapshot).2 →
     valueHead (loadSnapshot net snapshot).1 = valueHead net).
Proof.
  unfold loadSnapshot. destruct (loadLayers 0 (layers net) snapshot) as [ls [e|]]; simpl.
  - auto.
  - split_and!; auto. intros [e He]. discriminate He.
Qed.

(** The way the loop of [loadSnapshot] fails at layer [k], which is [lk]
    in the network: the snapshot has no weights or no biases for it; or the
    layer has no row, so that reading the length of its first row is a
    [TypeError]; or the shapes differ. *)
Definition thrownAt (snapshot : NetworkSnapshot) (k : nat) (lk : Layer) (e : JsError)
    : Prop :=
  ((snapWeights snapshot !! k = None ∨ snapBiases snapshot !! k = None)
   ∧ e = MissingLayerData k)
  ∨ (∃ w b, snapWeights snapshot !! k = Some w ∧ snapBiases snapshot !! k = Some b
            ∧ weights lk = [] ∧ e = TypeError)
  ∨ (∃ w b row0, snapWeights snapshot !! k = Some w ∧ snapBiases snapshot !! k = Some b
                 ∧ weights lk !! 0%nat = Some row0
                 ∧ shapeOf (weights lk) ≠ shapeOf w
                 ∧ e = ShapeMismatch k (List.length (weights lk)) (List.length row0)
                         (List.length w) (List.length <$> w !! 0%nat)).

(** A layer that the loop has loaded does not fail. *)
Lemma thrownAt_not_accepted (snapshot : NetworkSnapshot) (k : nat) (lk : Layer)
    (e : JsError) (w : list (list R)) (b : list R) :
  thrownAt snapshot k lk e →
  snapWeights snapshot !! k = Some w → snapBiases snapshot !! k = Some b →
  ¬ accepts lk w.
Proof.
  intros [([Hw|Hb] & _) | [(w' & b' & Hw' & _ & Hnil & _)
                          | (w' & b' & row0 & Hw' & _ & _ & Hshape & _)]] Hw0 Hb0 [Hne Hacc].
  - congruence.
  - congruence.
  - contradiction.
  - rewrite Hw0 in Hw'. injection Hw' as <-. contradiction.
Qed.

(** When the loop throws, it throws at the first layer [k] that fails the
    checks: the layers before [k] hold the snapshot's parameters, layer [k]
    and the later ones are as they were. *)
Lemma loadLayers_thrown (ls : list Layer) :
  ∀ i snapshot e,
    (loadLayers i ls snapshot).2 = Some e →
    ∃ k lk,
      ls !! k = Some lk
      ∧ thrownAt snapshot (i + k) lk e
      ∧ (∀ j, (j < k)%nat →
           ∃ l w b, ls !! j = Some l
                    ∧ snapWeights snapshot !! (i + j)%nat = Some w
                    ∧ snapBiases snapshot !! (i + j)%nat = Some b
                    ∧ accepts l w
                    ∧ (loadLayers i ls snapshot).1 !! j = Some (setParameters l w b))
      ∧ (∀ j, (k ≤ j)%nat → (loadLayers i ls snapshot).1 !! j = ls !! j).
Proof.
  induction ls as [|layer rest IH]; intros i snapshot e.
  - simpl. discriminate.
  - assert (Hstop : ∀ e', loadLayers i (layer :: rest) snapshot = (layer :: rest, Some e') →
              thrownAt snapshot (i + 0) layer e' →
              (loadLayers i (layer :: rest) snapshot).2 = Some e →
              ∃ k lk,
                (layer :: rest) !! k = Some lk
                ∧ thrownAt snapshot (i + k) lk e
                ∧ (∀ j, (j < k)%nat →
                     ∃ l w b, (layer :: rest) !! j = Some l
                              ∧ snapWeights snapshot !! (i + j)%nat = Some w
                              ∧ snapBiases snapshot !! (i + j)%nat = Some b
                              ∧ accepts l w
                              ∧ (loadLayers i (layer :: rest) snapshot).1 !! j
                                = Some (setParameters l w b))
                ∧ (∀ j, (k ≤ j)%nat →
                     (loadLayers i (layer :: rest) snapshot).1 !! j = (layer :: rest) !! j)).
    { intros e' Heq Hthrown. rewrite Heq. cbn [snd fst]. intros [= <-].
      exists 0%nat, layer. split_and!; [reflexivity | exact Hthrown | intros j Hj; lia | auto]. }
    rewrite Nat.add_0_r in Hstop.
    destruct (snapWeights snapshot !! i) as [w|] eqn:Hw.
    2:{ apply (Hstop (MissingLayerData i)); [simpl; now rewrite Hw|].
        left. auto. }
    destruct (snapBiases snapshot !! i) as [b|] eqn:Hb.
    2:{ apply (Hstop (MissingLayerData i)); [simpl; now rewrite Hw, Hb|].
        left. auto. }
    destruct (weights layer) as [|row0 rows] eqn:EW.
    { apply (Hstop TypeError); [simpl; now rewrite Hw, Hb, EW|].
      right. left. exists w, b. auto. }
    destruct (classic_accepts layer w) as [Hacc|Hno].
    + rewrite (loadLayers_cons i layer rest snapshot w b Hw Hb Hacc). cbn [snd fst].
      intros He. destruct (IH (S i) snapshot e He) as (k & lk & Hlk & Hthrown & Hloaded & Hkept).
      exists (S k), lk. split_and!.
      * exact Hlk.
      * replace (i + S k)%nat with (S i + k)%nat by lia. exact Hthrown.
      * intros [|j] Hj.
        -- exists layer, w, b. rewrite Nat.add_0_r. split_and!; auto.
        -- destruct (Hloaded j ltac:(lia)) as (l & w' & b' & ? & ? & ? & ? & ?).
           exists l, w', b'. replace (i + S j)%nat with (S i + j)%nat by lia.
           split_and!; auto.
      * intros [|j] Hj; [lia|]. simpl. apply Hkept. lia.
    + assert (Hshape : shapeOf (weights layer) ≠ shapeOf w).
      { intros Heq. apply Hno. split; [now rewrite EW | exact Heq]. }
      apply (Hstop (ShapeMismatch i (List.length (weights layer)) (List.length row0)
                      (List.length w) (List.length <$> w !! 0%nat))).
      * simpl. rewrite Hw, Hb, EW. cbn [lookup list_lookup].
        destruct (bool_decide _ || bool_decide _) eqn:Hcheck; [reflexivity|].
        exfalso. apply Hshape. rewrite EW.
        apply orb_false_iff in Hcheck as [H1 H2].
        apply bool_decide_eq_false in H1. apply bool_decide_eq_false in H2.
        unfold shapeOf. cbn [lookup list_lookup fmap option_fmap option_map]. f_equal.
        -- destruct (decide (List.length (row0 :: rows) = List.length w)); [done|].
           exfalso. auto.
        -- destruct (decide (Some (List.length row0) = List.length <$> w !! 0%nat));
             [done|]. exfalso. auto.
      * right. right. exists w, b, row0. rewrite EW. split_and!; auto.
        now rewrite <- EW.
Qed.

(** ** The claims about construction and snapshots *)

(** C6, as the code has it.  The constructor validates nothing.  It raises
    exactly when one of the sizes (the input size, a hidden width or the
    output size) is not a valid array length, that is when it is negative
    or above [2^32 - 1]; a size of 0 and an empty list of hidden layers are
    accepted. *)
Theorem constructor_raises_iff (Mrandom : nat → R) (c : NetworkConfig) (rs : nat) :
  (∃ e, constructor Mrandom c rs = Throw e)
  ↔ Exists (fun n => ¬ validLength n) (allSizes c).
Proof.
  pose proof (constructor_outcome Mrandom c rs) as H. split.
  - intros [e He]. rewrite He in H. apply H.
  - intros Hex. destruct (constructor Mrandom c rs) as [r|e]; [|eauto].
    exfalso. apply Exists_exists in Hex as (n & Hn & Hbad).
    rewrite Forall_forall in H. apply Hbad, H, Hn.
Qed.

(** A configuration with no input and no hidden layer. *)
Definition zeroConfig : NetworkConfig :=
  mkNetworkConfig 0 [] 9 0.01 None None None None.

(** C6, as the specification states it, fails: a configuration whose input
    size is 0 and whose list of hidden layers is empty is constructed
    without an error. *)
Lemma constructor_accepts_zero_input :
  (inputSize zeroConfig ≤ 0)%Z
  ∧ hiddenLayers zeroConfig = []
  ∧ ∃ net, constructor (fun _ => 0) zeroConfig 0 = Ok (net, 0%nat)
           ∧ List.length (layers net) = 1%nat.
Proof.
  split; [simpl; lia|]. split; [reflexivity|].
  eexists. split; reflexivity.
Qed.

Lemma constructor_raises_iff_witness :
  ∃ e, constructor (fun _ => 0) (mkNetworkConfig 10 [(-1)%Z] 9 0.01 None None None None) 0
       = Throw e.
Proof.
  apply (constructor_raises_iff (fun _ => 0)).
  apply Exists_cons_tl, Exists_cons_hd. unfold validLength. lia.
Defined.

(** C5, as the code has it.  When the weight matrix that the snapshot
    holds for some layer [i] of the network differs from that layer's in its
    number of rows or in the length of its first row, [loadSnapshot]
    throws.  It throws at the first layer [k] that fails its checks, which
    is [i] itself when every layer before [i] passes them.  At the throw,
    every layer before [k] has passed the checks and holds the snapshot's
    weights and biases, layer [k], the later ones and the value head are as
    before the call, and the training counter is the snapshot's. *)
Theorem loadSnapshot_shape_mismatch (net : NeuralNetwork) (snapshot : NetworkSnapshot)
    (i : nat) (l : Layer) (w : list (list R)) :
  layers net !! i = Some l →
  snapWeights snapshot !! i = Some w →
  shapeOf (weights l) ≠ shapeOf w →
  ∃ e k lk,
    (loadSnapshot net snapshot).2 = Some e
    ∧ (k ≤ i)%nat
    ∧ layers net !! k = Some lk
    ∧ thrownAt snapshot k lk e
    ∧ (∀ j, (j < k)%nat →
         ∃ lj wj bj, layers net !! j = Some lj
                     ∧ snapWeights snapshot !! j = Some wj
                     ∧ snapBiases snapshot !! j = Some bj
                     ∧ accepts lj wj
                     ∧ layers (loadSnapshot net snapshot).1 !! j
                       = Some (setParameters lj wj bj))
    ∧ (∀ j, (k ≤ j)%nat → layers (loadSnapshot net snapshot).1 !! j = layers net !! j)
    ∧ ((∀ j, (j < i)%nat →
          ∃ lj wj bj, layers net !! j = Some lj
                      ∧ snapWeights snapshot !! j = Some wj
                      ∧ snapBiases snapshot !! j = Some bj
                      ∧ accepts lj wj) → k = i)
    ∧ valueHead (loadSnapshot net snapshot).1 = valueHead net
    ∧ trainingCount (loadSnapshot net snapshot).1 = snapTrainingCount snapshot.
Proof.
  intros Hl Hw Hshape.
  destruct (loadSnapshot_layers net snapshot) as (Hlayers & Herr & Hcount & Hhead).
  destruct ((loadLayers 0 (layers net) snapshot).2) as [e|] eqn:He.
  - destruct (loadLayers_thrown (layers net) 0 snapshot e He)
      as (k & lk & Hlk & Hthrown & Hloaded & Hkept).
    cbn [Nat.add] in Hthrown.
    assert (Hki : (k ≤ i)%nat).
    { destruct (decide (k ≤ i)%nat) as [|Hgt]; [done|]. exfalso.
      destruct (Hloaded i ltac:(lia)) as (l' & w' & b' & Hl' & Hw' & _ & [_ Hacc] & _).
      cbn [Nat.add] in Hw'. rewrite Hl in Hl'. rewrite Hw in Hw'.
      injection Hl' as <-. injection Hw' as <-. auto. }
    exists e, k, lk. rewrite Hlayers.
    assert (Hvh : valueHead (loadSnapshot net snapshot).1 = valueHead net)
      by (apply Hhead; rewrite Herr; eauto).
    split_and!; [exact Herr | exact Hki | exact Hlk | exact Hthrown | | exact Hkept | | exact Hvh | exact Hcount].
    + intros j Hj. destruct (Hloaded j Hj) as (lj & wj & bj & ? & ? & ? & ? & ?).
      exists lj, wj, bj. auto.
    + intros Hfit. destruct (decide (k = i)) as [|Hne]; [assumption|]. exfalso.
      destruct (Hfit k ltac:(lia)) as (lj & wj & bj & Hlj & Hwj & Hbj & Hacc).
      rewrite Hlk in Hlj. injection Hlj as <-.
      exact (thrownAt_not_accepted snapshot k lk e wj bj Hthrown Hwj Hbj Hacc).
  - exfalso.
    destruct (loadLayers_prefix (layers net) 0 snapshot)
      as (k & Hk & Hloaded & _ & Hnone & _).
    specialize (Hnone He). subst k.
    destruct (Hloaded i) as (l' & w' & b' & Hl' & Hw' & _ & [_ Hacc] & _).
    { now apply lookup_lt_Some in Hl. }
    cbn [Nat.add] in Hw'. rewrite Hl in Hl'. rewrite Hw in Hw'.
    injection Hl' as <-. injection Hw' as <-. auto.
Qed.

Definition oneByOne (w : R) : Layer := mkLayer [[w]] [0] [[0]] [0] [] [].

(** A network with one hidden unit and one output. *)
Definition smallNet : NeuralNetwork :=
  mkNeuralNetwork (mkNetworkConfig 1 [1%Z] 1 0.01 None None None None)
    [oneByOne 1; oneByOne 1] (oneByOne 1) 0 [] 0.5 0.0005 5 0.01 0.15 false [].

(** A snapshot whose first layer fits [smallNet] and whose second layer has
    two columns instead of one. *)
Definition badSnapshot : NetworkSnapshot :=
  mkNetworkSnapshot (config smallNet) [ [[2]]; [[3; 4]] ] [ [0]; [0; 0] ]
    (Some [[1]]) (Some [0]) 7.

Lemma loadSnapshot_shape_mismatch_witness :
  ∃ e,
    (loadSnapshot smallNet badSnapshot).2 = Some e
    ∧ thrownAt badSnapshot 1 (oneByOne 1) e
    ∧ layers (loadSnapshot smallNet badSnapshot).1 !! 0%nat
      = Some (setParameters (oneByOne 1) [[2]] [0])
    ∧ layers (loadSnapshot smallNet badSnapshot).1 !! 1%nat = Some (oneByOne 1)
    ∧ valueHead (loadSnapshot smallNet badSnapshot).1 = valueHead smallNet
    ∧ trainingCount (loadSnapshot smallNet badSnapshot).1 = snapTrainingCount badSnapshot.
Proof.
  destruct (loadSnapshot_shape_mismatch smallNet badSnapshot 1 (oneByOne 1) [[3; 4]])
    as (e & k & lk & Herr & Hk & Hlk & Hthrown & Hloaded & Hkept & Hfirst & Hhead & Hcount).
  - reflexivity.
  - reflexivity.
  - unfold shapeOf. simpl. intros [=].
  - assert (Hk1 : k = 1%nat).
    { apply Hfirst. intros j Hj. assert (j = 0%nat) as -> by lia.
      exists (oneByOne 1), [[2]], [0].
      split_and!; [reflexivity | reflexivity | reflexivity |].
      split; [discriminate | reflexivity]. }
    subst k. injection Hlk as <-.
    exists e. split_and!; [exact Herr | exact Hthrown | | | exact Hhead | exact Hcount].
    + destruct (Hloaded 0%nat ltac:(lia)) as (lj & wj & bj & Hlj & Hwj & Hbj & _ & Hnew).
      injection Hlj as <-. injection Hwj as <-. injection Hbj as <-. exact Hnew.
    + rewrite (Hkept 1%nat ltac:(lia)). reflexivity.
Defined.

(** C5, as the specification states it, fails: the load of [badSnapshot]
    into [smallNet] throws at layer 1, and layer 0, which had passed the
    check, no longer holds the weight it had. *)
Lemma loadSnapshot_overwrites_checked_layers :
  (loadSnapshot smallNet badSnapshot).2 = Some (ShapeMismatch 1 1 1 1 (Some 2%nat))
  ∧ weights <$> layers smallNet !! 0%nat = Some [[1]]
  ∧ weights <$> layers (loadSnapshot smallNet badSnapshot).1 !! 0%nat = Some [[2]]
  ∧ layers (loadSnapshot smallNet badSnapshot).1 !! 0%nat ≠ layers smallNet !! 0%nat.
Proof.
  split_and!; try reflexivity.
  simpl. intros [= H]. lra.
Qed.

End NetworkProofs.

Module BackwardProofs.
Import Network Loops.
Local Open Scope R_scope.

(** ** One weight update *)

Section Update.
Variable net : NeuralNetwork.

Abbreviation lr := (currentLearningRate net).
Abbreviation decay := (weightDecay net).

(** The clipped gradient is never larger than the clip magnitude. *)
Lemma clipGradient_bound (g : R) :
  Rabs (clipGradient net g) <= Rabs (gradientClip net).
Proof.
  unfold clipGradient, Rmax, Rmin, Rabs.
  repeat match goal with
         | |- context [Rle_dec ?a ?b] => destruct (Rle_dec a b)
         | |- context [Rcase_abs ?a] => destruct (Rcase_abs a)
         end; lra.
Qed.

(** [w'] is [w] after one decay-and-gradient step with a clipped
    gradient. *)
Definition steppedCell (w w' : R) : Prop :=
  ∃ g, Rabs g <= Rabs (gradientClip net) ∧ w' = w * (1 - lr * decay) - lr * g.

(** [W] has the shape of [W0]; the cells in [done] are one step away from
    those of [W0], the others are equal to them. *)
Definition agreeExcept (done : nat → nat → Prop) (W0 W : list (list R)) : Prop :=
  List.length W = List.length W0
  ∧ ∀ i row0 row, W0 !! i = Some row0 → W !! i = Some row →
      List.length row = List.length row0
      ∧ ∀ j w0 w, row0 !! j = Some w0 → row !! j = Some w →
          (done i j → steppedCell w0 w) ∧ (¬ done i j → w = w0).

Lemma agreeExcept_refl (W : list (list R)) : agreeExcept (fun _ _ => False) W W.
Proof.
  split; [reflexivity|]. intros i row0 row H0 H. rewrite H0 in H. injection H as <-.
  split; [reflexivity|]. intros j w0 w Hw0 Hw. rewrite Hw0 in Hw. injection Hw as <-.
  split; [tauto | reflexivity].
Qed.

Lemma agreeExcept_iff (P Q : nat → nat → Prop) (W0 W : list (list R)) :
  (∀ i j, P i j ↔ Q i j) → agreeExcept P W0 W → agreeExcept Q W0 W.
Proof.
  intros HPQ [Hlen Hrows]. split; [exact Hlen|].
  intros i row0 row H0 H. destruct (Hrows i row0 row H0 H) as [Hl Hcells].
  split; [exact Hl|]. intros j w0 w Hw0 Hw.
  destruct (Hcells j w0 w Hw0 Hw) as [Hd Hn]. split.
  - intros HQ. apply Hd, HPQ, HQ.
  - intros HQ. apply Hn. intros HP. apply HQ, HPQ, HP.
Qed.

(** Writing one fresh cell. *)
Lemma updateCell_agree (done : nat → nat → Prop) (W0 W W' : list (list R))
    (i j : nat) (g : R) :
  agreeExcept done W0 W →
  ¬ done i j →
  Rabs g <= Rabs (gradientClip net) →
  updateCell net W i j g = Some W' →
  agreeExcept (fun i' j' => done i' j' ∨ (i' = i ∧ j' = j)) W0 W'.
Proof.
  intros [Hlen Hrows] Hfresh Hg. unfold updateCell.
  destruct (W !! i) as [row|] eqn:Hrow; simpl; [|discriminate].
  destruct (row !! j) as [w|] eqn:Hw; simpl; [|discriminate].
  intros [= <-]. split; [now rewrite length_insert|].
  intros i' row0 row' H0 H'.
  destruct (decide (i' = i)) as [->|Hi].
  - rewrite list_lookup_insert_eq in H' by (now apply lookup_lt_Some in Hrow).
    injection H' as <-.
    destruct (Hrows i row0 row H0 Hrow) as [Hl Hcells].
    split; [now rewrite length_insert|].
    intros j' w0 w' Hw0 Hw'.
    destruct (decide (j' = j)) as [->|Hj].
    + rewrite list_lookup_insert_eq in Hw' by (now apply lookup_lt_Some in Hw).
      injection Hw' as <-.
      destruct (Hcells j w0 w Hw0 Hw) as [_ Hsame]. rewrite (Hsame Hfresh). split.
      * intros _. exists g. split; [exact Hg | reflexivity].
      * intros Hno. exfalso. apply Hno. right. split; reflexivity.
    + rewrite list_lookup_insert_ne in Hw' by congruence.
      destruct (Hcells j' w0 w' Hw0 Hw') as [Hd Hn]. split.
      * intros [Hdone|[_ Heq]]; [auto | congruence].
      * intros Hno. apply Hn. intros Hdone. apply Hno. now left.
  - rewrite list_lookup_insert_ne in H' by congruence.
    destruct (Hrows i' row0 row' H0 H') as [Hl Hcells].
    split; [exact Hl|]. intros j' w0 w' Hw0 Hw'.
    destruct (Hcells j' w0 w' Hw0 Hw') as [Hd Hn]. split.
    + intros [Hdone|[Heq _]]; [auto | congruence].
    + intros Hno. apply Hn. intros Hdone. apply Hno. now left.
Qed.

(** After the loop over row [i], the cells of that row under [delta] are
    done as well. *)
Lemma updateRow_agree (prev delta : list R) (W0 W W' : list (list R)) (i : nat) :
  agreeExcept (fun i' j' => (i' < i)%nat ∧ (j' < List.length delta)%nat) W0 W →
  updateRow net prev delta (Some W) i = Some W' →
  agreeExcept (fun i' j' => (i' < S i)%nat ∧ (j' < List.length delta)%nat) W0 W'.
Proof.
  intros Hstart Hrun.
  pose (Inv := fun (k : nat) (Wk : list (list R)) =>
    agreeExcept (fun i' j' => ((i' < i)%nat ∧ (j' < List.length delta)%nat)
                              ∨ (i' = i ∧ (j' < k)%nat)) W0 Wk).
  assert (Hend : Inv (List.length delta) W').
  { unfold updateRow in Hrun.
    eapply (fold_seq_invariant _ Inv); [| |  |exact Hrun].
    - reflexivity.
    - unfold Inv. eapply agreeExcept_iff; [|exact Hstart]. intros i' j'. cbv beta. lia.
    - intros k s s' Hk HInv. simpl.
      destruct (prev !! i) as [p|]; simpl; [|discriminate].
      destruct (delta !! k) as [d|]; simpl; [|discriminate].
      intros Hcell. unfold Inv in *.
      assert (Hfresh : ¬ (((i < i)%nat ∧ (k < List.length delta)%nat)
                          ∨ (i = i ∧ (k < k)%nat))) by lia.
      pose proof (updateCell_agree _ W0 s s' i k _ HInv Hfresh
                    (clipGradient_bound _) Hcell) as Hnext.
      eapply agreeExcept_iff; [|exact Hnext].
      intros i' j'. cbv beta. lia. }
  unfold Inv in Hend. eapply agreeExcept_iff; [|exact Hend]. intros i' j'. cbv beta. lia.
Qed.

Lemma updateRow_None (prev delta : list R) (i : nat) :
  updateRow net prev delta None i = None.
Proof. unfold updateRow. now apply fold_left_None. Qed.

(** After [updateWeights], the cells under [prev] and [delta] are one
    step away from what they were, and nothing else has changed. *)
Lemma updateWeights_agree (prev delta : list R) (W W' : list (list R)) :
  updateWeights net prev delta W = Some W' →
  agreeExcept (fun i j => (i < List.length prev)%nat ∧ (j < List.length delta)%nat) W W'.
Proof.
  unfold updateWeights. intros Hrun.
  apply (fold_seq_invariant (updateRow net prev delta)
           (fun k Wk => agreeExcept
              (fun i j => (i < k)%nat ∧ (j < List.length delta)%nat) W Wk)
           (List.length prev) W W').
  - apply updateRow_None.
  - eapply agreeExcept_iff; [|apply agreeExcept_refl].
    intros i j. simpl. split; [intros [] | intros [H _]; lia].
  - intros k s s' _ Hk Hrow. eapply updateRow_agree; eassumption.
  - exact Hrun.
Qed.

(** The weights of [W'] are those of [W], each one either untouched or
    moved by one decay-and-gradient step. *)
Definition steppedMatrix (W W' : list (list R)) : Prop :=
  List.length W' = List.length W
  ∧ ∀ i row row', W !! i = Some row → W' !! i = Some row' →
      List.length row' = List.length row
      ∧ ∀ j w w', row !! j = Some w → row' !! j = Some w' →
          w' = w ∨ steppedCell w w'.

Lemma updateWeights_stepped (prev delta : list R) (W W' : list (list R)) :
  updateWeights net prev delta W = Some W' → steppedMatrix W W'.
Proof.
  intros [Hlen Hrows]%updateWeights_agree. split; [exact Hlen|].
  intros i row row' Hrow Hrow'. destruct (Hrows i row row' Hrow Hrow') as [Hl Hcells].
  split; [exact Hl|]. intros j w w' Hw Hw'.
  destruct (Hcells j w w' Hw Hw') as [Hdone Hnot].
  destruct (decide ((i < List.length prev)%nat ∧ (j < List.length delta)%nat)); auto.
Qed.

Definition steppedLayer (l l' : Layer) : Prop :=
  steppedMatrix (weights l) (weights l').

Lemma backwardTrunk_stepped (revTrunk : list Layer) :
  ∀ sharedDelta revTrunk',
    backwardTrunk net revTrunk sharedDelta = Some revTrunk' →
    Forall2 steppedLayer revTrunk revTrunk'.
Proof.
  induction revTrunk as [|layer below IH]; intros sharedDelta revTrunk'; simpl.
  - intros [= <-]. constructor.
  - destruct (mapM _ _) as [delta|]; simpl; [|discriminate].
    destruct (updateWeights net _ delta (weights layer)) as [W'|] eqn:HW; simpl;
      [|discriminate].
    destruct (updateBiases net delta (biases layer)) as [b'|]; simpl; [|discriminate].
    destruct (backThrough _ delta W') as [nextShared|]; simpl; [|discriminate].
    destruct (backwardTrunk net below nextShared) as [below'|] eqn:Hbelow; simpl;
      [|discriminate].
    intros [= <-]. constructor.
    + unfold steppedLayer. simpl. eapply updateWeights_stepped. exact HW.
    + eapply IH. exact Hbelow.
Qed.

End Update.

Lemma splitLast_app {A} (l front : list A) (x : A) :
  splitLast l = Some (front, x) → l = (front ++ [x])%list.
Proof.
  revert front. induction l as [|y l IH]; intros front; simpl; [discriminate|].
  destruct l as [|z l'].
  - intros [= <- <-]. reflexivity.
  - destruct (splitLast (z :: l')) as [[f w]|]; simpl; [|discriminate].
    intros [= <- <-]. simpl. f_equal. now apply IH.
Qed.

Lemma Forall2_rev {A B} (P : A → B → Prop) (l : list A) (k : list B) :
  Forall2 P l k → Forall2 P (rev l) (rev k).
Proof.
  induction 1 as [|x y l k Hxy _ IH]; simpl; [constructor|].
  apply Forall2_app; [exact IH | constructor; [exact Hxy | constructor]].
Qed.

(** What [backward] leaves alone. *)
Definition sameSettings (net net' : NeuralNetwork) : Prop :=
  config net' = config net
  ∧ trainingCount net' = trainingCount net
  ∧ valueLossWeight net' = valueLossWeight net
  ∧ weightDecay net' = weightDecay net
  ∧ gradientClip net' = gradientClip net
  ∧ currentLearningRate net' = currentLearningRate net
  ∧ dropout net' = dropout net
  ∧ isTraining net' = isTraining net.

(** One call of [backward] moves every weight of every layer, and of the
    value head, by at most one step. *)
Lemma backward_stepped (net net' : NeuralNetwork) (policyDelta valueDelta : list R) :
  backward net policyDelta valueDelta = Some net' →
  Forall2 (steppedLayer net) (layers net) (layers net')
  ∧ steppedLayer net (valueHead net) (valueHead net')
  ∧ sameSettings net net'.
Proof.
  unfold backward.
  destruct (splitLast (layers net)) as [[trunk policyLayer]|] eqn:Hsplit; simpl;
    [|discriminate].
  apply splitLast_app in Hsplit.
  destruct (updateWeights net _ policyDelta (weights policyLayer)) as [Wp|] eqn:HWp; simpl;
    [|discriminate].
  destruct (updateBiases net policyDelta (biases policyLayer)) as [bp|]; simpl;
    [|discriminate].
  destruct (valueDelta !! 0%nat) as [vd0|]; simpl; [|discriminate].
  destruct (updateWeights net _ [vd0] (weights (valueHead net))) as [Wv|] eqn:HWv; simpl;
    [|discriminate].
  destruct (updateBiases net [vd0] (biases (valueHead net))) as [bv|]; simpl;
    [|discriminate].
  destruct (backThrough _ policyDelta (weights policyLayer)) as [fromPolicy|]; simpl;
    [|discriminate].
  destruct (mapM _ _) as [sharedDelta|]; simpl; [|discriminate].
  destruct (backwardTrunk net (rev trunk) sharedDelta) as [revTrunk'|] eqn:Htrunk; simpl;
    [|discriminate].
  intros [= <-]. simpl. split_and!.
  - rewrite Hsplit. apply Forall2_app.
    + rewrite <- (rev_involutive trunk) at 1. apply Forall2_rev.
      eapply backwardTrunk_stepped. exact Htrunk.
    + constructor; [|constructor]. unfold steppedLayer. simpl.
      eapply updateWeights_stepped. exact HWp.
  - unfold steppedLayer. simpl. eapply updateWeights_stepped. exact HWv.
  - repeat split.
Qed.

(** ** The claim about gradient clipping *)

(** The weight [w'] is [w] itself, or [w] after the decay and a gradient
    term of magnitude at most [learningRate * clipMagnitude]. *)
Definition gradientTermBounded (net : NeuralNetwork) (w w' : R) : Prop :=
  w' = w
  ∨ Rabs (w' - w * (1 - currentLearningRate net * weightDecay net))
    <= currentLearningRate net * gradientClip net.

Lemma steppedCell_bounded (net : NeuralNetwork) (w w' : R) :
  0 <= currentLearningRate net → 0 <= gradientClip net →
  steppedCell net w w' →
  Rabs (w' - w * (1 - currentLearningRate net * weightDecay net))
  <= currentLearningRate net * gradientClip net.
Proof.
  intros Hlr Hc (g & Hg & ->).
  replace (_ - _ - _) with (- (currentLearningRate net * g)) by lra.
  rewrite Rabs_Ropp, Rabs_mult, (Rabs_pos_eq _ Hlr).
  rewrite (Rabs_pos_eq _ Hc) in Hg. now apply Rmult_le_compat_l.
Qed.

(** The bound without assumptions on the signs of the two settings. *)
Lemma steppedCell_bounded_abs (net : NeuralNetwork) (w w' : R) :
  steppedCell net w w' →
  Rabs (w' - w * (1 - currentLearningRate net * weightDecay net))
  <= Rabs (currentLearningRate net) * Rabs (gradientClip net).
Proof.
  intros (g & Hg & ->).
  replace (_ - _ - _) with (- (currentLearningRate net * g)) by lra.
  rewrite Rabs_Ropp, Rabs_mult. apply Rmult_le_compat_l; [apply Rabs_pos | exact Hg].
Qed.

(** C7. In a step of [backward], with a learning rate and a clip magnitude
    that are not negative, every weight of every layer of the trunk, of the
    policy head and of the value head changes by the decay and by a
    gradient term whose magnitude is at most
    [learningRate * clipMagnitude] (or is not written at all). *)
Theorem gradient_clip_bound (net net' : NeuralNetwork) (policyDelta valueDelta : list R) :
  0 <= currentLearningRate net →
  0 <= gradientClip net →
  backward net policyDelta valueDelta = Some net' →
  (∀ l L L' i row row' j w w',
      layers net !! l = Some L → layers net' !! l = Some L' →
      weights L !! i = Some row → weights L' !! i = Some row' →
      row !! j = Some w → row' !! j = Some w' →
      gradientTermBounded net w w')
  ∧ (∀ i row row' j w w',
      weights (valueHead net) !! i = Some row → weights (valueHead net') !! i = Some row' →
      row !! j = Some w → row' !! j = Some w' →
      gradientTermBounded net w w')
  ∧ List.length (layers net') = List.length (layers net).
Proof.
  intros Hlr Hc (Hlayers & Hvalue & _)%backward_stepped.
  assert (Hcell : ∀ W W' i row row' j w w',
            steppedMatrix net W W' →
            W !! i = Some row → W' !! i = Some row' →
            row !! j = Some w → row' !! j = Some w' →
            gradientTermBounded net w w').
  { intros W W' i row row' j w w' [_ Hrows] Hrow Hrow' Hw Hw'.
    destruct (Hrows i row row' Hrow Hrow') as [_ Hcells].
    destruct (Hcells j w w' Hw Hw') as [->|Hstep]; [now left|].
    right. now apply steppedCell_bounded. }
  split_and!.
  - intros l L L' i row row' j w w' HL HL'.
    apply (Hcell (weights L) (weights L')).
    exact (Forall2_lookup_lr _ _ _ _ _ _ Hlayers HL HL').
  - intros i row row' j w w'. apply (Hcell _ _ i row row' j w w' Hvalue).
  - symmetry. eapply Forall2_length. exact Hlayers.
Qed.

(** A network with no hidden layer, after a forward pass on the input
    [[1]]. *)
Definition directNet : NeuralNetwork :=
  mkNeuralNetwork (mkNetworkConfig 1 [] 1 0.01 None None None None)
    [mkLayer [[1]] [0] [[0]] [0] [1] [1]] (mkLayer [[1]] [0] [[0]] [0] [1] [0])
    0 [1] 0.5 0.0005 5 0.01 0.15 true [].

Lemma gradient_clip_bound_witness :
  ∃ net',
    backward directNet [100] [1] = Some net'
    ∧ (∀ l L L' i row row' j w w',
          layers directNet !! l = Some L → layers net' !! l = Some L' →
          weights L !! i = Some row → weights L' !! i = Some row' →
          row !! j = Some w → row' !! j = Some w' →
          gradientTermBounded directNet w w')
    ∧ (∀ i row row' j w w',
          weights (valueHead directNet) !! i = Some row →
          weights (valueHead net') !! i = Some row' →
          row !! j = Some w → row' !! j = Some w' →
          gradientTermBounded directNet w w')
    ∧ List.length (layers net') = List.length (layers directNet).
Proof.
  eexists. split; [reflexivity|].
  apply (gradient_clip_bound directNet _ [100] [1]); [simpl; lra | simpl; lra | reflexivity].
Defined.

End BackwardProofs.

Module SoftmaxProofs.
Import Network.
Local Open Scope R_scope.

(** ** Sums and maxima of lists of numbers *)

Fixpoint sumR (l : list R) : R :=
  match l with
  | [] => 0
  | x :: l' => x + sumR l'
  end.

Lemma fold_left_Rplus (l : list R) (a : R) : fold_left Rplus l a = a + sumR l.
Proof.
  revert a. induction l as [|x l IH]; intros a; simpl; [lra|]. rewrite IH. lra.
Qed.

Lemma sumR_app (l k : list R) : sumR (l ++ k) = sumR l + sumR k.
Proof. induction l as [|x l IH]; simpl; [lra|]. rewrite IH. lra. Qed.

Lemma sumR_nonneg (l : list R) : Forall (fun x => 0 <= x) l → 0 <= sumR l.
Proof. induction 1 as [|x l Hx _ IH]; simpl; lra. Qed.

Lemma sumR_ge_elem (l : list R) (x : R) :
  Forall (fun y => 0 <= y) l → x ∈ l → x <= sumR l.
Proof.
  induction 1 as [|y l Hy Hl IH]; intros Hx; [by apply elem_of_nil in Hx|].
  simpl. apply elem_of_cons in Hx as [->|Hx].
  - pose proof (sumR_nonneg l Hl). lra.
  - specialize (IH Hx). lra.
Qed.

Lemma sumR_map_div (l : list R) (s : R) : sumR (map (fun v => v / s) l) = sumR l / s.
Proof. induction l as [|x l IH]; simpl; [lra|]. rewrite IH. lra. Qed.

Lemma sumR_repeat (x : R) (n : nat) : sumR (repeat x n) = INR n * x.
Proof.
  induction n as [|n IH]; [simpl; lra|].
  change (repeat x (S n)) with (x :: repeat x n). simpl sumR. rewrite IH, S_INR. lra.
Qed.

Lemma fold_left_Rmax_ge (l : list R) (a : R) :
  a <= fold_left Rmax l a ∧ Forall (fun x => x <= fold_left Rmax l a) l.
Proof.
  revert a. induction l as [|x l IH]; intros a; simpl.
  - split; [lra | constructor].
  - destruct (IH (Rmax a x)) as [Hge Hall].
    pose proof (Rmax_l a x). pose proof (Rmax_r a x).
    split; [lra|]. constructor; [lra | exact Hall].
Qed.

Lemma fold_left_Rmax_elem (l : list R) (a : R) : fold_left Rmax l a ∈ a :: l.
Proof.
  revert a. induction l as [|x l IH]; intros a; simpl.
  - apply elem_of_cons. now left.
  - specialize (IH (Rmax a x)). apply elem_of_cons in IH as [Heq|Hin].
    + rewrite Heq. unfold Rmax. destruct (Rle_dec a x).
      * apply elem_of_cons. right. apply elem_of_cons. now left.
      * apply elem_of_cons. now left.
    + apply elem_of_cons. right. apply elem_of_cons. now right.
Qed.

(** The sum of [policy[i]] over the indices with [mask[i] = 1]. *)
Definition legalSum (policy : list R) (mask : list Z) : R :=
  sumR (imap (fun i p => if bool_decide (mask !! i = Some 1%Z) then p else 0) policy).

Lemma sumR_imap_select (g : nat → bool) (l : list R) :
  (∀ i x, l !! i = Some x → g i = true ∨ x = 0) →
  sumR (imap (fun i p => if g i then p else 0) l) = sumR l.
Proof.
  revert g. induction l as [|x l IH]; intros g Hg; [reflexivity|].
  rewrite imap_cons.
  change (sumR ((if g 0%nat then x else 0)
                :: imap ((fun i p => if g i then p else 0) ∘ S) l))
    with ((if g 0%nat then x else 0)
          + sumR (imap ((fun i p => if g i then p else 0) ∘ S) l)).
  change (sumR (x :: l)) with (x + sumR l).
  assert (Htail : sumR (imap ((fun i p => if g i then p else 0) ∘ S) l) = sumR l).
  { apply (IH (g ∘ S)). intros i y Hy. apply (Hg (S i) y Hy). }
  rewrite Htail.
  destruct (Hg 0%nat x eq_refl) as [->| ->]; [reflexivity|].
  destruct (g 0%nat); reflexivity.
Qed.

(** ** The masked softmax *)

Section Softmax.
Variable Mexp : R → R.
Variable Mtanh : R → R.
Variable Mrandom : nat → R.

(** [Math.exp(0)] is 1. *)
Hypothesis Mexp_0 : Mexp 0 = 1.

Lemma adjustLogits_length (logits : list R) (mask : option (list Z)) :
  List.length (adjustLogits logits mask) = List.length logits.
Proof. unfold adjustLogits. apply length_imap. Qed.

Lemma adjustLogits_lookup (logits : list R) (mask : list Z) (i : nat) :
  adjustLogits logits (Some mask) !! i
  = (fun v => if bool_decide (mask !! i = Some 0%Z) then -1e9 else v) <$> logits !! i.
Proof. unfold adjustLogits. apply list_lookup_imap. Qed.

Lemma softmax_length (logits : list R) (mask : option (list Z)) :
  List.length (softmax Mexp logits mask) = List.length logits.
Proof.
  unfold softmax. rewrite <- (adjustLogits_length logits mask).
  destruct (adjustLogits logits mask) as [|a rest]; [reflexivity|].
  now rewrite !length_map.
Qed.

(** When every adjusted logit is the same number, the subtraction of the
    maximum leaves 0 everywhere and the result is uniform. *)
Lemma softmax_constant (logits : list R) (mask : option (list Z)) (c : R) :
  Forall (fun v => v = c) (adjustLogits logits mask) →
  softmax Mexp logits mask
  = repeat (1 / INR (List.length logits)) (List.length logits).
Proof.
  intros Hall. unfold softmax. rewrite <- (adjustLogits_length logits mask).
  destruct (adjustLogits logits mask) as [|a rest] eqn:Hadj; [reflexivity|].
  set (adjusted := a :: rest) in *.
  assert (Hmax : fold_left Rmax rest a = c).
  { pose proof (fold_left_Rmax_elem rest a) as Hin.
    rewrite Forall_forall in Hall. now apply Hall. }
  rewrite Hmax.
  assert (Hexps : map (fun v => Mexp (v - c)) adjusted = repeat 1 (List.length adjusted)).
  { clear Hadj Hmax. induction Hall as [|v l Hv _ IH]; [reflexivity|].
    simpl. rewrite IH, Hv. replace (c - c) with 0 by lra. now rewrite Mexp_0. }
  rewrite Hexps, fold_left_Rplus, sumR_repeat.
  replace (0 + INR (List.length adjusted) * 1) with (INR (List.length adjusted)) by lra.
  assert (Hpos : 0 < INR (List.length adjusted)) by (apply lt_0_INR; simpl; lia).
  destruct (Req_dec_T (INR (List.length adjusted)) 0) as [Hz|_]; [lra|].
  now rewrite map_repeat.
Qed.

(** The policy that [forward] returns is the softmax of the logits. *)
Lemma forward_policy (net net' : NeuralNetwork) (rs rs' : nat)
    (input : list R) (mask : option (list Z)) (policy : list R) (value : R) :
  forward Mexp Mtanh Mrandom net rs input mask = Some (net', rs', (policy, value)) →
  ∃ logits, policyLogits Mrandom net rs input = Some logits
            ∧ policy = softmax Mexp logits mask.
Proof.
  unfold forward, policyLogits.
  destruct (forwardLogits Mrandom net rs input) as [[[[[[t pl] act] masks] rs1] logits]|];
    simpl; [|discriminate].
  destruct (biases (valueHead net) !! 0%nat) as [b0|]; simpl; [|discriminate].
  destruct (dotColumn act _ 0 b0) as [valueSum|]; simpl; [|discriminate].
  intros [= <- <- <- <-]. eauto.
Qed.

Lemma all_masked_adjusted (logits : list R) (mask : list Z) :
  (∀ i, (i < List.length logits)%nat → mask !! i = Some 0%Z) →
  Forall (fun v => v = -1e9) (adjustLogits logits (Some mask)).
Proof.
  intros Hmask. apply Forall_lookup. intros i v Hv.
  rewrite adjustLogits_lookup in Hv.
  destruct (logits !! i) as [x|] eqn:Hx; simpl in Hv; [|discriminate].
  apply lookup_lt_Some in Hx.
  rewrite bool_decide_eq_true_2 in Hv by auto. now injection Hv as <-.
Qed.

(** C10. When the mask is 0 at each of the nine outputs, [forward]
    returns the policy that gives 1/9 to every index. *)
Theorem forward_all_masked (net net' : NeuralNetwork) (rs rs' : nat)
    (input : list R) (mask : list Z) (policy : list R) (value : R) :
  forward Mexp Mtanh Mrandom net rs input (Some mask) = Some (net', rs', (policy, value)) →
  List.length policy = 9%nat →
  (∀ i, (i < 9)%nat → mask !! i = Some 0%Z) →
  policy = repeat (1 / 9) 9.
Proof.
  intros (logits & _ & ->)%forward_policy Hlen Hmask.
  rewrite softmax_length in Hlen.
  rewrite (softmax_constant logits (Some mask) (-1e9)).
  - rewrite Hlen. replace (INR 9) with 9 by (simpl; lra). reflexivity.
  - apply all_masked_adjusted. now rewrite Hlen.
Qed.

(** [Math.exp] is never negative, and it underflows to 0 on the doubles
    below about -745.13. *)
Hypothesis Mexp_nonneg : ∀ x, 0 <= Mexp x.
Hypothesis Mexp_underflow : ∀ x, x <= -746 → Mexp x = 0.

(** With one unmasked logit that is at least [746 - 1e9], the forced
    entries vanish and the whole policy sums to 1. *)
Lemma softmax_masked (logits : list R) (mask : list Z) (k : nat) (v : R) :
  logits !! k = Some v →
  mask !! k ≠ Some 0%Z →
  746 - 1e9 <= v →
  sumR (softmax Mexp logits (Some mask)) = 1
  ∧ ∀ i, (i < List.length logits)%nat → mask !! i = Some 0%Z →
      softmax Mexp logits (Some mask) !! i = Some 0.
Proof.
  intros Hk Hlegal Hv. unfold softmax.
  assert (Hadjk : adjustLogits logits (Some mask) !! k = Some v).
  { rewrite adjustLogits_lookup, Hk. simpl. now rewrite bool_decide_eq_false_2. }
  assert (Hadji : ∀ i, (i < List.length logits)%nat → mask !! i = Some 0%Z →
            adjustLogits logits (Some mask) !! i = Some (-1e9)).
  { intros i Hi Hm. rewrite adjustLogits_lookup.
    destruct (lookup_lt_is_Some_2 logits i Hi) as [x ->]. simpl.
    now rewrite bool_decide_eq_true_2. }
  assert (Hlen := adjustLogits_length logits (Some mask)).
  destruct (adjustLogits logits (Some mask)) as [|a rest] eqn:Hadj; [discriminate|].
  set (adjusted := a :: rest) in *.
  set (m := fold_left Rmax rest a).
  destruct (fold_left_Rmax_ge rest a) as [Ha Hrest]. fold m in Ha, Hrest.
  assert (Hle : Forall (fun x => x <= m) adjusted) by (constructor; assumption).
  assert (Hin : m ∈ adjusted) by apply fold_left_Rmax_elem.
  assert (Hvm : v <= m).
  { rewrite Forall_lookup in Hle. exact (Hle k v Hadjk). }
  set (exps := map (fun x => Mexp (x - m)) adjusted).
  assert (Hnonneg : Forall (fun y => 0 <= y) exps).
  { apply Forall_forall. intros y (x & -> & _)%list_elem_of_fmap. apply Mexp_nonneg. }
  assert (Hone : 1 ∈ exps).
  { rewrite <- Mexp_0. replace 0 with (m - m) by lra.
    exact (list_elem_of_fmap_2 (fun x => Mexp (x - m)) adjusted m Hin). }
  assert (Hsum : 1 <= sumR exps) by now apply sumR_ge_elem.
  rewrite fold_left_Rplus.
  destruct (Req_dec_T (0 + sumR exps) 0) as [Hz|Hnz]; [lra|].
  split.
  - rewrite sumR_map_div. field. lra.
  - intros i Hi Hm. specialize (Hadji i Hi Hm).
    rewrite list_lookup_fmap. unfold exps. rewrite list_lookup_fmap, Hadji. simpl.
    rewrite Mexp_underflow by lra. f_equal. lra.
Qed.

(** C3, as the code has it.  For a mask of zeros and ones, one for each
    logit, with a legal move whose logit is at least [746 - 1e9], the
    policy of [forward] sums to 1 over the legal moves and is exactly 0
    on the others. *)
Theorem forward_masked_softmax (net net' : NeuralNetwork) (rs rs' : nat)
    (input : list R) (mask : list Z) (policy logits : list R) (value : R)
    (k : nat) (v : R) :
  forward Mexp Mtanh Mrandom net rs input (Some mask) = Some (net', rs', (policy, value)) →
  policyLogits Mrandom net rs input = Some logits →
  List.length mask = List.length logits →
  Forall (fun m => m = 0 ∨ m = 1)%Z mask →
  mask !! k = Some 1%Z →
  logits !! k = Some v →
  746 - 1e9 <= v →
  legalSum policy mask = 1
  ∧ ∀ i, mask !! i = Some 0%Z → policy !! i = Some 0.
Proof.
  intros (logits' & HL & ->)%forward_policy HL' Hlen H01 Hk Hv Hbig.
  rewrite HL in HL'. injection HL' as ->.
  assert (Hlegal : mask !! k ≠ Some 0%Z) by (rewrite Hk; discriminate).
  destruct (softmax_masked logits mask k v Hv Hlegal Hbig) as [Hsum Hzero].
  assert (Hz : ∀ i, mask !! i = Some 0%Z → softmax Mexp logits (Some mask) !! i = Some 0).
  { intros i Hi. apply Hzero; [|exact Hi]. apply lookup_lt_Some in Hi. lia. }
  split; [|exact Hz].
  unfold legalSum. rewrite <- Hsum.
  apply (sumR_imap_select (fun i => bool_decide (mask !! i = Some 1%Z))).
  intros i x Hx.
  assert (Hi : (i < List.length mask)%nat).
  { apply lookup_lt_Some in Hx. rewrite softmax_length in Hx. lia. }
  destruct (lookup_lt_is_Some_2 mask i Hi) as [m Hm].
  rewrite Forall_lookup in H01. destruct (H01 i m Hm) as [-> | ->].
  - right. rewrite (Hz i Hm) in Hx. now injection Hx.
  - left. now apply bool_decide_eq_true_2.
Qed.

End Softmax.

(** ** Concrete networks *)

(** A model of [Math.exp] on doubles: exact above the underflow threshold,
    0 at and below it. *)
Definition underflowExp (x : R) : R := if Rle_dec x (-746) then 0 else exp x.

Lemma underflowExp_0 : underflowExp 0 = 1.
Proof. unfold underflowExp. destruct (Rle_dec 0 (-746)); [lra | apply exp_0]. Qed.

Lemma underflowExp_nonneg (x : R) : 0 <= underflowExp x.
Proof.
  unfold underflowExp. destruct (Rle_dec x (-746)); [lra|]. left. apply exp_pos.
Qed.

Lemma underflowExp_underflow (x : R) : x <= -746 → underflowExp x = 0.
Proof. intros H. unfold underflowExp. destruct (Rle_dec x (-746)); [reflexivity | lra]. Qed.

(** A network without hidden layer, with one input and nine outputs; every
    weight is 0 and [b0] is the bias of the first output. *)
Definition nineNet (b0 : R) : NeuralNetwork :=
  mkNeuralNetwork (mkNetworkConfig 1 [] 9 0.01 None None None None)
    [mkLayer [[0; 0; 0; 0; 0; 0; 0; 0; 0]] [b0; 0; 0; 0; 0; 0; 0; 0; 0]
             [[0; 0; 0; 0; 0; 0; 0; 0; 0]] [0; 0; 0; 0; 0; 0; 0; 0; 0] [] []]
    (mkLayer [[0]] [0] [[0]] [0] [] [])
    0 [] 0.5 0.0005 5 0.01 0.15 false [].

(** Only the first move is legal. *)
Definition firstLegal : list Z := [1; 0; 0; 0; 0; 0; 0; 0; 0]%Z.

Definition noRandom : nat → R := fun _ => 0.

Lemma adjustLogits_firstLegal (x0 x1 x2 x3 x4 x5 x6 x7 x8 : R) :
  adjustLogits [x0; x1; x2; x3; x4; x5; x6; x7; x8] (Some firstLegal)
  = [x0; -1e9; -1e9; -1e9; -1e9; -1e9; -1e9; -1e9; -1e9].
Proof. reflexivity. Qed.

Lemma legalSum_firstLegal (c : R) : legalSum (repeat c 9) firstLegal = c.
Proof. unfold legalSum. simpl. lra. Qed.

Lemma forward_masked_softmax_witness :
  ∃ net' rs' policy value,
    forward underflowExp tanh noRandom (nineNet 0) 0 [1] (Some firstLegal)
    = Some (net', rs', (policy, value))
    ∧ legalSum policy firstLegal = 1
    ∧ ∀ i, firstLegal !! i = Some 0%Z → policy !! i = Some 0.
Proof.
  eexists _, _, _, _. split; [reflexivity|].
  eapply (forward_masked_softmax underflowExp tanh noRandom underflowExp_0
            underflowExp_nonneg underflowExp_underflow (nineNet 0) _ 0%nat _ [1]
            firstLegal _ _ _ 0%nat (0 + 1 * 0)).
  - reflexivity.
  - reflexivity.
  - reflexivity.
  - repeat (constructor; [lia|]). constructor.
  - reflexivity.
  - reflexivity.
  - lra.
Defined.

(** C3, as the specification states it, fails.  When the logit of the only
    legal move is [-1e9] itself, the forced entries are as large as the
    legal one: every index gets 1/9, the illegal ones included, and the
    legal moves sum to 1/9. *)
Lemma masked_softmax_not_for_all_weights :
  ∃ net' rs' policy value,
    forward underflowExp tanh noRandom (nineNet (-1e9)) 0 [1] (Some firstLegal)
    = Some (net', rs', (policy, value))
    ∧ firstLegal !! 1%nat = Some 0%Z
    ∧ policy !! 1%nat = Some (1 / 9)
    ∧ legalSum policy firstLegal = 1 / 9
    ∧ 1 / 9 ≠ 0 ∧ 1 / 9 ≠ 1.
Proof.
  assert (Hf : ∃ r, forward underflowExp tanh noRandom (nineNet (-1e9)) 0 [1]
                      (Some firstLegal) = Some r) by (eexists; reflexivity).
  destruct Hf as [[[net' rs'] [policy value]] Hf].
  exists net', rs', policy, value. split; [exact Hf|].
  apply forward_policy in Hf as (logits & HL & ->).
  assert (HL' : policyLogits noRandom (nineNet (-1e9)) 0 [1]
                = Some [-1e9 + 1 * 0; 0 + 1 * 0; 0 + 1 * 0; 0 + 1 * 0; 0 + 1 * 0;
                        0 + 1 * 0; 0 + 1 * 0; 0 + 1 * 0; 0 + 1 * 0]) by reflexivity.
  rewrite HL' in HL. injection HL as <-.
  rewrite (softmax_constant underflowExp underflowExp_0 _ _ (-1e9)).
  - replace (INR _) with 9 by (simpl; lra).
    rewrite legalSum_firstLegal.
    split_and!; try reflexivity; lra.
  - rewrite adjustLogits_firstLegal. constructor; [lra|]. repeat constructor.
Qed.

Lemma forward_all_masked_witness :
  ∃ net' rs' policy value,
    forward exp tanh noRandom (nineNet 0) 0 [1] (Some (repeat 0%Z 9))
    = Some (net', rs', (policy, value))
    ∧ policy = repeat (1 / 9) 9.
Proof.
  eexists _, _, _, _. split; [reflexivity|].
  eapply (forward_all_masked exp tanh noRandom exp_0 (nineNet 0) _ 0%nat _ [1]
            (repeat 0%Z 9)).
  - reflexivity.
  - reflexivity.
  - intros i Hi. do 9 (destruct i as [|i]; [reflexivity|]). lia.
Defined.


End SoftmaxProofs.

Module SnapshotProofs.
Import Network Loops NetworkProofs BackwardProofs SoftmaxProofs.
Local Open Scope R_scope.

(** ** What [forward] reads *)

(** The learned state of a layer. *)
Definition parameters (l : Layer) : list (list R) * list R := (weights l, biases l).

(** What a caller of [forward] sees: the position in the random stream and
    the pair of the policy and the value. *)
Definition forwardOutput (r : option (NeuralNetwork * nat * (list R * R)))
    : option (nat * (list R * R)) :=
  (fun x => (x.1.2, x.2)) <$> r.

(** The activation, the dropout masks and the position in the random
    stream that the loop over the trunk produces. *)
Definition trunkOutput (r : option (list Layer * list R * list (list R) * nat))
    : option (list R * list (list R) * nat) :=
  (fun x => (x.1.1.2, x.1.2, x.2)) <$> r.

Lemma splitLast_parameters (l1 : list Layer) :
  ∀ l2, map parameters l1 = map parameters l2 →
    match splitLast l1, splitLast l2 with
    | Some (t1, p1), Some (t2, p2) =>
        map parameters t1 = map parameters t2 ∧ parameters p1 = parameters p2
    | None, None => True
    | _, _ => False
    end.
Proof.
  induction l1 as [|x l1 IH]; intros [|y l2] Hmap; try discriminate Hmap; [exact I|].
  simpl in Hmap. injection Hmap as Hw Hb Hrest.
  assert (Hxy : parameters x = parameters y) by (unfold parameters; congruence).
  specialize (IH l2 Hrest).
  destruct l1 as [|x' l1'], l2 as [|y' l2']; try discriminate Hrest.
  - simpl. auto.
  - change (splitLast (x :: x' :: l1'))
      with ('(front, z) ← splitLast (x' :: l1'); Some (x :: front, z)).
    change (splitLast (y :: y' :: l2'))
      with ('(front, z) ← splitLast (y' :: l2'); Some (y :: front, z)).
    destruct (splitLast (x' :: l1')) as [[t1 p1]|], (splitLast (y' :: l2')) as [[t2 p2]|];
      simpl; try contradiction; [|exact I].
    destruct IH as [Ht Hp]. split; [simpl; congruence | exact Hp].
Qed.

Section Forward.
Variable Mexp : R → R.
Variable Mtanh : R → R.
Variable Mrandom : nat → R.

Lemma forwardTrunk_ext (n1 n2 : NeuralNetwork) :
  (∀ size rs, generateDropoutMask Mrandom n1 size rs
              = generateDropoutMask Mrandom n2 size rs) →
  ∀ t1 t2 act rs,
    map parameters t1 = map parameters t2 →
    trunkOutput (forwardTrunk Mrandom n1 t1 act rs)
    = trunkOutput (forwardTrunk Mrandom n2 t2 act rs).
Proof.
  intros Hmask t1. induction t1 as [|l1 t1 IH]; intros [|l2 t2] act rs Hmap;
    try discriminate Hmap; [reflexivity|].
  simpl in Hmap. injection Hmap as Hw Hb Hrest. simpl. rewrite Hw, Hb.
  destruct (affine act (weights l2) (biases l2)) as [sums|]; simpl; [|reflexivity].
  rewrite Hmask.
  destruct (generateDropoutMask Mrandom n2 _ rs) as [dm rs1].
  specialize (IH t2 (zip_with Rmult (map relu sums) dm) rs1 Hrest).
  destruct (forwardTrunk Mrandom n1 t1 _ rs1) as [[[[t1' o1] m1] r1]|],
           (forwardTrunk Mrandom n2 t2 _ rs1) as [[[[t2' o2] m2] r2]|];
    simpl in *; try discriminate IH; [|reflexivity].
  injection IH as -> -> ->. reflexivity.
Qed.

(** [forward] leaves the parameters as they are. *)
Lemma forwardTrunk_parameters (net : NeuralNetwork) (trunk : list Layer) :
  ∀ act rs r, forwardTrunk Mrandom net trunk act rs = Some r →
              map parameters r.1.1.1 = map parameters trunk.
Proof.
  induction trunk as [|l trunk IH]; intros act rs r; simpl.
  - intros [= <-]. reflexivity.
  - destruct (affine act (weights l) (biases l)) as [sums|]; simpl; [|discriminate].
    destruct (generateDropoutMask Mrandom net _ rs) as [dm rs1].
    destruct (forwardTrunk Mrandom net trunk _ rs1) as [[[[t' o] m] r1]|] eqn:Hrest;
      simpl; [|discriminate].
    intros [= <-]. simpl. f_equal. exact (IH _ _ _ Hrest).
Qed.

(** Two networks with the same parameters in the same mode give the same
    outputs. *)
Lemma forward_ext (n1 n2 : NeuralNetwork) (rs : nat) (input : list R)
    (mask : option (list Z)) :
  map parameters (layers n1) = map parameters (layers n2) →
  parameters (valueHead n1) = parameters (valueHead n2) →
  (∀ size rs, generateDropoutMask Mrandom n1 size rs
              = generateDropoutMask Mrandom n2 size rs) →
  forwardOutput (forward Mexp Mtanh Mrandom n1 rs input mask)
  = forwardOutput (forward Mexp Mtanh Mrandom n2 rs input mask).
Proof.
  intros Hlayers Hvalue Hmask. unfold forward, forwardLogits.
  pose proof (splitLast_parameters _ _ Hlayers) as Hsplit.
  destruct (splitLast (layers n1)) as [[t1 p1]|], (splitLast (layers n2)) as [[t2 p2]|];
    simpl; try contradiction; [|reflexivity].
  destruct Hsplit as [Ht Hp]. injection Hp as Hpw Hpb. injection Hvalue as Hvw Hvb.
  pose proof (forwardTrunk_ext n1 n2 Hmask t1 t2 input rs Ht) as Htrunk.
  destruct (forwardTrunk Mrandom n1 t1 input rs) as [[[[t1' a1] m1] r1]|],
           (forwardTrunk Mrandom n2 t2 input rs) as [[[[t2' a2] m2] r2]|];
    simpl in *; try discriminate Htrunk; [|reflexivity].
  injection Htrunk as -> -> ->. rewrite Hpw, Hpb, Hvw, Hvb.
  destruct (affine a2 (weights p2) (biases p2)) as [logits|]; simpl; [|reflexivity].
  destruct (biases (valueHead n2) !! 0%nat) as [b0|]; simpl; [|reflexivity].
  destruct (dotColumn a2 (weights (valueHead n2)) 0 b0) as [valueSum|]; simpl;
    reflexivity.
Qed.

Lemma generateDropoutMask_inference (net : NeuralNetwork) (size rs : nat) :
  isTraining net = false →
  generateDropoutMask Mrandom net size rs = (repeat 1 size, rs).
Proof. intros H. unfold generateDropoutMask. now rewrite H. Qed.

Lemma forward_parameters (net net' : NeuralNetwork) (rs rs' : nat) (input : list R)
    (mask : option (list Z)) (out : list R * R) :
  forward Mexp Mtanh Mrandom net rs input mask = Some (net', rs', out) →
  map parameters (layers net') = map parameters (layers net)
  ∧ parameters (valueHead net') = parameters (valueHead net)
  ∧ sameSettings net net'.
Proof.
  unfold forward, forwardLogits.
  destruct (splitLast (layers net)) as [[trunk pl]|] eqn:Hsplit; simpl; [|discriminate].
  apply splitLast_app in Hsplit.
  destruct (forwardTrunk Mrandom net trunk input rs) as [[[[t' a] m] r1]|] eqn:Htrunk;
    simpl; [|discriminate].
  apply forwardTrunk_parameters in Htrunk. simpl in Htrunk.
  destruct (affine a (weights pl) (biases pl)) as [logits|]; simpl; [|discriminate].
  destruct (biases (valueHead net) !! 0%nat) as [b0|]; simpl; [|discriminate].
  destruct (dotColumn a (weights (valueHead net)) 0 b0) as [valueSum|]; simpl;
    [|discriminate].
  intros [= <- <- <-]. simpl. split_and!.
  - rewrite Hsplit, !map_app, Htrunk. reflexivity.
  - reflexivity.
  - repeat split.
Qed.

End Forward.
(** ** Shapes *)

Definition layerShapes (net : NeuralNetwork) : list (nat * option nat) :=
  map (fun l => shapeOf (weights l)) (layers net).

(** The shapes of the layers built from a list of sizes. *)
Fixpoint pairShapes (sizes : list Z) : list (nat * option nat) :=
  match sizes with
  | a :: (b :: _) as rest => (Z.to_nat a, Some (Z.to_nat b)) :: pairShapes rest
  | _ => []
  end.

Lemma last_cons_default (a d d' : Z) (l : list Z) :
  List.last (a :: l) d = List.last (a :: l) d'.
Proof.
  revert a. induction l as [|b l IH]; intros a; [reflexivity|].
  change (List.last (a :: b :: l) d) with (List.last (b :: l) d).
  change (List.last (a :: b :: l) d') with (List.last (b :: l) d').
  apply IH.
Qed.

Lemma pairShapes_snoc (a : Z) (sizes : list Z) (out : Z) :
  pairShapes ((a :: sizes) ++ [out])
  = (pairShapes (a :: sizes)
     ++ [(Z.to_nat (List.last (a :: sizes) a), Some (Z.to_nat out))])%list.
Proof.
  revert a. induction sizes as [|b sizes IH]; intros a; [reflexivity|].
  change (pairShapes ((a :: b :: sizes) ++ [out]))
    with ((Z.to_nat a, Some (Z.to_nat b)) :: pairShapes ((b :: sizes) ++ [out])).
  change (pairShapes (a :: b :: sizes))
    with ((Z.to_nat a, Some (Z.to_nat b)) :: pairShapes (b :: sizes)).
  change (List.last (a :: b :: sizes) a) with (List.last (b :: sizes) a).
  rewrite IH, (last_cons_default b a b). reflexivity.
Qed.

Section Shapes.
Variable Mrandom : nat → R.

#[local] Arguments newTrunk : simpl never.

Lemma newLayer_shape (a b : Z) (rs rs' : nat) (l : Layer) :
  newLayer Mrandom a b rs = Ok (l, rs') → (0 < a)%Z →
  shapeOf (weights l) = (Z.to_nat a, Some (Z.to_nat b)) ∧ weights l ≠ [].
Proof.
  unfold newLayer. intros H Ha.
  destruct (arrayLength a) as [n|] eqn:En; simpl in H; [|discriminate].
  destruct (arrayLength b) as [m|] eqn:Em; simpl in H; [|discriminate].
  apply arrayLength_Ok in En as [_ ->]. apply arrayLength_Ok in Em as [_ ->].
  injection H as <- _. simpl.
  destruct (Z.to_nat a) as [|n] eqn:Hn; [lia|].
  unfold shapeOf. simpl. rewrite !length_map, !length_seq. split; [reflexivity | done].
Qed.

Lemma newTrunk_shapes (sizes : list Z) :
  ∀ rs rs' ls, newTrunk Mrandom sizes rs = Ok (ls, rs') →
    Forall (fun n => (0 < n)%Z) sizes →
    map (fun l => shapeOf (weights l)) ls = pairShapes sizes
    ∧ Forall (fun l => weights l ≠ []) ls.
Proof.
  induction sizes as [|a sizes IH]; intros rs rs' ls.
  - intros [= <- _] _. split; [reflexivity | constructor].
  - destruct sizes as [|b rest].
    + intros [= <- _] _. split; [reflexivity | constructor].
    + rewrite newTrunk_cons. intros H Hpos.
      apply Forall_cons in Hpos as [Ha Hpos].
      destruct (newLayer Mrandom a b rs) as [[l rs1]|] eqn:El; simpl in H; [|discriminate].
      destruct (newTrunk Mrandom (b :: rest) rs1) as [[ls' rs2]|] eqn:Et; simpl in H;
        [|discriminate].
      injection H as <- _.
      destruct (newLayer_shape a b rs rs1 l El Ha) as [Hs Hne].
      destruct (IH rs1 rs2 ls' Et Hpos) as [Hss Hnes].
      split.
      * change (pairShapes (a :: b :: rest))
          with ((Z.to_nat a, Some (Z.to_nat b)) :: pairShapes (b :: rest)).
        simpl. now rewrite Hs, Hss.
      * constructor; assumption.
Qed.

(** The shapes of a constructed network are those of its configuration,
    and no layer is without rows when every size is positive. *)
Lemma constructor_shapes (c : NetworkConfig) (rs rs' : nat) (net : NeuralNetwork) :
  constructor Mrandom c rs = Ok (net, rs') →
  Forall (fun n => (0 < n)%Z) (allSizes c) →
  layerShapes net = pairShapes (allSizes c)
  ∧ Forall (fun l => weights l ≠ []) (layers net)
  ∧ isTraining net = false.
Proof.
  unfold constructor. intros H Hpos.
  pose proof (pairShapes_snoc (inputSize c) (hiddenLayers c) (outputSize c)) as Hsnoc.
  change ((inputSize c :: hiddenLayers c) ++ [outputSize c])%list
    with (allSizes c) in Hsnoc.
  unfold allSizes in Hpos.
  rewrite app_comm_cons in Hpos. apply Forall_app in Hpos as [Hhidden Hout].
  set (hiddenSizes := inputSize c :: hiddenLayers c) in *.
  destruct (newTrunk Mrandom hiddenSizes rs) as [[trunk rs1]|] eqn:Et; simpl in H;
    [|discriminate].
  destruct (newLayer Mrandom _ (outputSize c) rs1) as [[pl rs2]|] eqn:Ep; simpl in H;
    [|discriminate].
  destruct (newLayer Mrandom _ 1 rs2) as [[vl rs3]|] eqn:Ev; simpl in H; [|discriminate].
  injection H as <- _. unfold layerShapes. cbn [layers isTraining].
  destruct (newTrunk_shapes hiddenSizes rs rs1 trunk Et Hhidden) as [Hss Hnes].
  assert (Hlast : (0 < List.last hiddenSizes (inputSize c))%Z).
  { rewrite Forall_forall in Hhidden. apply Hhidden. apply last_cons_elem. }
  destruct (newLayer_shape _ _ _ _ _ Ep Hlast) as [Hs Hne].
  split_and!.
  - rewrite Hsnoc, map_app, Hss. cbn [map]. now rewrite Hs.
  - apply Forall_app. split; [exact Hnes | constructor; [exact Hne | constructor]].
  - reflexivity.
Qed.

End Shapes.

Lemma steppedMatrix_shape (net : NeuralNetwork) (W W' : list (list R)) :
  steppedMatrix net W W' → shapeOf W' = shapeOf W.
Proof.
  intros [Hlen Hrows]. unfold shapeOf. rewrite Hlen. f_equal.
  destruct (W !! 0%nat) as [row|] eqn:Hrow, (W' !! 0%nat) as [row'|] eqn:Hrow'; simpl.
  - f_equal. now apply (Hrows 0%nat row row').
  - apply lookup_lt_Some in Hrow. apply lookup_ge_None in Hrow'. lia.
  - apply lookup_lt_Some in Hrow'. apply lookup_ge_None in Hrow. lia.
  - reflexivity.
Qed.

Lemma backward_shapes (net net' : NeuralNetwork) (pd vd : list R) :
  backward net pd vd = Some net' →
  layerShapes net' = layerShapes net ∧ isTraining net' = isTraining net.
Proof.
  intros (Hlayers & _ & Hsame)%backward_stepped. split.
  - unfold layerShapes. clear Hsame.
    induction Hlayers as [|l l' ls ls' Hl _ IH]; [reflexivity|].
    simpl. rewrite IH. f_equal. eapply steppedMatrix_shape. exact Hl.
  - apply Hsame.
Qed.

Lemma parameters_shapes (ls ls' : list Layer) :
  map parameters ls' = map parameters ls →
  map (fun l => shapeOf (weights l)) ls' = map (fun l => shapeOf (weights l)) ls.
Proof.
  revert ls. induction ls' as [|l' ls' IH]; intros [|l ls] H; try discriminate H;
    [reflexivity|].
  simpl in H. injection H as Hw _ Hrest. simpl. rewrite Hw. f_equal. now apply IH.
Qed.

(** ** Training keeps the shapes *)

Section Training.
Variable Mexp : R → R.
Variable Mtanh : R → R.
Variable Mlog : R → R.
Variable Mrandom : nat → R.

Lemma trainExample_shapes (net net' : NeuralNetwork) (rs rs' : nat)
    (example : TrainingExample) (loss : R) :
  trainExample Mexp Mtanh Mlog Mrandom net rs example = Some (net', rs', loss) →
  layerShapes net' = layerShapes net ∧ isTraining net' = isTraining net.
Proof.
  unfold trainExample.
  destruct (forward Mexp Mtanh Mrandom net rs _ _) as [[[net1 rs1] [policy value]]|] eqn:Hf;
    simpl; [|discriminate].
  destruct (mapM _ _) as [policyGrad|]; destruct (mapM _ _) as [terms|]; simpl;
    try discriminate.
  destruct (backward net1 policyGrad _) as [net2|] eqn:Hb; simpl; [|discriminate].
  intros [= <- _ _].
  apply forward_parameters in Hf as (Hparams & _ & Hsame).
  apply backward_shapes in Hb as [Hshapes Htraining].
  split.
  - rewrite Hshapes. unfold layerShapes. now apply parameters_shapes.
  - rewrite Htraining. apply Hsame.
Qed.

Lemma train_shapes (net net' : NeuralNetwork) (rs rs' : nat)
    (examples : list TrainingExample) (loss : R) :
  train Mexp Mtanh Mlog Mrandom net rs examples = Some (net', rs', loss) →
  layerShapes net' = layerShapes net ∧ isTraining net' = false.
Proof.
  unfold train.
  set (step := fun (acc : option (NeuralNetwork * nat * R * R)) example =>
         '(net, rs, totalLoss, totalWeight) ← acc;
         '(net', rs', sampleLoss) ← trainExample Mexp Mtanh Mlog Mrandom net rs example;
         Some (net', rs', totalLoss + sampleLoss * exWeight example,
               totalWeight + exWeight example)).
  assert (Hloop : ∀ exs n0 r0 l0 w0 n1 r1 l1 w1,
            fold_left step exs (Some (n0, r0, l0, w0)) = Some (n1, r1, l1, w1) →
            layerShapes n1 = layerShapes n0).
  { induction exs as [|ex exs IH]; intros n0 r0 l0 w0 n1 r1 l1 w1; simpl.
    - now intros [= <- _ _ _].
    - destruct (trainExample Mexp Mtanh Mlog Mrandom n0 r0 ex) as [[[n' r'] sl]|] eqn:Hex;
        simpl.
      + intros Hrest. apply IH in Hrest. rewrite Hrest.
        now apply trainExample_shapes in Hex.
      + rewrite (fold_left_None step); [discriminate|reflexivity]. }
  destruct (fold_left step examples _) as [[[[n1 r1] l1] w1]|] eqn:Hfold; simpl;
    [|discriminate].
  intros [= <- _ _]. split; [|reflexivity].
  apply Hloop in Hfold. exact Hfold.
Qed.

(** The networks that [train] can make of [net0]. *)
Inductive trainedFrom (net0 : NeuralNetwork) : NeuralNetwork → Prop :=
| trained_none : trainedFrom net0 net0
| trained_more (net net' : NeuralNetwork) (rs rs' : nat)
    (examples : list TrainingExample) (loss : R) :
    trainedFrom net0 net →
    train Mexp Mtanh Mlog Mrandom net rs examples = Some (net', rs', loss) →
    trainedFrom net0 net'.

Lemma trainedFrom_shapes (net0 net : NeuralNetwork) :
  trainedFrom net0 net →
  layerShapes net = layerShapes net0
  ∧ (isTraining net0 = false → isTraining net = false).
Proof.
  induction 1 as [|net net' rs rs' examples loss _ [IHs IHt] Htrain]; [auto|].
  apply train_shapes in Htrain as [Hs Ht]. split; [congruence | auto].
Qed.

End Training.

(** ** Loading what [getSnapshot] returned *)

Lemma loadLayers_own (lsM lsN : list Layer) :
  Forall2 (fun lM lN => accepts lM (weights lN)) lsM lsN →
  ∀ pre snapshot,
    snapWeights snapshot = map weights (pre ++ lsN) →
    snapBiases snapshot = map biases (pre ++ lsN) →
    (loadLayers (List.length pre) lsM snapshot).2 = None
    ∧ map parameters (loadLayers (List.length pre) lsM snapshot).1 = map parameters lsN.
Proof.
  induction 1 as [|lM lN lsM lsN Hacc _ IH]; intros pre snapshot Hw Hb;
    [split; reflexivity|].
  assert (Hlw : snapWeights snapshot !! List.length pre = Some (weights lN)).
  { rewrite Hw, list_lookup_fmap, lookup_app_r by lia.
    now replace (List.length pre - List.length pre)%nat with 0%nat by lia. }
  assert (Hlb : snapBiases snapshot !! List.length pre = Some (biases lN)).
  { rewrite Hb, list_lookup_fmap, lookup_app_r by lia.
    now replace (List.length pre - List.length pre)%nat with 0%nat by lia. }
  rewrite (loadLayers_cons _ lM lsM snapshot _ _ Hlw Hlb Hacc). simpl.
  specialize (IH (pre ++ [lN])%list snapshot).
  rewrite length_app in IH. simpl in IH.
  replace (List.length pre + 1)%nat with (S (List.length pre)) in IH by lia.
  rewrite <- app_assoc in IH. simpl in IH.
  destruct (IH Hw Hb) as [Herr Hparams]. split; [exact Herr|].
  unfold parameters at 1. simpl. f_equal. exact Hparams.
Qed.

Lemma shapes_accept (lsM lsN : list Layer) :
  map (fun l => shapeOf (weights l)) lsN = map (fun l => shapeOf (weights l)) lsM →
  Forall (fun l => weights l ≠ []) lsM →
  Forall2 (fun lM lN => accepts lM (weights lN)) lsM lsN.
Proof.
  revert lsN. induction lsM as [|lM lsM IH]; intros [|lN lsN] Hs Hne;
    try discriminate Hs; [constructor|].
  cbn [map] in Hs. injection Hs as Hin Hout Hrest. apply Forall_cons in Hne as [Hne0 Hne].
  constructor; [|now apply IH].
  split; [exact Hne0|]. unfold shapeOf. now rewrite Hin, Hout.
Qed.

(** A network that takes the snapshot of another one with the same shapes
    answers like it when neither is in training mode. *)
Lemma loadSnapshot_same_shapes (M N : NeuralNetwork) :
  layerShapes N = layerShapes M →
  Forall (fun l => weights l ≠ []) (layers M) →
  isTraining M = false →
  isTraining N = false →
  (loadSnapshot M (getSnapshot N).2).2 = None
  ∧ ∀ (Mexp Mtanh : R → R) (Mrandom : nat → R) rs input mask,
      forwardOutput (forward Mexp Mtanh Mrandom (loadSnapshot M (getSnapshot N).2).1
                       rs input mask)
      = forwardOutput (forward Mexp Mtanh Mrandom (getSnapshot N).1 rs input mask).
Proof.
  intros Hshapes Hrows HM HN.
  pose proof (shapes_accept (layers M) (layers N) Hshapes Hrows) as Hacc.
  destruct (loadLayers_own (layers M) (layers N) Hacc [] (getSnapshot N).2 eq_refl eq_refl)
    as [Herr Hparams].
  change (List.length (@nil Layer)) with 0%nat in Herr, Hparams.
  unfold loadSnapshot.
  destruct (loadLayers 0 (layers M) (getSnapshot N).2) as [ls' err].
  cbn [fst snd] in Herr, Hparams. subst err. cbn [fst snd]. split; [reflexivity|].
  intros Mexp Mtanh Mrandom rs input mask. apply forward_ext.
  - exact Hparams.
  - reflexivity.
  - intros size rs0. rewrite !generateDropoutMask_inference; auto.
Qed.

(** ** The claim about the snapshot round trip *)

(** C4. Let [N] be a network that was constructed from a configuration
    with positive sizes and then trained, and [M] a network freshly
    constructed from the same configuration.  [M] loads the snapshot of [N]
    without an error, and from then on [forward] returns on [M] the policy
    and the value that it returns on [N], for every input and mask. *)
Theorem snapshot_round_trip (Mexp Mtanh Mlog : R → R) (Mrandom : nat → R)
    (c : NetworkConfig) (rsN rsN' rsM rsM' : nat) (N0 N M : NeuralNetwork) :
  Forall (fun n => (0 < n)%Z) (allSizes c) →
  constructor Mrandom c rsN = Ok (N0, rsN') →
  trainedFrom Mexp Mtanh Mlog Mrandom N0 N →
  constructor Mrandom c rsM = Ok (M, rsM') →
  (loadSnapshot M (getSnapshot N).2).2 = None
  ∧ ∀ rs input mask,
      forwardOutput (forward Mexp Mtanh Mrandom (loadSnapshot M (getSnapshot N).2).1
                       rs input mask)
      = forwardOutput (forward Mexp Mtanh Mrandom (getSnapshot N).1 rs input mask).
Proof.
  intros Hpos HN0 Htrained HM.
  destruct (constructor_shapes Mrandom c rsN rsN' N0 HN0 Hpos) as (HsN0 & _ & HtN0).
  destruct (constructor_shapes Mrandom c rsM rsM' M HM Hpos) as (HsM & Hrows & HtM).
  destruct (trainedFrom_shapes Mexp Mtanh Mlog Mrandom N0 N Htrained) as [HsN HtN].
  destruct (loadSnapshot_same_shapes M N) as [Herr Hout]; auto.
  congruence.
Qed.

Definition directConfig : NetworkConfig :=
  mkNetworkConfig 1 [] 1 0.01 None None None None.

Definition oneExample : TrainingExample := mkTrainingExample [1] [1] [1%Z] 1 0.

Lemma snapshot_round_trip_witness :
  ∃ N0 rsN' N M rsM',
    constructor noRandom directConfig 0 = Ok (N0, rsN')
    ∧ trainedFrom exp tanh ln noRandom N0 N
    ∧ constructor noRandom directConfig 7 = Ok (M, rsM')
    ∧ (loadSnapshot M (getSnapshot N).2).2 = None
    ∧ ∀ rs input mask,
        forwardOutput (forward exp tanh noRandom (loadSnapshot M (getSnapshot N).2).1
                         rs input mask)
        = forwardOutput (forward exp tanh noRandom (getSnapshot N).1 rs input mask).
Proof.
  eexists _, _, _, _, _.
  split; [reflexivity|].
  split; [eapply (trained_more exp tanh ln noRandom _ _ _ 0%nat _ [oneExample]);
          [apply trained_none | reflexivity]|].
  split; [reflexivity|].
  eapply (snapshot_round_trip exp tanh ln noRandom directConfig 0 _ 7).
  - unfold allSizes. simpl. repeat (constructor; [lia|]). constructor.
  - reflexivity.
  - eapply (trained_more exp tanh ln noRandom _ _ _ 0%nat _ [oneExample]);
      [apply trained_none | reflexivity].
  - reflexivity.
Defined.

End SnapshotProofs.

(** * Further properties of the game logic and the teacher *)

Module TeacherExtras.
Import GameLogic Teacher Loops TeacherProofs.

#[local] Arguments negamax : simpl never.
#[local] Arguments walk : simpl never.

(** ** Winners *)





(** X2. A move on an open nine-cell board can only make the mover win: if
    the board has a winner after the move, it is the mark just placed. *)
Theorem move_wins_for_mover (b : string) (i : nat) (t : PlayerSymbol) (c : ascii) :
  String.length b = 9%nat →
  computeWinner b = None →
  (i < 9)%nat →
  computeWinner (applyMove b i t) = Some c →
  c = symbolChar t.
Proof. apply winner_after_move. Qed.

Lemma move_wins_for_mover_witness :
  String.length "XX_OO____" = 9%nat
  ∧ computeWinner "XX_OO____" = None
  ∧ (2 < 9)%nat
  ∧ computeWinner (applyMove "XX_OO____" 2 X) = Some "X"%char
  ∧ "X"%char = symbolChar X.
Proof.
  split_and!; [reflexivity | reflexivity | lia | reflexivity |].
  apply (move_wins_for_mover "XX_OO____" 2 X "X"%char); [reflexivity | reflexivity | lia | reflexivity].
Defined.

(** ** Moves *)

(** X3. [applyMove] inside the board keeps the length, writes the mark at
    the given cell and leaves every other cell as it was, whatever the cell
    held.  At or past the end of the board it appends the mark: the board
    grows by one cell. *)
Theorem applyMove_effect (b : string) (i : nat) (p : PlayerSymbol) :
  ((i < String.length b)%nat →
   String.length (applyMove b i p) = String.length b
   ∧ ∀ j, charAt (applyMove b i p) j
          = if decide (j = i) then Some (symbolChar p) else charAt b j)
  ∧ ((String.length b ≤ i)%nat →
     applyMove b i p = b ++ String (symbolChar p) EmptyString).
Proof.
  split; intros Hi.
  - split; [now apply length_applyMove|].
    intros j. now apply charAt_applyMove.
  - apply string_chars_inj. rewrite chars_applyMove, chars_append.
    rewrite take_ge by (rewrite chars_length; lia).
    rewrite drop_ge by (rewrite chars_length; lia). reflexivity.
Qed.

(** ** The search *)

(** X4. The recursion of [negamax] ends on every string, whatever the
    table holds, and so do the calls of [minimaxPolicy]: a move fills one of
    the first nine cells, so the search is at most nine moves deep. *)
Theorem search_returns (st : Caches) (cache : gmap string jsnum) (b : string)
    (p : PlayerSymbol) (d : Z) :
  is_Some (negamax searchFuel cache b p d) ∧ is_Some (minimaxPolicy st b p).
Proof.
  split; [|apply minimaxPolicy_total].
  apply negamax_fuel. pose proof (emptiesIn_le b). unfold searchFuel. lia.
Qed.


(** X5. The scores in the table carry the depth of the search that stored
    them, but never a wrong sign: whatever queries were made before and at
    whatever depths the two calls are made, two calls of [negamax] on one
    position return scores of the same sign. *)
Theorem negamax_sign_stable (st1 st2 : Caches) (b : string) (p : PlayerSymbol)
    (d1 d2 : Z) (r1 r2 : jsnum) (c1 c2 : gmap string jsnum) :
  laterCaches freshCaches st1 →
  laterCaches freshCaches st2 →
  d1 + Z.of_nat (emptiesIn b) ≤ 9 →
  d2 + Z.of_nat (emptiesIn b) ≤ 9 →
  negamax searchFuel (negamaxCache st1) b p d1 = Some (r1, c1) →
  negamax searchFuel (negamaxCache st2) b p d2 = Some (r2, c2) →
  sgn r1 = sgn r2.
Proof.
  intros [H1 _]%laterCaches_tables [H2 _]%laterCaches_tables Hd1 Hd2 Hrun1 Hrun2.
  destruct (negamax_sign _ _ _ _ _ _ _ Hd1 H1 Hrun1) as [-> _].
  destruct (negamax_sign _ _ _ _ _ _ _ Hd2 H2 Hrun2) as [-> _].
  reflexivity.
Qed.

Lemma negamax_sign_stable_witness :
  ∃ r1 r2 c1 c2,
    negamax searchFuel (negamaxCache freshCaches) "XX_OO____" X 1 = Some (r1, c1)
    ∧ negamax searchFuel (negamaxCache freshCaches) "XX_OO____" X 3 = Some (r2, c2)
    ∧ sgn r1 = sgn r2.
Proof.
  destruct (negamax_fuel searchFuel ∅ "XX_OO____" X 1) as [[r1 c1] H1];
    [vm_compute; lia|].
  destruct (negamax_fuel searchFuel ∅ "XX_OO____" X 3) as [[r2 c2] H2];
    [vm_compute; lia|].
  exists r1, r2, c1, c2. split; [exact H1|]. split; [exact H2|].
  apply (negamax_sign_stable freshCaches freshCaches "XX_OO____" X 1 3 r1 r2 c1 c2);
    [apply later_here | apply later_here | vm_compute; discriminate
    | vm_compute; discriminate | exact H1 | exact H2].
Defined.

(** ** The answers of [minimaxPolicy]

    A property of the answer that holds whenever the answer is computed
    holds for every answer, since a stored answer was computed by an earlier
    call for the same board and turn. *)

Definition entriesOk (P : string → PlayerSymbol → list Q → Q → Prop) (st : Caches) : Prop :=
  ∀ b t pol v, policyCache st !! cacheKey b t = Some (pol, v) → P b t pol v.

(** What [minimaxPolicy] computes when the table has no entry. *)
Definition computedAnswer (cache : gmap string jsnum) (b : string) (t : PlayerSymbol)
    (pol : list Q) (v : Q) : Prop :=
  (isTerminal b = true ∧ pol = repeat 0%Q 9 ∧ v = 0%Q)
  ∨ (isTerminal b = false
     ∧ ∃ best scores cache',
         scoreMoves cache b t (boardMask b) = Some (best, scores, cache')
         ∧ pol = policyOf (bestMovesOf scores (boardMask b) best)
         ∧ v = boundedValueOf best).

Lemma minimaxPolicy_answer (P : string → PlayerSymbol → list Q → Q → Prop)
    (st st' : Caches) (b : string) (t : PlayerSymbol) (r : PolicyResult) :
  (∀ cache b t pol v, computedAnswer cache b t pol v → P b t pol v) →
  entriesOk P st →
  minimaxPolicy st b t = Some (r, st') →
  mask r = boardMask b ∧ P b t (policy r) (value r) ∧ entriesOk P st'.
Proof.
  intros Hnew Hst. unfold minimaxPolicy.
  destruct (policyCache st !! cacheKey b t) as [[pol v]|] eqn:Hhit.
  { intros [= <- <-]. split; [reflexivity|]. split; [exact (Hst b t pol v Hhit) | exact Hst]. }
  assert (Hins : ∀ cache pol v, P b t pol v →
            entriesOk P (mkCaches cache (<[cacheKey b t := (pol, v)]> (policyCache st)))).
  { intros cache pol v HP b' t' pol' v'. cbn [policyCache].
    destruct (decide (cacheKey b t = cacheKey b' t')) as [Heq|Hne].
    - rewrite Heq, lookup_insert_eq. intros [= <- <-].
      apply cacheKey_inj in Heq as [<- <-]. exact HP.
    - rewrite lookup_insert_ne by exact Hne. apply Hst. }
  destruct (isTerminal b) eqn:Hterm.
  { intros [= <- <-]. cbn [mask policy value].
    assert (HP : P b t (repeat 0%Q 9) 0%Q)
      by (apply (Hnew (negamaxCache st)); left; auto).
    split; [reflexivity|]. split; [exact HP | now apply Hins]. }
  destruct (scoreMoves (negamaxCache st) b t (boardMask b))
    as [[[best scores] cache']|] eqn:Hrun; [|discriminate].
  cbn [mbind option_bind]. intros [= <- <-]. cbn [mask policy value].
  assert (HP : P b t (policyOf (bestMovesOf scores (boardMask b) best))
                 (boundedValueOf best)).
  { apply (Hnew (negamaxCache st)). right. split; [exact Hterm|]. eauto 6. }
  split; [reflexivity|]. split; [exact HP | now apply Hins].
Qed.

Lemma laterCaches_entries (P : string → PlayerSymbol → list Q → Q → Prop) (st : Caches) :
  (∀ cache b t pol v, computedAnswer cache b t pol v → P b t pol v) →
  laterCaches freshCaches st → entriesOk P st.
Proof.
  intros Hnew. induction 1 as [|st1 st2 b t r _ IH Hcall].
  - intros b t pol v H. simpl in H. now rewrite lookup_empty in H.
  - now destruct (minimaxPolicy_answer P st1 st2 b t r Hnew IH Hcall) as (_ & _ & ?).
Qed.

(** Every answer, computed or stored, satisfies what the computed answers
    satisfy. *)
Lemma every_answer (P : string → PlayerSymbol → list Q → Q → Prop) (st : Caches)
    (b : string) (t : PlayerSymbol) :
  (∀ cache b t pol v, computedAnswer cache b t pol v → P b t pol v) →
  laterCaches freshCaches st →
  ∃ r st', minimaxPolicy st b t = Some (r, st')
           ∧ mask r = boardMask b ∧ P b t (policy r) (value r).
Proof.
  intros Hnew Hlater. destruct (minimaxPolicy_total st b t) as [[r st'] Hrun].
  exists r, st'. split; [exact Hrun|].
  destruct (minimaxPolicy_answer P st st' b t r Hnew
              (laterCaches_entries P st Hnew Hlater) Hrun) as (Hm & HP & _).
  split; assumption.
Qed.

(** X6. On an open nine-cell board, after any sequence of earlier queries,
    [minimaxPolicy] returns the mask of the board and a policy of nine
    entries that is 0 on the filled cells and sums to 1 over the empty
    ones. *)
Theorem minimaxPolicy_distribution (st : Caches) (b : string) (t : PlayerSymbol) :
  laterCaches freshCaches st →
  String.length b = 9%nat →
  isTerminal b = false →
  ∃ r st', minimaxPolicy st b t = Some (r, st')
           ∧ mask r = boardMask b
           ∧ List.length (policy r) = 9%nat
           ∧ (legalMass (policy r) (mask r) == 1)%Q
           ∧ ∀ i, mask r !! i = Some 0 → ∃ p, policy r !! i = Some p ∧ (p == 0)%Q.
Proof.
  intros Hlater Hlen Hterm.
  destruct (minimaxPolicy_total st b t) as [[r st'] Hrun]. exists r, st'.
  destruct (minimaxPolicy_ok st st' b t r (laterCaches_ok st Hlater) (conj Hlen Hterm) Hrun)
    as (Hm & Hl & [Hmass Hzero] & _).
  rewrite Hm. auto.
Qed.

Lemma minimaxPolicy_distribution_witness :
  ∃ r st', minimaxPolicy freshCaches "XX_OO____" X = Some (r, st')
           ∧ mask r = boardMask "XX_OO____"
           ∧ List.length (policy r) = 9%nat
           ∧ (legalMass (policy r) (mask r) == 1)%Q
           ∧ ∀ i, mask r !! i = Some 0 → ∃ p, policy r !! i = Some p ∧ (p == 0)%Q.
Proof.
  apply (minimaxPolicy_distribution freshCaches "XX_OO____" X);
    [apply later_here | reflexivity | reflexivity].
Defined.

(** The entries of a policy built by [policyOf] are 0 or one common share. *)
Lemma policyOf_entries (bm : list nat) (i : nat) (p : Q) :
  policyOf bm !! i = Some p → p = 0%Q ∨ p = shareOf bm.
Proof.
  intros Hp. assert (Hi : (i < 9)%nat).
  { apply lookup_lt_Some in Hp. now rewrite policyOf_length in Hp. }
  rewrite (policyOf_lookup bm i Hi) in Hp. injection Hp as <-.
  destruct (decide (i ∈ bm)); auto.
Qed.

(** X7. The probability is shared evenly: after any sequence of earlier
    queries and on every board, all the non-zero entries of the policy that
    [minimaxPolicy] returns are equal, and the policy has nine entries. *)
Theorem minimaxPolicy_even_shares (st : Caches) (b : string) (t : PlayerSymbol) :
  laterCaches freshCaches st →
  ∃ r st', minimaxPolicy st b t = Some (r, st')
           ∧ List.length (policy r) = 9%nat
           ∧ ∀ i j p q, policy r !! i = Some p → policy r !! j = Some q →
               p ≠ 0%Q → q ≠ 0%Q → p = q.
Proof.
  intros Hlater.
  destruct (every_answer (fun _ _ pol _ => ∃ bm, pol = policyOf bm) st b t)
    as (r & st' & Hrun & _ & bm & Hpol); [|exact Hlater|].
  { intros cache b' t' pol v [(_ & -> & _)|(_ & best & scores & cache' & _ & -> & _)].
    - now exists [].
    - eauto. }
  exists r, st'. split; [exact Hrun|]. rewrite Hpol.
  split; [apply policyOf_length|].
  intros i j p q Hp Hq Hp0 Hq0.
  destruct (policyOf_entries bm i p Hp) as [->| ->]; [contradiction|].
  destruct (policyOf_entries bm j q Hq) as [->| ->]; [contradiction | reflexivity].
Qed.

Lemma minimaxPolicy_even_shares_witness :
  ∃ r st', minimaxPolicy freshCaches emptyBoard X = Some (r, st')
           ∧ List.length (policy r) = 9%nat
           ∧ ∀ i j p q, policy r !! i = Some p → policy r !! j = Some q →
               p ≠ 0%Q → q ≠ 0%Q → p = q.
Proof. apply (minimaxPolicy_even_shares freshCaches emptyBoard X). apply later_here. Defined.

(** X8. On a board that is won or full, after any sequence of earlier
    queries, [minimaxPolicy] returns the policy of nine zeros, the mask of
    the board and the value 0. *)
Theorem minimaxPolicy_terminal (st : Caches) (b : string) (t : PlayerSymbol) :
  laterCaches freshCaches st →
  isTerminal b = true →
  ∃ st', minimaxPolicy st b t
         = Some ({| policy := repeat 0%Q 9; mask := boardMask b; value := 0%Q |}, st').
Proof.
  intros Hlater Hterm.
  destruct (every_answer
              (fun b _ pol v => isTerminal b = true → pol = repeat 0%Q 9 ∧ v = 0%Q) st b t)
    as (r & st' & Hrun & Hm & Hr); [|exact Hlater|].
  { intros cache b' t' pol v [(_ & -> & ->)|(Hopen & _)] Hb'; [auto | congruence]. }
  exists st'. rewrite Hrun. destruct r as [pol m v]. cbn in Hm, Hr.
  destruct (Hr Hterm) as [-> ->]. now rewrite Hm.
Qed.

Lemma minimaxPolicy_terminal_witness :
  isTerminal "XXXOO____" = true
  ∧ ∃ st', minimaxPolicy freshCaches "XXXOO____" O
           = Some ({| policy := repeat 0%Q 9; mask := boardMask "XXXOO____";
                      value := 0%Q |}, st').
Proof.
  split; [reflexivity|].
  apply (minimaxPolicy_terminal freshCaches "XXXOO____" O); [apply later_here | reflexivity].
Defined.

Lemma boundedValueOf_range (s : jsnum) : (-1 <= boundedValueOf s <= 1)%Q.
Proof.
  destruct s as [|z|]; simpl; [split; discriminate | | split; discriminate].
  split.
  - apply Q.le_max_l.
  - apply Q.max_lub; [discriminate | apply Q.le_min_l].
Qed.

(** X9. The value that [minimaxPolicy] returns lies in [-1, 1], on every
    board and after any sequence of earlier queries. *)
Theorem minimaxPolicy_value_range (st : Caches) (b : string) (t : PlayerSymbol) :
  laterCaches freshCaches st →
  ∃ r st', minimaxPolicy st b t = Some (r, st') ∧ (-1 <= value r <= 1)%Q.
Proof.
  intros Hlater.
  destruct (every_answer (fun _ _ _ v => (-1 <= v <= 1)%Q) st b t)
    as (r & st' & Hrun & _ & Hv); [|exact Hlater|eauto].
  intros cache b' t' pol v [(_ & _ & ->)|(_ & best & scores & cache' & _ & _ & ->)].
  - split; discriminate.
  - apply boundedValueOf_range.
Qed.

Lemma minimaxPolicy_value_range_witness :
  ∃ r st', minimaxPolicy freshCaches "XX_OO____" X = Some (r, st')
           ∧ (-1 <= value r <= 1)%Q.
Proof. apply (minimaxPolicy_value_range freshCaches "XX_OO____" X). apply later_here. Defined.

End TeacherExtras.

Module SymmetryExtras.
Import GameLogic Teacher Loops TeacherProofs.

#[local] Arguments Qplus : simpl never.

(** ** The eight symmetries *)

(** Each symmetry has an inverse among the eight. *)
Lemma transform_back (tr : string * list nat) :
  tr ∈ TRANSFORMS →
  ∃ back, back ∈ TRANSFORMS
          ∧ ∀ b, String.length b = 9%nat →
              transformBoard (transformBoard b tr.2) back.2 = b.
Proof.
  intros Htr.
  assert (Hfind : ∀ k, (k < 8)%nat →
            (∀ c0 c1 c2 c3 c4 c5 c6 c7 c8 : ascii,
               let b := String c0 (String c1 (String c2 (String c3 (String c4 (String c5
                          (String c6 (String c7 (String c8 EmptyString)))))))) in
               transformBoard (transformBoard b tr.2) (nth k TRANSFORMS ("", [])).2 = b) →
            ∃ back, back ∈ TRANSFORMS
                    ∧ ∀ b, String.length b = 9%nat →
                        transformBoard (transformBoard b tr.2) back.2 = b).
  { intros k Hk Hall. exists (nth k TRANSFORMS ("", [])). split.
    - apply list_elem_of_In, nth_In. simpl. lia.
    - intros b Hlen.
      destruct (string_nine b Hlen) as (c0 & c1 & c2 & c3 & c4 & c5 & c6 & c7 & c8 & ->).
      apply Hall. }
  each_transform Htr
    ltac:(first [ apply (Hfind 0%nat); [lia | intros; reflexivity]
                | apply (Hfind 1%nat); [lia | intros; reflexivity]
                | apply (Hfind 2%nat); [lia | intros; reflexivity]
                | apply (Hfind 3%nat); [lia | intros; reflexivity]
                | apply (Hfind 4%nat); [lia | intros; reflexivity]
                | apply (Hfind 5%nat); [lia | intros; reflexivity]
                | apply (Hfind 6%nat); [lia | intros; reflexivity]
                | apply (Hfind 7%nat); [lia | intros; reflexivity] ]).
Qed.

(** X10. Each of the eight symmetries is undone by one of the eight: the
    board is recovered cell for cell. *)
Theorem transformBoard_inverse (tr : string * list nat) :
  tr ∈ TRANSFORMS →
  ∃ back, back ∈ TRANSFORMS
          ∧ ∀ b, String.length b = 9%nat →
              transformBoard (transformBoard b tr.2) back.2 = b.
Proof. apply transform_back. Qed.

Lemma transformBoard_inverse_witness :
  ∃ back, back ∈ TRANSFORMS
          ∧ ∀ b, String.length b = 9%nat →
              transformBoard (transformBoard b [2; 5; 8; 1; 4; 7; 0; 3; 6]%nat) back.2 = b.
Proof.
  apply (transformBoard_inverse ("rot90", [2; 5; 8; 1; 4; 7; 0; 3; 6]%nat)).
  unfold TRANSFORMS. apply elem_of_cons. right. apply elem_of_cons. now left.
Defined.

(** X11. A symmetry moves the entries of a distribution without losing
    any: the result has nine entries and the same sum.  Entries that the
    distribution lacks count as 0. *)
Theorem transformDist_sum (tr : string * list nat) (dist : list Q) :
  tr ∈ TRANSFORMS →
  (List.length dist ≤ 9)%nat →
  List.length (transformDist dist tr.2) = 9%nat
  ∧ (sumQ (transformDist dist tr.2) == sumQ dist)%Q.
Proof.
  intros Htr Hlen.
  each_transform Htr
    ltac:(do 10 (destruct dist as [|? dist]; [split; [reflexivity | cbv -[Qplus Qeq]; ring]|]);
          simpl in Hlen; lia).
Qed.

Lemma transformDist_sum_witness :
  List.length (transformDist [1 # 2; 0; 1 # 2]%Q [6; 3; 0; 7; 4; 1; 8; 5; 2]%nat) = 9%nat
  ∧ (sumQ (transformDist [1 # 2; 0; 1 # 2]%Q [6; 3; 0; 7; 4; 1; 8; 5; 2]%nat)
     == sumQ [1 # 2; 0; 1 # 2]%Q)%Q.
Proof.
  apply (transformDist_sum ("rot270", [6; 3; 0; 7; 4; 1; 8; 5; 2]%nat) [1 # 2; 0; 1 # 2]%Q).
  - unfold TRANSFORMS. do 3 (apply elem_of_cons; right). apply elem_of_cons. now left.
  - simpl. lia.
Defined.


(** The cells of the transformed board. *)
Lemma transformBoard_charAt (b : string) (tr : string * list nat) (j : nat) :
  tr ∈ TRANSFORMS → String.length b = 9%nat → (j < 9)%nat →
  charAt (transformBoard b tr.2) j = charAt b (sourceOf tr.2 j).
Proof.
  intros Htr Hlen Hj.
  destruct (string_nine b Hlen) as (c0 & c1 & c2 & c3 & c4 & c5 & c6 & c7 & c8 & ->).
  each_transform Htr ltac:(do 9 (destruct j as [|j]; [reflexivity|]); lia).
Qed.

(** The cells that a symmetry brings onto a winning line form a winning
    line. *)
Lemma line_image (tr : string * list nat) (l : nat * nat * nat) :
  tr ∈ TRANSFORMS → l ∈ WINNING_LINES →
  ∃ l', l' ∈ WINNING_LINES
        ∧ ∀ f : nat → Prop,
            f (sourceOf tr.2 l.1.1) → f (sourceOf tr.2 l.1.2) → f (sourceOf tr.2 l.2) →
            f l'.1.1 ∧ f l'.1.2 ∧ f l'.2.
Proof.
  intros Htr Hl.
  assert (Hfind : ∀ k, (k < 8)%nat →
            (∀ f : nat → Prop,
               f (sourceOf tr.2 l.1.1) → f (sourceOf tr.2 l.1.2) → f (sourceOf tr.2 l.2) →
               f (nth k WINNING_LINES (0, 0, 0)%nat).1.1
               ∧ f (nth k WINNING_LINES (0, 0, 0)%nat).1.2
               ∧ f (nth k WINNING_LINES (0, 0, 0)%nat).2) →
            ∃ l', l' ∈ WINNING_LINES
                  ∧ ∀ f : nat → Prop,
                      f (sourceOf tr.2 l.1.1) → f (sourceOf tr.2 l.1.2) →
                      f (sourceOf tr.2 l.2) → f l'.1.1 ∧ f l'.1.2 ∧ f l'.2).
  { intros k Hk Hall. exists (nth k WINNING_LINES (0, 0, 0)%nat). split; [|exact Hall].
    apply list_elem_of_In, nth_In. simpl. lia. }
  unfold WINNING_LINES in Hl.
  each_transform Htr
    ltac:(repeat (apply elem_of_cons in Hl as [->|Hl];
                  [first [ apply (Hfind 0%nat); [lia | cbn; intros; repeat split; assumption]
                         | apply (Hfind 1%nat); [lia | cbn; intros; repeat split; assumption]
                         | apply (Hfind 2%nat); [lia | cbn; intros; repeat split; assumption]
                         | apply (Hfind 3%nat); [lia | cbn; intros; repeat split; assumption]
                         | apply (Hfind 4%nat); [lia | cbn; intros; repeat split; assumption]
                         | apply (Hfind 5%nat); [lia | cbn; intros; repeat split; assumption]
                         | apply (Hfind 6%nat); [lia | cbn; intros; repeat split; assumption]
                         | apply (Hfind 7%nat); [lia | cbn; intros; repeat split; assumption] ]|]);
          by apply elem_of_nil in Hl).
Qed.

Lemma computeWinner_line (b : string) :
  String.length b = 9%nat →
  (is_Some (computeWinner b)
   ↔ ∃ l c, l ∈ WINNING_LINES ∧ c ≠ "_"%char
            ∧ charAt b l.1.1 = Some c ∧ charAt b l.1.2 = Some c ∧ charAt b l.2 = Some c).
Proof.
  intros Hlen.
  assert (Htest : ∀ l c, charAt b l.1.1 = Some c →
            (lineTest b l = true
             ↔ c ≠ "_"%char ∧ charAt b l.1.2 = Some c ∧ charAt b l.2 = Some c)).
  { intros l c Hc. unfold lineTest, isEmptyCell. rewrite Hc. split.
    - intros H. apply andb_true_iff in H as [H H3]. apply andb_true_iff in H as [H1 H2].
      apply bool_decide_eq_true in H2, H3.
      apply negb_true_iff, bool_decide_eq_false in H1.
      split_and!; congruence.
    - intros (Hne & H2 & H3). rewrite H2, H3.
      rewrite (bool_decide_eq_false_2 (Some c = Some "_"%char)) by congruence.
      rewrite !bool_decide_eq_true_2 by reflexivity. reflexivity. }
  split.
  - intros [c Hwin]. apply scanLines_Some in Hwin as (l & Hl & Ht & Hc).
    exists l, c. apply (Htest l c Hc) in Ht as (? & ? & ?). auto.
  - intros (l & c & Hl & Hne & H1 & H2 & H3).
    destruct (computeWinner b) eqn:Hnone; [eauto|]. exfalso.
    assert (Hall : Forall (fun l => lineTest b l = false) WINNING_LINES).
    { apply scanLines_None; [exact Hnone|].
      eapply Forall_impl; [apply WINNING_LINES_range|].
      intros l' (Hr & _ & _). now apply charAt_is_Some. }
    rewrite Forall_forall in Hall. specialize (Hall l Hl).
    assert (Ht : lineTest b l = true) by (apply (Htest l c H1); auto).
    congruence.
Qed.

(** A symmetry of a board that is won or full comes from a board that is
    won or full. *)
Lemma transformBoard_terminal_from (b : string) (tr : string * list nat) :
  tr ∈ TRANSFORMS → String.length b = 9%nat →
  isTerminal (transformBoard b tr.2) = true → isTerminal b = true.
Proof.
  intros Htr Hlen Hterm.
  destruct (transformBoard_cells b tr Htr Hlen) as [Hlen' _].
  unfold isTerminal in *. apply orb_true_iff in Hterm as [Hwin|Hfull]; apply orb_true_iff.
  - left. apply bool_decide_eq_true in Hwin. apply bool_decide_eq_true.
    apply (computeWinner_line _ Hlen') in Hwin as (l & c & Hl & Hne & H1 & H2 & H3).
    apply (computeWinner_line _ Hlen).
    destruct (line_image tr l Htr Hl) as (l' & Hl' & Himg).
    pose proof WINNING_LINES_range as Hrange. rewrite Forall_forall in Hrange.
    destruct (Hrange l Hl) as (R1 & R2 & R3).
    rewrite (transformBoard_charAt b tr _ Htr Hlen R1) in H1.
    rewrite (transformBoard_charAt b tr _ Htr Hlen R2) in H2.
    rewrite (transformBoard_charAt b tr _ Htr Hlen R3) in H3.
    destruct (Himg (fun k => charAt b k = Some c) H1 H2 H3) as (? & ? & ?).
    exists l', c. auto.
  - right. apply negb_true_iff in Hfull. apply negb_true_iff.
    destruct (hasEmpty b) eqn:Hempty; [|reflexivity]. exfalso.
    destruct (transform_back tr Htr) as (back & Hback & Hround).
    destruct (hasEmpty_valid b Hlen Hempty) as (i & Hi & Hv).
    rewrite <- (Hround b Hlen) in Hv. unfold isMoveValid in Hv.
    rewrite (transformBoard_charAt _ back i Hback Hlen' Hi) in Hv.
    assert (Hv' : isMoveValid (transformBoard b tr.2) (sourceOf back.2 i) = true) by exact Hv.
    apply isMoveValid_hasEmpty in Hv'. congruence.
Qed.

(** X12. A symmetry does not change whether a nine-cell board is won or
    full. *)
Theorem transformBoard_terminal (b : string) (tr : string * list nat) :
  tr ∈ TRANSFORMS → String.length b = 9%nat →
  isTerminal (transformBoard b tr.2) = isTerminal b.
Proof.
  intros Htr Hlen.
  destruct (isTerminal (transformBoard b tr.2)) eqn:Ht.
  - symmetry. now apply (transformBoard_terminal_from b tr).
  - destruct (isTerminal b) eqn:Hb; [|reflexivity].
    destruct (transform_back tr Htr) as (back & Hback & Hround).
    destruct (transformBoard_cells b tr Htr Hlen) as [Hlen' _].
    rewrite <- (Hround b Hlen) in Hb.
    apply (transformBoard_terminal_from _ back Hback Hlen') in Hb. congruence.
Qed.

Lemma transformBoard_terminal_witness :
  isTerminal (transformBoard "XXXOO____" [2; 5; 8; 1; 4; 7; 0; 3; 6]%nat)
  = isTerminal "XXXOO____".
Proof.
  apply (transformBoard_terminal "XXXOO____" ("rot90", [2; 5; 8; 1; 4; 7; 0; 3; 6]%nat)).
  - unfold TRANSFORMS. apply elem_of_cons. right. apply elem_of_cons. now left.
  - reflexivity.
Defined.

End SymmetryExtras.

Module DatasetExtras.
Import GameLogic Teacher Loops TeacherProofs TeacherExtras SymmetryExtras.

#[local] Arguments negamax : simpl never.
#[local] Arguments walk : simpl never.

(** ** The sets of keys *)

Lemma elem_of_setAdd (k x : string) (s : gset string) :
  x ∈ setAdd k s ↔ x = k ∨ x ∈ s.
Proof.
  destruct s as [m]. unfold setAdd, elem_of, gset_elem_of, mapset.mapset_elem_of.
  cbn [mapset.mapset_car].
  destruct (decide (x = k)) as [->|Hne].
  - rewrite lookup_insert_eq. tauto.
  - rewrite lookup_insert_ne by congruence. split; [auto | intros [?|?]; [contradiction | assumption]].
Qed.


(** ** The labelling loop, for any invariant

    [P] is a property of the answers of [minimaxPolicy] and [Inv] an invariant
    of the output list and the [dedupe] set that both ways of emitting a
    state keep. *)

Section Labelling.
Variable P : string → PlayerSymbol → list Q → Q → Prop.
Variable Inv : list TeacherState → gset string → Prop.
Variable augmentSymmetries : bool.

Hypothesis P_computed : ∀ cache b t pol v, computedAnswer cache b t pol v → P b t pol v.

Hypothesis I_plain : ∀ (s : string * PlayerSymbol) r out dedupe,
  openBoard s.1 → mask r = boardMask s.1 → P s.1 s.2 (policy r) (value r) →
  Inv out dedupe → cacheKey s.1 s.2 ∉ dedupe →
  Inv (out ++ [mkTeacherState s.1 s.2 (policy r) (mask r) (value r)])
    (setAdd (cacheKey s.1 s.2) dedupe).

Hypothesis I_symmetry : ∀ (s : string * PlayerSymbol) r tr out dedupe,
  openBoard s.1 → tr ∈ TRANSFORMS → P s.1 s.2 (policy r) (value r) →
  Inv out dedupe → cacheKey (transformBoard s.1 tr.2) s.2 ∉ dedupe →
  Inv (out ++ [mkTeacherState (transformBoard s.1 tr.2) s.2 (transformDist (policy r) tr.2)
               (boardMask (transformBoard s.1 tr.2)) (value r)])
    (setAdd (cacheKey (transformBoard s.1 tr.2) s.2) dedupe).

Lemma emitPlain_keeps (s : string * PlayerSymbol) (r : PolicyResult)
    (out : list TeacherState) (dedupe : gset string) (st : Caches) :
  openBoard s.1 → mask r = boardMask s.1 → P s.1 s.2 (policy r) (value r) →
  Inv out dedupe →
  ∃ out' dedupe', emitPlain s r (out, dedupe, st) = (out', dedupe', st) ∧ Inv out' dedupe'.
Proof.
  intros Hs Hm HP HI. unfold emitPlain.
  destruct (bool_decide (cacheKey s.1 s.2 ∈ dedupe)) eqn:Hin; [eauto|].
  apply bool_decide_eq_false in Hin. eexists _, _. split; [reflexivity|].
  now apply I_plain.
Qed.

Lemma emitSymmetries_keeps (s : string * PlayerSymbol) (r : PolicyResult)
    (out : list TeacherState) (dedupe : gset string) (st : Caches) :
  openBoard s.1 → P s.1 s.2 (policy r) (value r) → Inv out dedupe →
  ∃ out' dedupe', emitSymmetries s r (out, dedupe, st) = (out', dedupe', st)
                  ∧ Inv out' dedupe'.
Proof.
  intros Hs HP. unfold emitSymmetries.
  assert (Hall : ∀ tr, tr ∈ TRANSFORMS → tr ∈ TRANSFORMS) by auto.
  revert out dedupe Hall. generalize TRANSFORMS at 1 3.
  induction l as [|tr l IH]; intros out dedupe Hall HI; [simpl; eauto|].
  cbn [fold_left].
  destruct (bool_decide (cacheKey (transformBoard s.1 tr.2) s.2 ∈ dedupe)) eqn:Hin.
  - apply IH; [|exact HI]. intros tr' Htr'. apply Hall. now right.
  - apply bool_decide_eq_false in Hin.
    apply IH; [intros tr' Htr'; apply Hall; now right|].
    apply I_symmetry; try assumption. apply Hall. now left.
Qed.

Lemma labelling_keeps (states : list (string * PlayerSymbol)) :
  Forall (fun s => openBoard s.1) states →
  ∀ out dedupe st,
    Inv out dedupe → entriesOk P st →
    ∃ out' dedupe' st',
      fold_left
        (fun acc s =>
           '(out, dedupe, st) ← acc;
           '(r, st') ← minimaxPolicy st s.1 s.2;
           if negb augmentSymmetries then Some (emitPlain s r (out, dedupe, st'))
           else Some (emitSymmetries s r (out, dedupe, st')))
        states (Some (out, dedupe, st)) = Some (out', dedupe', st')
      ∧ Inv out' dedupe' ∧ entriesOk P st'.
Proof.
  induction 1 as [|s states Hs _ IH]; intros out dedupe st HI Hst.
  { simpl. eexists _, _, _. split; [reflexivity|]. split; assumption. }
  cbn [fold_left mbind option_bind].
  destruct (minimaxPolicy_total st s.1 s.2) as [[r st1] Hrun]. rewrite Hrun.
  cbn [mbind option_bind].
  destruct (minimaxPolicy_answer P st st1 s.1 s.2 r P_computed Hst Hrun) as (Hm & HP & Hst1).
  destruct augmentSymmetries; cbn [negb].
  - destruct (emitSymmetries_keeps s r out dedupe st1 Hs HP HI) as (out1 & dedupe1 & -> & HI1).
    now apply IH.
  - destruct (emitPlain_keeps s r out dedupe st1 Hs Hm HP HI) as (out1 & dedupe1 & -> & HI1).
    now apply IH.
Qed.

Lemma dataset_keeps (st : Caches) :
  Inv [] ∅ → entriesOk P st →
  ∃ out dedupe st', generateTeacherDataset augmentSymmetries st = Some (out, st')
                    ∧ Inv out dedupe.
Proof.
  intros HI Hst. unfold generateTeacherDataset.
  destruct (walk_fuel searchFuel ∅ [] emptyBoard X) as [[seen states] Hwalk];
    [vm_compute; lia|].
  rewrite Hwalk. cbn [mbind option_bind].
  apply walk_open in Hwalk as Hopen; [|reflexivity|constructor].
  destruct (labelling_keeps states Hopen [] ∅ st HI Hst) as
    (out & dedupe & st' & -> & Hout & _).
  cbn [mbind option_bind]. eauto.
Qed.

End Labelling.

(** ** What the dataset holds *)

Definition keyOf (t : TeacherState) : string * PlayerSymbol := (ts_board t, ts_turn t).

(** X13. No two states of the dataset have the same board and turn, with
    or without symmetry augmentation and whatever the tables hold. *)
Theorem generateTeacherDataset_distinct (augmentSymmetries : bool) (st : Caches) :
  ∃ out st', generateTeacherDataset augmentSymmetries st = Some (out, st')
             ∧ NoDup (map keyOf out).
Proof.
  pose (Inv := fun (out : list TeacherState) (dedupe : gset string) =>
    NoDup (map keyOf out) ∧ ∀ t, t ∈ out → cacheKey (ts_board t) (ts_turn t) ∈ dedupe).
  assert (Hadd : ∀ out dedupe b t pol m v,
            Inv out dedupe → cacheKey b t ∉ dedupe →
            Inv (out ++ [mkTeacherState b t pol m v])%list (setAdd (cacheKey b t) dedupe)).
  { intros out dedupe b t pol m v [Hnd Hin] Hnew. split.
    - rewrite map_app. apply NoDup_app. split; [exact Hnd|]. split.
      + intros k Hk Hk'. apply list_elem_of_fmap in Hk as (t' & -> & Ht').
        cbn in Hk'. apply list_elem_of_singleton in Hk'. unfold keyOf in Hk'. cbn in Hk'.
        apply Hnew. injection Hk' as <- <-. now apply Hin.
      + cbn. apply NoDup_singleton.
    - intros t' Ht'. apply elem_of_setAdd. apply elem_of_app in Ht' as [Ht'|Ht'].
      + right. now apply Hin.
      + apply list_elem_of_singleton in Ht'. subst t'. now left. }
  destruct (dataset_keeps (fun _ _ _ _ => True) Inv augmentSymmetries) with (st := st)
    as (out & dedupe & st' & Hrun & Hnd & _).
  - auto.
  - intros s r out dedupe _ _ _. apply Hadd.
  - intros s r tr out dedupe _ _ _. apply Hadd.
  - split; [constructor | intros t Ht; by apply elem_of_nil in Ht].
  - intros b t pol v _. exact I.
  - eauto.
Qed.

(** A state as the dataset should hold it. *)
Definition wellFormed (t : TeacherState) : Prop :=
  String.length (ts_board t) = 9%nat
  ∧ isTerminal (ts_board t) = false
  ∧ ts_mask t = boardMask (ts_board t)
  ∧ List.length (ts_policy t) = 9%nat
  ∧ (-1 <= ts_value t <= 1)%Q.

(** X14. Every state of the dataset holds an open nine-cell board, the mask
    of that board (recomputed from the transformed board under
    augmentation), a policy of nine entries and a value in [-1, 1]. *)
Theorem generateTeacherDataset_wellFormed (augmentSymmetries : bool) (st : Caches) :
  laterCaches freshCaches st →
  ∃ out st', generateTeacherDataset augmentSymmetries st = Some (out, st')
             ∧ Forall wellFormed out.
Proof.
  intros Hlater.
  pose (P := fun (_ : string) (_ : PlayerSymbol) (pol : list Q) (v : Q) =>
    (∃ bm, pol = policyOf bm) ∧ (-1 <= v <= 1)%Q).
  assert (HP : ∀ cache b t pol v, computedAnswer cache b t pol v → P b t pol v).
  { intros cache b t pol v [(_ & -> & ->)|(_ & best & scores & cache' & _ & -> & ->)].
    - split; [now exists [] | split; discriminate].
    - split; [eauto | apply boundedValueOf_range]. }
  destruct (dataset_keeps P (fun out _ => Forall wellFormed out) augmentSymmetries HP)
    with (st := st) as (out & dedupe & st' & Hrun & Hout).
  - intros s r out dedupe [Hlen Hopen] Hm [[bm Hpol] Hv] Hout _.
    apply Forall_app. split; [exact Hout|]. constructor; [|constructor].
    unfold wellFormed. cbn [ts_board ts_turn ts_mask ts_policy ts_value].
    rewrite Hpol, policyOf_length. auto.
  - intros s r tr out dedupe [Hlen Hopen] Htr [[bm Hpol] Hv] Hout _.
    apply Forall_app. split; [exact Hout|]. constructor; [|constructor].
    unfold wellFormed. cbn [ts_board ts_turn ts_mask ts_policy ts_value].
    destruct (transformBoard_cells s.1 tr Htr Hlen) as [Hlen' _].
    split; [exact Hlen'|]. split.
    { destruct (isTerminal (transformBoard s.1 tr.2)) eqn:Ht; [|reflexivity].
      apply (transformBoard_terminal_from s.1 tr Htr Hlen) in Ht. congruence. }
    split; [reflexivity|]. split; [|exact Hv].
    assert (Hl9 : (List.length (policy r) ≤ 9)%nat)
      by (rewrite Hpol, policyOf_length; lia).
    clear -Htr Hl9. revert Hl9. generalize (policy r). intros dist Hl9.
    each_transform Htr
      ltac:(do 10 (destruct dist as [|? dist]; [reflexivity|]); simpl in Hl9; lia).
  - constructor.
  - exact (laterCaches_entries P st HP Hlater).
  - eauto.
Qed.

Lemma generateTeacherDataset_wellFormed_witness :
  ∃ out st', generateTeacherDataset false freshCaches = Some (out, st')
             ∧ Forall wellFormed out.
Proof. apply (generateTeacherDataset_wellFormed false freshCaches). apply later_here. Defined.


(** ** Running the generator again *)

(** The two ways of emitting a state pass the tables through. *)
Lemma emitPlain_tables (s : string * PlayerSymbol) (r : PolicyResult)
    (out : list TeacherState) (dedupe : gset string) (st st2 : Caches) :
  emitPlain s r (out, dedupe, st2)
  = ((emitPlain s r (out, dedupe, st)).1.1, (emitPlain s r (out, dedupe, st)).1.2, st2).
Proof. unfold emitPlain. now destruct (bool_decide _). Qed.

Lemma emitSymmetries_tables (s : string * PlayerSymbol) (r : PolicyResult)
    (out : list TeacherState) (dedupe : gset string) (st st2 : Caches) :
  emitSymmetries s r (out, dedupe, st2)
  = ((emitSymmetries s r (out, dedupe, st)).1.1,
     (emitSymmetries s r (out, dedupe, st)).1.2, st2).
Proof.
  unfold emitSymmetries. revert out dedupe.
  induction TRANSFORMS as [|tr l IH]; intros out dedupe; [reflexivity|].
  cbn [fold_left]. destruct (bool_decide _); apply IH.
Qed.

Lemma emitPlain_same_tables (s : string * PlayerSymbol) (r : PolicyResult)
    (out : list TeacherState) (dedupe : gset string) (st : Caches) :
  (emitPlain s r (out, dedupe, st)).2 = st.
Proof. unfold emitPlain. now destruct (bool_decide _). Qed.

Lemma emitSymmetries_same_tables (s : string * PlayerSymbol) (r : PolicyResult)
    (out : list TeacherState) (dedupe : gset string) (st : Caches) :
  (emitSymmetries s r (out, dedupe, st)).2 = st.
Proof.
  unfold emitSymmetries. revert out dedupe.
  induction TRANSFORMS as [|tr l IH]; intros out dedupe; [reflexivity|].
  cbn [fold_left]. destruct (bool_decide _); apply IH.
Qed.

(** A run of the labelling loop leaves every answer it used in the policy
    table, so the same loop over tables that hold these entries emits the
    same states and changes nothing. *)
Lemma labelling_again (augmentSymmetries : bool) (states : list (string * PlayerSymbol)) :
  ∀ out dedupe st out' dedupe' st',
    fold_left
      (fun acc s =>
         '(out, dedupe, st) ← acc;
         '(r, st') ← minimaxPolicy st s.1 s.2;
         if negb augmentSymmetries then Some (emitPlain s r (out, dedupe, st'))
         else Some (emitSymmetries s r (out, dedupe, st')))
      states (Some (out, dedupe, st)) = Some (out', dedupe', st') →
    policyCache st ⊆ policyCache st'
    ∧ ∀ st2, policyCache st' ⊆ policyCache st2 →
        fold_left
          (fun acc s =>
             '(out, dedupe, st) ← acc;
             '(r, st') ← minimaxPolicy st s.1 s.2;
             if negb augmentSymmetries then Some (emitPlain s r (out, dedupe, st'))
             else Some (emitSymmetries s r (out, dedupe, st')))
          states (Some (out, dedupe, st2)) = Some (out', dedupe', st2).
Proof.
  induction states as [|s states IH]; intros out dedupe st out' dedupe' st'.
  { simpl. intros [= <- <- <-]. split; [reflexivity | reflexivity]. }
  cbn [fold_left mbind option_bind].
  destruct (minimaxPolicy st s.1 s.2) as [[r st1]|] eqn:Hrun; cbn [mbind option_bind].
  2:{ rewrite fold_left_None by reflexivity. discriminate. }
  destruct (minimaxPolicy_records st st1 s.1 s.2 r Hrun) as (Hentry & Hmask & Hsub).
  assert (Hhits : ∀ st3 st2, policyCache st1 ⊆ policyCache st3 →
            policyCache st3 ⊆ policyCache st2 →
            minimaxPolicy st2 s.1 s.2 = Some (r, st2)).
  { intros st3 st2 Hsub1 Hsub2.
    rewrite (minimaxPolicy_hit st2 s.1 s.2 (policy r) (value r)).
    - rewrite <- Hmask. now destruct r.
    - eapply lookup_weaken; [|exact Hsub2]. eapply lookup_weaken; [exact Hentry | exact Hsub1]. }
  destruct augmentSymmetries; cbn [negb].
  - rewrite (emitSymmetries_tables s r out dedupe st st1). intros Hrest.
    destruct (IH _ _ _ _ _ _ Hrest) as [Hsub1 Hagain].
    split; [etransitivity; eassumption|].
    intros st2 Hsub2. rewrite (Hhits st' st2 Hsub1 Hsub2). cbn [mbind option_bind].
    rewrite (emitSymmetries_tables s r out dedupe st st2). now apply Hagain.
  - rewrite (emitPlain_tables s r out dedupe st st1). intros Hrest.
    destruct (IH _ _ _ _ _ _ Hrest) as [Hsub1 Hagain].
    split; [etransitivity; eassumption|].
    intros st2 Hsub2. rewrite (Hhits st' st2 Hsub1 Hsub2). cbn [mbind option_bind].
    rewrite (emitPlain_tables s r out dedupe st st2). now apply Hagain.
Qed.

(** X15. A second run of [generateTeacherDataset], right after the first
    or after any further queries, returns the same dataset and leaves the
    tables as they are: every answer comes from the policy table. *)
Theorem generateTeacherDataset_again (augmentSymmetries : bool) (st st' st2 : Caches)
    (out : list TeacherState) :
  generateTeacherDataset augmentSymmetries st = Some (out, st') →
  laterCaches st' st2 →
  generateTeacherDataset augmentSymmetries st2 = Some (out, st2).
Proof.
  unfold generateTeacherDataset. intros Hrun Hlater.
  destruct (walk searchFuel ∅ [] emptyBoard X) as [[seen states]|]; [|discriminate].
  cbn [mbind option_bind] in *.
  destruct (fold_left _ states (Some ([], ∅, st))) as [[[out1 dedupe1] st1]|] eqn:Hfold;
    [|discriminate].
  cbn [mbind option_bind] in Hrun. injection Hrun as <- <-.
  destruct (labelling_again augmentSymmetries states _ _ _ _ _ _ Hfold) as [_ Hagain].
  rewrite (Hagain st2 (laterCaches_policyCache _ _ Hlater)). reflexivity.
Qed.


Lemma generateTeacherDataset_again_witness :
  ∃ out st', generateTeacherDataset false freshCaches = Some (out, st')
             ∧ generateTeacherDataset false st' = Some (out, st').
Proof.
  destruct (generateTeacherDataset_ok false freshCaches policyCacheOk_fresh)
    as (out & st' & Hrun & _).
  exists out, st'. split; [exact Hrun|].
  apply (generateTeacherDataset_again false freshCaches st' st' out Hrun). apply later_here.
Defined.

(** ** The positions of the game *)

(** The positions that legal play reaches from the empty board, [X]
    moving first; play stops on a board that is won or full. *)
Inductive reachable : string → PlayerSymbol → Prop :=
| reach_start : reachable emptyBoard X
| reach_move (b : string) (t : PlayerSymbol) (i : nat) :
    reachable b t → isTerminal b = false → (i < 9)%nat → isMoveValid b i = true →
    reachable (applyMove b i t) (nextSymbol t).

(** What one call of [walk] adds to [seen] and [states]: the position it
    was called on, and with every open position it adds, the positions one
    move away. *)
Definition explored (seen seen' : gset string) (states' : list (string * PlayerSymbol))
    : Prop :=
  ∀ b t, cacheKey b t ∈ seen' → cacheKey b t ∉ seen → isTerminal b = false →
    (b, t) ∈ states'
    ∧ ∀ i, (i < 9)%nat → isMoveValid b i = true →
        cacheKey (applyMove b i t) (nextSymbol t) ∈ seen'.

Lemma walk_explores (fuel : nat) :
  ∀ seen states b t seen' states',
    walk fuel seen states b t = Some (seen', states') →
    seen ⊆ seen' ∧ cacheKey b t ∈ seen' ∧ states ⊆ states' ∧ explored seen seen' states'.
Proof.
  induction fuel as [|fuel IH]; intros seen states b t seen' states'; [discriminate|].
  rewrite walk_S. destruct (bool_decide (cacheKey b t ∈ seen)) eqn:Hseen.
  { intros [= <- <-]. apply bool_decide_eq_true in Hseen.
    split; [reflexivity|]. split; [exact Hseen|]. split; [reflexivity|].
    intros b' t' Hin Hout. contradiction. }
  apply bool_decide_eq_false in Hseen.
  assert (Hadd : seen ⊆ setAdd (cacheKey b t) seen).
  { intros k Hk. apply elem_of_setAdd. now right. }
  assert (Hself : cacheKey b t ∈ setAdd (cacheKey b t) seen).
  { apply elem_of_setAdd. now left. }
  destruct (isTerminal b) eqn:Hterm.
  { intros [= <- <-]. split; [exact Hadd|]. split; [exact Hself|]. split; [reflexivity|].
    intros b' t' Hin Hout Hopen. apply elem_of_setAdd in Hin as [Heq|Hin]; [|contradiction].
    apply cacheKey_inj in Heq as [-> ->]. congruence. }
  intros Hrun.
  pose (Inv := fun (k : nat) (s : gset string * list (string * PlayerSymbol)) =>
    setAdd (cacheKey b t) seen ⊆ s.1
    ∧ (states ++ [(b, t)])%list ⊆ s.2
    ∧ (∀ i, (i < k)%nat → isMoveValid b i = true →
         cacheKey (applyMove b i t) (nextSymbol t) ∈ s.1)
    ∧ explored (setAdd (cacheKey b t) seen) s.1 s.2).
  assert (Hend : Inv 9%nat (seen', states')).
  { refine (fold_seq_invariant (walkStep (walk fuel) b t) Inv 9 _ (seen', states')
              _ _ _ Hrun).
    - reflexivity.
    - split; [reflexivity|]. split; [reflexivity|]. split; [intros i Hi; lia|].
      intros b' t' Hin Hout. contradiction.
    - intros k [sn ss] [sn' ss'] Hk (Hs & Hl & Hdone & Hexp). unfold walkStep.
      cbn [mbind option_bind fst snd] in *.
      destruct (isMoveValid b k) eqn:Hv; cbn [negb].
      + intros Hcall. apply IH in Hcall as (Hsub & Hchild & Hsts & Hnew).
        split; [etransitivity; eassumption|]. split; [etransitivity; eassumption|].
        split.
        * intros i Hi Hvi. destruct (decide (i = k)) as [->|Hne]; [exact Hchild|].
          apply Hsub, Hdone; [lia | exact Hvi].
        * intros b' t' Hin Hout Hopen.
          destruct (decide (cacheKey b' t' ∈ sn)) as [Hold|Hfresh].
          -- destruct (Hexp b' t' Hold Hout Hopen) as [Hst Hch].
             split; [now apply Hsts|]. intros i Hi Hvi. now apply Hsub, Hch.
          -- now apply Hnew.
      + intros [= <- <-]. split; [exact Hs|]. split; [exact Hl|]. split; [|exact Hexp].
        intros i Hi Hvi. destruct (decide (i = k)) as [->|Hne]; [congruence|].
        apply Hdone; [lia | exact Hvi]. }
  destruct Hend as (Hs & Hl & Hdone & Hexp). cbn [fst snd] in *.
  split; [etransitivity; eassumption|]. split; [now apply Hs|].
  split; [intros s Hs'; apply Hl, elem_of_app; now left|].
  intros b' t' Hin Hout Hopen.
  destruct (decide (cacheKey b' t' = cacheKey b t)) as [Heq|Hne].
  - apply cacheKey_inj in Heq as [-> ->]. split.
    + apply Hl, elem_of_app. right. now apply list_elem_of_singleton.
    + intros i Hi Hvi. now apply Hdone.
  - apply Hexp; [exact Hin | | exact Hopen].
    intros [?|?]%elem_of_setAdd; contradiction.
Qed.

(** [walk] collects every open position that legal play reaches. *)
Lemma walk_complete (seen : gset string) (states : list (string * PlayerSymbol)) :
  walk searchFuel ∅ [] emptyBoard X = Some (seen, states) →
  ∀ b t, reachable b t → isTerminal b = false → (b, t) ∈ states.
Proof.
  intros Hwalk. apply walk_explores in Hwalk as (_ & Hroot & _ & Hexp).
  assert (Hseen : ∀ b t, reachable b t → cacheKey b t ∈ seen).
  { induction 1 as [|b t i _ IH Hopen Hi Hv]; [exact Hroot|].
    apply (Hexp b t IH); [apply not_elem_of_empty | exact Hopen | exact Hi | exact Hv]. }
  intros b t Hreach Hopen.
  apply (Hexp b t (Hseen b t Hreach)); [apply not_elem_of_empty | exact Hopen].
Qed.

(** The first of the eight symmetries is the identity. *)
Lemma transformBoard_id (b : string) :
  String.length b = 9%nat → transformBoard b [0; 1; 2; 3; 4; 5; 6; 7; 8]%nat = b.
Proof.
  intros Hlen.
  destruct (string_nine b Hlen) as (c0 & c1 & c2 & c3 & c4 & c5 & c6 & c7 & c8 & ->).
  reflexivity.
Qed.

(** The [dedupe] set holds the keys of the states emitted so far. *)
Definition keysOf (out : list TeacherState) (dedupe : gset string) : Prop :=
  ∀ k, k ∈ dedupe → ∃ ts, ts ∈ out ∧ cacheKey (ts_board ts) (ts_turn ts) = k.

Lemma keysOf_emit (out : list TeacherState) (dedupe : gset string) (ts : TeacherState) :
  keysOf out dedupe →
  keysOf (out ++ [ts]) (setAdd (cacheKey (ts_board ts) (ts_turn ts)) dedupe).
Proof.
  intros Hkeys k [->|Hk]%elem_of_setAdd.
  - exists ts. split; [apply elem_of_app; right; now apply list_elem_of_singleton | reflexivity].
  - destruct (Hkeys k Hk) as (ts' & Hin & Heq). exists ts'.
    split; [apply elem_of_app; now left | exact Heq].
Qed.

Lemma emitPlain_covers (s : string * PlayerSymbol) (r : PolicyResult)
    (out : list TeacherState) (dedupe : gset string) (st : Caches) :
  keysOf out dedupe →
  ∃ out' dedupe', emitPlain s r (out, dedupe, st) = (out', dedupe', st)
                  ∧ keysOf out' dedupe' ∧ dedupe ⊆ dedupe'
                  ∧ cacheKey s.1 s.2 ∈ dedupe'.
Proof.
  intros Hkeys. unfold emitPlain.
  destruct (bool_decide (cacheKey s.1 s.2 ∈ dedupe)) eqn:Hin.
  - apply bool_decide_eq_true in Hin. eexists _, _. split; [reflexivity|]. auto.
  - eexists _, _. split; [reflexivity|]. split.
    + exact (keysOf_emit out dedupe (mkTeacherState s.1 s.2 _ _ _) Hkeys).
    + split; [|apply elem_of_setAdd; now left].
      intros k Hk. apply elem_of_setAdd. now right.
Qed.

Lemma emitSymmetries_covers (s : string * PlayerSymbol) (r : PolicyResult)
    (out : list TeacherState) (dedupe : gset string) (st : Caches) :
  String.length s.1 = 9%nat → keysOf out dedupe →
  ∃ out' dedupe', emitSymmetries s r (out, dedupe, st) = (out', dedupe', st)
                  ∧ keysOf out' dedupe' ∧ dedupe ⊆ dedupe'
                  ∧ cacheKey s.1 s.2 ∈ dedupe'.
Proof.
  intros Hlen Hkeys. unfold emitSymmetries.
  assert (Hrest : ∀ l out dedupe, keysOf out dedupe →
            ∃ out' dedupe',
              fold_left
                (fun (acc : emitState) (t : string * list nat) =>
                   let '(out, dedupe, st) := acc in
                   let b2 := transformBoard s.1 t.2 in
                   let p2 := transformDist (policy r) t.2 in
                   let m2 := boardMask b2 in
                   let k := cacheKey b2 s.2 in
                   if bool_decide (k ∈ dedupe) then acc
                   else ((out ++ [mkTeacherState b2 s.2 p2 m2 (value r)])%list,
                         setAdd k dedupe, st))
                l (out, dedupe, st) = (out', dedupe', st)
              ∧ keysOf out' dedupe' ∧ dedupe ⊆ dedupe').
  { induction l as [|tr l IH]; intros out0 dedupe0 Hk0.
    - eexists _, _. split; [reflexivity|]. split; [exact Hk0 | reflexivity].
    - cbn [fold_left].
      destruct (bool_decide (cacheKey (transformBoard s.1 tr.2) s.2 ∈ dedupe0)).
      + now apply IH.
      + destruct (IH (out0 ++ [mkTeacherState (transformBoard s.1 tr.2) s.2
                                 (transformDist (policy r) tr.2)
                                 (boardMask (transformBoard s.1 tr.2)) (value r)])%list
                     (setAdd (cacheKey (transformBoard s.1 tr.2) s.2) dedupe0))
          as (out' & dedupe' & Hfold & Hk' & Hsub).
        { exact (keysOf_emit out0 dedupe0 (mkTeacherState _ s.2 _ _ _) Hk0). }
        exists out', dedupe'. split; [exact Hfold|]. split; [exact Hk'|].
        intros k Hk. apply Hsub, elem_of_setAdd. now right. }
  unfold TRANSFORMS. cbn [fold_left snd]. rewrite (transformBoard_id s.1 Hlen).
  destruct (bool_decide (cacheKey s.1 s.2 ∈ dedupe)) eqn:Hin.
  - apply bool_decide_eq_true in Hin.
    destruct (Hrest (tl TRANSFORMS) out dedupe Hkeys) as (out' & dedupe' & Hfold & Hk' & Hsub).
    exists out', dedupe'. split; [exact Hfold|]. auto.
  - destruct (Hrest (tl TRANSFORMS)
                (out ++ [mkTeacherState s.1 s.2
                           (transformDist (policy r) [0; 1; 2; 3; 4; 5; 6; 7; 8]%nat)
                           (boardMask s.1) (value r)])%list
                (setAdd (cacheKey s.1 s.2) dedupe))
      as (out' & dedupe' & Hfold & Hk' & Hsub).
    { exact (keysOf_emit out dedupe (mkTeacherState s.1 s.2 _ _ _) Hkeys). }
    exists out', dedupe'. split; [exact Hfold|]. split; [exact Hk'|]. split.
    + intros k Hk. apply Hsub, elem_of_setAdd. now right.
    + apply Hsub, elem_of_setAdd. now left.
Qed.

Lemma labelling_covers (augmentSymmetries : bool) (states : list (string * PlayerSymbol)) :
  Forall (fun s => openBoard s.1) states →
  ∀ out dedupe st,
    keysOf out dedupe →
    ∃ out' dedupe' st',
      fold_left
        (fun acc s =>
           '(out, dedupe, st) ← acc;
           '(r, st') ← minimaxPolicy st s.1 s.2;
           if negb augmentSymmetries then Some (emitPlain s r (out, dedupe, st'))
           else Some (emitSymmetries s r (out, dedupe, st')))
        states (Some (out, dedupe, st)) = Some (out', dedupe', st')
      ∧ keysOf out' dedupe' ∧ dedupe ⊆ dedupe'
      ∧ ∀ s, s ∈ states → cacheKey s.1 s.2 ∈ dedupe'.
Proof.
  induction 1 as [|s states Hs _ IH]; intros out dedupe st Hkeys.
  { simpl. eexists _, _, _. split; [reflexivity|]. split; [exact Hkeys|].
    split; [reflexivity|]. intros s Hs. by apply elem_of_nil in Hs. }
  cbn [fold_left mbind option_bind].
  destruct (minimaxPolicy_total st s.1 s.2) as [[r st1] Hrun]. rewrite Hrun.
  cbn [mbind option_bind].
  assert (Hrest : ∀ out1 dedupe1,
            keysOf out1 dedupe1 → dedupe ⊆ dedupe1 → cacheKey s.1 s.2 ∈ dedupe1 →
            ∃ out' dedupe' st',
              fold_left
                (fun acc s =>
                   '(out, dedupe, st) ← acc;
                   '(r, st') ← minimaxPolicy st s.1 s.2;
                   if negb augmentSymmetries then Some (emitPlain s r (out, dedupe, st'))
                   else Some (emitSymmetries s r (out, dedupe, st')))
                states (Some (out1, dedupe1, st1)) = Some (out', dedupe', st')
              ∧ keysOf out' dedupe' ∧ dedupe ⊆ dedupe'
              ∧ ∀ s', s' ∈ s :: states → cacheKey s'.1 s'.2 ∈ dedupe').
  { intros out1 dedupe1 Hk1 Hsub1 Hin1.
    destruct (IH out1 dedupe1 st1 Hk1)
      as (out' & dedupe' & st' & Hfold & Hk' & Hsub' & Hall).
    exists out', dedupe', st'. split; [exact Hfold|]. split; [exact Hk'|].
    split; [etransitivity; eassumption|].
    intros s' [->|Hs']%elem_of_cons; [now apply Hsub' | now apply Hall]. }
  destruct augmentSymmetries; cbn [negb].
  - destruct (emitSymmetries_covers s r out dedupe st1 (proj1 Hs) Hkeys)
      as (out1 & dedupe1 & -> & Hk1 & Hsub1 & Hin1).
    apply Hrest; assumption.
  - destruct (emitPlain_covers s r out dedupe st1 Hkeys)
      as (out1 & dedupe1 & -> & Hk1 & Hsub1 & Hin1).
    apply Hrest; assumption.
Qed.

(** X16. The dataset covers the game: every open position that legal play
    reaches from the empty board, with [X] moving first, is the board and
    turn of a state of the dataset, with or without symmetry augmentation
    and whatever the tables hold. *)
Theorem generateTeacherDataset_covers (augmentSymmetries : bool) (st : Caches) :
  ∃ out st', generateTeacherDataset augmentSymmetries st = Some (out, st')
             ∧ ∀ b t, reachable b t → isTerminal b = false →
                 ∃ ts, ts ∈ out ∧ ts_board ts = b ∧ ts_turn ts = t.
Proof.
  unfold generateTeacherDataset.
  destruct (walk_fuel searchFuel ∅ [] emptyBoard X) as [[seen states] Hwalk];
    [vm_compute; lia|].
  rewrite Hwalk. cbn [mbind option_bind].
  apply walk_open in Hwalk as Hopen; [|reflexivity|constructor].
  destruct (labelling_covers augmentSymmetries states Hopen [] ∅ st)
    as (out & dedupe & st' & -> & Hkeys & _ & Hall).
  { intros k Hk. destruct (not_elem_of_empty k Hk). }
  cbn [mbind option_bind]. exists out, st'. split; [reflexivity|].
  intros b t Hreach Hterm.
  pose proof (walk_complete seen states Hwalk b t Hreach Hterm) as Hin.
  destruct (Hkeys _ (Hall (b, t) Hin)) as (ts & Hts & Hkey).
  apply cacheKey_inj in Hkey as [Hb Ht]. eauto.
Qed.

End DatasetExtras.

Module OptimalExtras.
Import GameLogic Teacher Loops TeacherProofs TeacherExtras.

#[local] Arguments negamax : simpl never.

(** ** Optimal play

    [outcomeOf b t] is the outcome of the position for the player to move
    with best play on both sides: -1 lost, 0 drawn, 1 won. *)

(** The value has the sign of the outcome. *)
Definition valueAgrees (o : Z) (v : Q) : Prop :=
  (o = 1 ∧ (0 < v)%Q) ∨ (o = 0 ∧ (v == 0)%Q) ∨ (o = -1 ∧ (v < 0)%Q).

Lemma boundedValueOf_agrees (s : jsnum) (o : Z) :
  sgn s = o → valueAgrees o (boundedValueOf s).
Proof.
  intros <-. destruct s as [|z|]; cbn [sgn boundedValueOf].
  - right. right. split; reflexivity.
  - destruct z as [|p|p].
    + right. left. split; reflexivity.
    + left. split; [reflexivity|].
      apply Qlt_le_trans with (Qmin 1 (Qred (Zpos p # 10))); [|apply Q.le_max_r].
      apply Q.min_glb_lt; [reflexivity|]. rewrite Qred_correct. reflexivity.
    + right. right. split; [reflexivity|].
      apply Q.max_lub_lt; [reflexivity|].
      apply Qle_lt_trans with (Qred (Zneg p # 10)); [apply Q.le_min_r|].
      rewrite Qred_correct. reflexivity.
  - left. split; reflexivity.
Qed.

(** The answer is optimal: the value has the sign of the outcome, and
    every move with a non-zero probability is legal and keeps the
    outcome. *)
Definition optimalAnswer (b : string) (t : PlayerSymbol) (pol : list Q) (v : Q) : Prop :=
  String.length b = 9%nat → isTerminal b = false →
  valueAgrees (outcomeOf b t) v
  ∧ ∀ i p, pol !! i = Some p → p ≠ 0%Q →
      isMoveValid b i = true
      ∧ - outcomeOf (applyMove b i t) (nextSymbol t) = outcomeOf b t.

Lemma outcomeOf_open (b : string) (t : PlayerSymbol) :
  isTerminal b = false →
  outcomeOf b t = fold_left (outcomeStep (outcome (emptiesIn b)) b t) (seq 0 9) (-1).
Proof.
  unfold isTerminal. intros [Hwin Hfull]%orb_false_iff.
  rewrite outcomeOf_eq, Hwin, Hfull. reflexivity.
Qed.

(** The loop of [minimaxPolicy] on an open nine-cell board: the best score
    has the sign of the outcome and every legal move is scored with the
    sign of what it leads to. *)
Lemma scoreMoves_outcome (cache cache' : gmap string jsnum) (b : string)
    (t : PlayerSymbol) (best : jsnum) (scores : list jsnum) :
  String.length b = 9%nat → isTerminal b = false → signOk cache →
  scoreMoves cache b t (boardMask b) = Some (best, scores, cache') →
  sgn best = outcomeOf b t
  ∧ ∀ i, (i < 9)%nat → isMoveValid b i = true →
      ∃ s, scores !! i = Some s
           ∧ sgn s = - outcomeOf (applyMove b i t) (nextSymbol t).
Proof.
  intros Hlen Hopen Hinv Hrun.
  pose (Inv := fun (k : nat) (s : jsnum * list jsnum * gmap string jsnum) =>
    signOk s.2
    ∧ List.length s.1.2 = 9%nat
    ∧ sgn s.1.1 = fold_left (outcomeStep (outcome (emptiesIn b)) b t) (seq 0 k) (-1)
    ∧ ∀ i, (i < k)%nat → isMoveValid b i = true →
        ∃ x, s.1.2 !! i = Some x
             ∧ sgn x = - outcomeOf (applyMove b i t) (nextSymbol t)).
  assert (Hend : Inv 9%nat (best, scores, cache')).
  { refine (fold_seq_invariant (scoreStep b t (boardMask b)) Inv 9 _ _ _ _ _ Hrun).
    - reflexivity.
    - split; [exact Hinv|]. split; [reflexivity|]. split; [reflexivity|].
      intros i Hi; lia.
    - intros k [[best0 scores0] c0] [[best1 scores1] c1] Hk (Hc0 & Hl0 & Hb0 & Hs0).
      cbn [fst snd] in Hc0, Hl0, Hb0, Hs0. unfold Inv, scoreStep.
      rewrite seq_S, fold_left_app. cbn [fst snd fold_left Nat.add mbind option_bind].
      unfold outcomeStep at 1. rewrite <- Hb0.
      destruct (boardMask_cases b k Hlen Hk) as [[Hv Hm]|[Hv Hm]]; rewrite Hm, Hv;
        cbn [negb].
      + rewrite bool_decide_eq_false_2 by discriminate.
        destruct (negamax searchFuel c0 (applyMove b k t) (nextSymbol t) 1)
          as [[v c2]|] eqn:Hrec; cbn [mbind option_bind]; [|discriminate].
        intros [= <- <- <-].
        pose proof (emptiesIn_after_move b k t Hk) as He.
        assert (Hd : 1 + Z.of_nat (emptiesIn (applyMove b k t)) ≤ 9) by lia.
        destruct (negamax_sign _ _ _ _ _ _ _ Hd Hc0 Hrec) as [Hsv Hc2].
        pose proof (emptiesIn_applyMove_S b k t Hk Hv) as HS.
        split; [exact Hc2|]. split; [now rewrite length_insert|]. split.
        * rewrite sgn_best, sgn_jsneg, Hsv. unfold outcomeOf. now rewrite HS.
        * intros i Hi Hvi. destruct (decide (i = k)) as [->|Hne].
          -- exists (jsneg v). split; [apply list_lookup_insert_eq; lia|].
             now rewrite sgn_jsneg, Hsv.
          -- rewrite list_lookup_insert_ne by lia. apply Hs0; [lia | exact Hvi].
      + rewrite bool_decide_eq_true_2 by reflexivity. intros [= <- <- <-].
        split; [exact Hc0|]. split; [exact Hl0|]. split; [reflexivity|].
        intros i Hi Hvi. destruct (decide (i = k)) as [->|Hne]; [congruence|].
        apply Hs0; [lia | exact Hvi]. }
  destruct Hend as (_ & _ & Hb & Hs). cbn [fst snd] in Hb, Hs.
  split; [|exact Hs]. now rewrite (outcomeOf_open b t Hopen).
Qed.

Definition optimalTables (st : Caches) : Prop :=
  signOk (negamaxCache st) ∧ entriesOk optimalAnswer st.

Lemma minimaxPolicy_optimal_step (st st' : Caches) (b : string) (t : PlayerSymbol)
    (r : PolicyResult) :
  optimalTables st → minimaxPolicy st b t = Some (r, st') →
  optimalTables st' ∧ optimalAnswer b t (policy r) (value r).
Proof.
  intros [Hsign Hent]. unfold minimaxPolicy.
  destruct (policyCache st !! cacheKey b t) as [[pol v]|] eqn:Hhit.
  { intros [= <- <-]. split; [now split | exact (Hent b t pol v Hhit)]. }
  assert (Hins : ∀ cache pol v, signOk cache → optimalAnswer b t pol v →
            optimalTables (mkCaches cache (<[cacheKey b t := (pol, v)]> (policyCache st)))).
  { intros cache pol v Hc HP. split; [exact Hc|]. intros b' t' pol' v'. cbn [policyCache].
    destruct (decide (cacheKey b t = cacheKey b' t')) as [Heq|Hne].
    - rewrite Heq, lookup_insert_eq. intros [= <- <-].
      apply cacheKey_inj in Heq as [<- <-]. exact HP.
    - rewrite lookup_insert_ne by exact Hne. apply Hent. }
  destruct (isTerminal b) eqn:Hterm.
  { intros [= <- <-]. cbn [policy value].
    assert (HP : optimalAnswer b t (repeat 0%Q 9) 0%Q) by (intros _ Hopen; congruence).
    split; [now apply Hins | exact HP]. }
  destruct (scoreMoves (negamaxCache st) b t (boardMask b))
    as [[[best scores] cache']|] eqn:Hrun; [|discriminate].
  cbn [mbind option_bind]. intros [= <- <-]. cbn [policy value].
  assert (HP : optimalAnswer b t (policyOf (bestMovesOf scores (boardMask b) best))
                 (boundedValueOf best)).
  { intros Hlen _.
    destruct (scoreMoves_outcome _ _ _ _ _ _ Hlen Hterm Hsign Hrun) as [Hbest Hscores].
    split; [now apply boundedValueOf_agrees|].
    intros i p Hp Hp0.
    assert (Hi : (i < 9)%nat).
    { apply lookup_lt_Some in Hp. now rewrite policyOf_length in Hp. }
    rewrite (policyOf_lookup _ i Hi) in Hp. injection Hp as <-.
    destruct (decide (i ∈ bestMovesOf scores (boardMask b) best)) as [Hin|Hout];
      [|contradiction].
    rewrite bestMovesOf_filter in Hin. apply list_elem_of_filter in Hin as [[Hm Hsc] _].
    destruct (boardMask_cases b i Hlen Hi) as [[Hv _]|[_ Hm0]]; [|congruence].
    split; [exact Hv|].
    destruct (Hscores i Hi Hv) as (x & Hx & Hsx).
    rewrite Hsc in Hx. injection Hx as <-. congruence. }
  split; [|exact HP]. apply Hins; [|exact HP].
  exact (scoreMoves_sign _ _ _ _ _ _ _ Hsign Hrun).
Qed.

Lemma laterCaches_optimal (st : Caches) : laterCaches freshCaches st → optimalTables st.
Proof.
  induction 1 as [|st1 st2 b t r _ IH Hcall].
  - split; [apply signOk_empty|]. intros b t pol v H. simpl in H.
    now rewrite lookup_empty in H.
  - now destruct (minimaxPolicy_optimal_step st1 st2 b t r IH Hcall).
Qed.

(** X17. [minimaxPolicy] plays optimally whatever the tables hold.  On an
    open nine-cell board and after any sequence of earlier queries, the
    value it returns is positive, zero or negative as the position is won,
    drawn or lost for the player to move with best play on both sides, and
    every move that gets a non-zero probability is legal and leads to a
    position of the same outcome. *)
Theorem minimaxPolicy_optimal (st : Caches) (b : string) (t : PlayerSymbol) :
  laterCaches freshCaches st →
  String.length b = 9%nat →
  isTerminal b = false →
  ∃ r st', minimaxPolicy st b t = Some (r, st')
           ∧ valueAgrees (outcomeOf b t) (value r)
           ∧ ∀ i p, policy r !! i = Some p → p ≠ 0%Q →
               isMoveValid b i = true
               ∧ - outcomeOf (applyMove b i t) (nextSymbol t) = outcomeOf b t.
Proof.
  intros Hlater Hlen Hopen.
  destruct (minimaxPolicy_total st b t) as [[r st'] Hrun]. exists r, st'.
  split; [exact Hrun|].
  destruct (minimaxPolicy_optimal_step st st' b t r (laterCaches_optimal st Hlater) Hrun)
    as [_ HP].
  exact (HP Hlen Hopen).
Qed.

Lemma minimaxPolicy_optimal_witness :
  ∃ r st', minimaxPolicy freshCaches "XX_OO____" X = Some (r, st')
           ∧ valueAgrees (outcomeOf "XX_OO____" X) (value r)
           ∧ ∀ i p, policy r !! i = Some p → p ≠ 0%Q →
               isMoveValid "XX_OO____" i = true
               ∧ - outcomeOf (applyMove "XX_OO____" i X) (nextSymbol X)
                 = outcomeOf "XX_OO____" X.
Proof.
  apply (minimaxPolicy_optimal freshCaches "XX_OO____" X);
    [apply later_here | reflexivity | reflexivity].
Defined.

End OptimalExtras.

Module NetworkExtras.
Import GameLogic Network NetworkApi Loops NetworkProofs BackwardProofs SoftmaxProofs
  SnapshotProofs.
Local Open Scope R_scope.

(** ** The forward pass *)

Section Forward.
Variable Mexp : R → R.
Variable Mtanh : R → R.
Variable Mrandom : nat → R.

(** X18. [forward] stores activations and dropout masks, and nothing else:
    the weights and biases of every layer and of the value head, the
    configuration, the training counter and the hyperparameters are as
    before the call. *)
Theorem forward_keeps_parameters (net net' : NeuralNetwork) (rs rs' : nat)
    (input : list R) (mask : option (list Z)) (out : list R * R) :
  forward Mexp Mtanh Mrandom net rs input mask = Some (net', rs', out) →
  map weights (layers net') = map weights (layers net)
  ∧ map biases (layers net') = map biases (layers net)
  ∧ weights (valueHead net') = weights (valueHead net)
  ∧ biases (valueHead net') = biases (valueHead net)
  ∧ sameSettings net net'.
Proof.
  intros (Hl & Hv & Hs)%forward_parameters.
  assert (Hw : map weights (layers net') = map weights (layers net)).
  { rewrite <- !(map_map parameters fst). simpl. now rewrite Hl. }
  assert (Hb : map biases (layers net') = map biases (layers net)).
  { rewrite <- !(map_map parameters snd). simpl. now rewrite Hl. }
  unfold parameters in Hv. injection Hv as Hvw Hvb. auto.
Qed.

Hypothesis Mexp_0 : Mexp 0 = 1.
Hypothesis Mexp_nonneg : ∀ x, 0 <= Mexp x.

(** The softmax of at least one logit is a distribution, with or without
    mask: the largest adjusted logit contributes [exp 0 = 1] to the sum, so
    the fallback [|| 1] is not taken. *)
Lemma softmax_distribution (logits : list R) (mask : option (list Z)) :
  logits ≠ [] →
  sumR (softmax Mexp logits mask) = 1
  ∧ Forall (fun p => 0 <= p <= 1) (softmax Mexp logits mask).
Proof.
  intros Hne. unfold softmax.
  pose proof (adjustLogits_length logits mask) as Hlen.
  destruct (adjustLogits logits mask) as [|a rest] eqn:Hadj.
  { destruct logits; [contradiction | discriminate]. }
  set (M := fold_left Rmax rest a).
  set (exps := map (fun v => Mexp (v - M)) (a :: rest)).
  assert (Hpos : Forall (fun y => 0 <= y) exps).
  { apply Forall_forall. intros y Hy. apply list_elem_of_fmap in Hy as (v & -> & _).
    apply Mexp_nonneg. }
  assert (Hone : 1 ∈ exps).
  { apply list_elem_of_fmap. exists M. split.
    - replace (M - M) with 0 by lra. now rewrite Mexp_0.
    - apply fold_left_Rmax_elem. }
  assert (Hsum : 1 <= sumR exps) by now apply sumR_ge_elem.
  rewrite fold_left_Rplus, Rplus_0_l.
  destruct (Req_dec_T (sumR exps) 0) as [H0|_]; [lra|].
  split.
  - rewrite sumR_map_div. field. lra.
  - apply Forall_forall. intros p Hp. apply list_elem_of_fmap in Hp as (e & -> & He).
    assert (0 <= e) by (rewrite Forall_forall in Hpos; now apply Hpos).
    assert (e <= sumR exps) by now apply sumR_ge_elem.
    split.
    + apply Rmult_le_pos; [assumption|]. left. apply Rinv_0_lt_compat. lra.
    + apply Rmult_le_reg_r with (sumR exps); [lra|]. field_simplify; lra.
Qed.

(** X19. Whatever the mask, the policy that [forward] returns for a
    network with at least one output is a distribution over all the
    indices: every entry lies in [0, 1] and the entries sum to 1. *)
Theorem forward_policy_distribution (net net' : NeuralNetwork) (rs rs' : nat)
    (input : list R) (mask : option (list Z)) (policy : list R) (value : R) :
  forward Mexp Mtanh Mrandom net rs input mask = Some (net', rs', (policy, value)) →
  policy ≠ [] →
  sumR policy = 1 ∧ Forall (fun p => 0 <= p <= 1) policy.
Proof.
  intros (logits & _ & ->)%forward_policy Hne.
  apply softmax_distribution. intros ->. now apply Hne.
Qed.

(** ** [predict] *)

(** [mask[i] === 0] *)
Definition maskedAt (mask : option (list Z)) (i : nat) : Prop :=
  ∃ m, mask = Some m ∧ m !! i = Some 0%Z.

(** The state of the loop of [predict] after the indices below [k]. *)
Definition bestSoFar (policy : list R) (mask : option (list Z)) (k : nat)
    (acc : Z * option R) : Prop :=
  (acc = (-1, None)%Z ∧ ∀ i, (i < k)%nat → maskedAt mask i)
  ∨ ∃ b s, acc = (Z.of_nat b, Some s) ∧ (b < k)%nat
           ∧ policy !! b = Some s ∧ ¬ maskedAt mask b
           ∧ ∀ i x, (i < k)%nat → policy !! i = Some x → ¬ maskedAt mask i →
               x <= s ∧ ((i < b)%nat → x < s).

Lemma predictStep_masked (mask : option (list Z)) (i : nat) :
  match mask with
  | Some m => bool_decide (m !! i = Some 0%Z)
  | None => false
  end = true ↔ maskedAt mask i.
Proof.
  unfold maskedAt. destruct mask as [m|]; split.
  - intros H%bool_decide_eq_true. eauto.
  - intros (m' & [= <-] & H). now apply bool_decide_eq_true_2.
  - discriminate.
  - intros (m' & [=] & _).
Qed.

Lemma bestIndex_loop (policy : list R) (mask : option (list Z)) (k : nat) :
  (k ≤ List.length policy)%nat →
  bestSoFar policy mask k (fold_left (predictStep policy mask) (seq 0 k) (-1, None)%Z).
Proof.
  induction k as [|k IH]; intros Hk.
  { left. split; [reflexivity|]. intros i Hi. lia. }
  rewrite seq_S, fold_left_app. cbn [fold_left Nat.add].
  specialize (IH ltac:(lia)).
  set (acc := fold_left (predictStep policy mask) (seq 0 k) (-1, None)%Z) in *.
  clearbody acc.
  destruct (lookup_lt_is_Some_2 policy k ltac:(lia)) as [s Hs].
  unfold predictStep. rewrite Hs.
  destruct (match mask with Some m => bool_decide (m !! k = Some 0%Z) | None => false end)
    eqn:Hm.
  - apply predictStep_masked in Hm.
    destruct IH as [[-> Hall]|(b & sb & -> & Hb & Hpb & Hub & Hmax)].
    + left. split; [reflexivity|]. intros i Hi.
      destruct (decide (i = k)) as [->|]; [exact Hm | apply Hall; lia].
    + right. exists b, sb. split; [reflexivity|]. split; [lia|]. split; [exact Hpb|].
      split; [exact Hub|]. intros i x Hi Hx Hu.
      destruct (decide (i = k)) as [->|]; [contradiction | apply Hmax; [lia | assumption..]].
  - assert (Hu : ¬ maskedAt mask k).
    { intros Hc. apply predictStep_masked in Hc. congruence. }
    destruct IH as [[-> Hall]|(b & sb & -> & Hb & Hpb & Hub & Hmax)]; cbn [snd].
    + right. exists k, s. split; [reflexivity|]. split; [lia|]. split; [exact Hs|].
      split; [exact Hu|]. intros i x Hi Hx Hui.
      destruct (decide (i = k)) as [->|Hne].
      * rewrite Hs in Hx. injection Hx as <-. split; [lra | lia].
      * exfalso. apply Hui, Hall. lia.
    + destruct (Rlt_dec sb s) as [Hlt|Hge].
      * right. exists k, s. split; [reflexivity|]. split; [lia|]. split; [exact Hs|].
        split; [exact Hu|]. intros i x Hi Hx Hui.
        destruct (decide (i = k)) as [->|Hne].
        -- rewrite Hs in Hx. injection Hx as <-. split; [lra | lia].
        -- destruct (Hmax i x ltac:(lia) Hx Hui) as [Hle _]. split; [lra | intros _; lra].
      * right. exists b, sb. split; [reflexivity|]. split; [lia|]. split; [exact Hpb|].
        split; [exact Hub|]. intros i x Hi Hx Hui.
        destruct (decide (i = k)) as [->|Hne].
        -- rewrite Hs in Hx. injection Hx as <-. split; [lra | lia].
        -- apply Hmax; [lia | assumption..].
Qed.

(** X20. [predict] returns -1 when every index of the policy is masked (or
    the policy is empty); otherwise it returns the first index that is not
    masked and whose probability no other unmasked index exceeds.  It never
    returns a masked index. *)
Theorem predict_best (net net' : NeuralNetwork) (rs rs' : nat) (input : list R)
    (mask : option (list Z)) (best : Z) :
  predict Mexp Mtanh Mrandom net rs input mask = Some (net', rs', best) →
  ∃ policy value,
    forward Mexp Mtanh Mrandom net rs input mask = Some (net', rs', (policy, value))
    ∧ ((best = (-1)%Z ∧ ∀ i, (i < List.length policy)%nat → maskedAt mask i)
       ∨ ∃ k s, best = Z.of_nat k ∧ policy !! k = Some s ∧ ¬ maskedAt mask k
                ∧ ∀ i x, policy !! i = Some x → ¬ maskedAt mask i →
                    x <= s ∧ ((i < k)%nat → x < s)).
Proof.
  unfold predict.
  destruct (forward Mexp Mtanh Mrandom net rs input mask) as [[[n r] [policy value]]|];
    [|discriminate].
  cbn [mbind option_bind]. intros [= <- <- <-]. exists policy, value.
  split; [reflexivity|]. unfold bestIndex.
  destruct (bestIndex_loop policy mask (List.length policy) (Nat.le_refl _))
    as [[-> Hall]|(b & s & -> & Hb & Hpb & Hub & Hmax)]; cbn [fst].
  - left. split; [reflexivity | exact Hall].
  - right. exists b, s. split; [reflexivity|]. split; [exact Hpb|]. split; [exact Hub|].
    intros i x Hx Hu. apply Hmax; [|assumption..]. now apply lookup_lt_Some in Hx.
Qed.

End Forward.


Lemma forward_keeps_parameters_witness :
  ∃ net' rs' out,
    forward exp tanh noRandom (nineNet 0) 0 [1] (Some firstLegal) = Some (net', rs', out)
    ∧ map weights (layers net') = map weights (layers (nineNet 0))
    ∧ map biases (layers net') = map biases (layers (nineNet 0))
    ∧ weights (valueHead net') = weights (valueHead (nineNet 0))
    ∧ biases (valueHead net') = biases (valueHead (nineNet 0))
    ∧ sameSettings (nineNet 0) net'.
Proof.
  eexists _, _, _. split; [reflexivity|].
  eapply (forward_keeps_parameters exp tanh noRandom (nineNet 0) _ 0%nat _ [1]
            (Some firstLegal)).
  reflexivity.
Defined.

Lemma forward_policy_distribution_witness :
  ∃ net' rs' policy value,
    forward exp tanh noRandom (nineNet 0) 0 [1] (Some firstLegal)
    = Some (net', rs', (policy, value))
    ∧ sumR policy = 1 ∧ Forall (fun p => 0 <= p <= 1) policy.
Proof.
  eexists _, _, _, _. split; [reflexivity|].
  eapply (forward_policy_distribution exp tanh noRandom exp_0
            (fun x => Rlt_le _ _ (exp_pos x)) (nineNet 0) _ 0%nat _ [1] (Some firstLegal)).
  - reflexivity.
  - intros Hnil. apply (f_equal (@List.length R)) in Hnil.
    change (9%nat = 0%nat) in Hnil. discriminate Hnil.
Defined.

Lemma predict_best_witness :
  ∃ net' rs' best policy value,
    predict exp tanh noRandom (nineNet 0) 0 [1] (Some firstLegal) = Some (net', rs', best)
    ∧ forward exp tanh noRandom (nineNet 0) 0 [1] (Some firstLegal)
      = Some (net', rs', (policy, value))
    ∧ ((best = (-1)%Z ∧ ∀ i, (i < List.length policy)%nat → maskedAt (Some firstLegal) i)
       ∨ ∃ k s, best = Z.of_nat k ∧ policy !! k = Some s ∧ ¬ maskedAt (Some firstLegal) k
                ∧ ∀ i x, policy !! i = Some x → ¬ maskedAt (Some firstLegal) i →
                    x <= s ∧ ((i < k)%nat → x < s)).
Proof.
  destruct (predict exp tanh noRandom (nineNet 0) 0 [1] (Some firstLegal))
    as [[[net' rs'] best]|] eqn:Hp.
  - exists net', rs', best.
    destruct (predict_best exp tanh noRandom (nineNet 0) net' 0%nat rs' [1]
                (Some firstLegal) best Hp) as (policy & value & Hf & Hbest).
    exists policy, value. auto.
  - discriminate Hp.
Defined.

(** ** The update step *)

Section Update.
Variable net : NeuralNetwork.

(** A relation between a layer and the layer after its update that each
    update establishes holds between the layers before and after
    [backward]. *)
Variable Rel : Layer → Layer → Prop.
Hypothesis Rel_update : ∀ layer prev delta W' b',
  updateWeights net prev delta (weights layer) = Some W' →
  updateBiases net delta (biases layer) = Some b' →
  Rel layer (setUpdate layer W' b' (weightDeltasOf net prev delta) (biasDeltasOf net delta)).

Lemma backwardTrunk_layers (revTrunk : list Layer) :
  ∀ sharedDelta revTrunk',
    backwardTrunk net revTrunk sharedDelta = Some revTrunk' →
    Forall2 Rel revTrunk revTrunk'.
Proof.
  induction revTrunk as [|layer below IH]; intros sharedDelta revTrunk'; simpl.
  - intros [= <-]. constructor.
  - destruct (mapM _ _) as [delta|]; simpl; [|discriminate].
    destruct (updateWeights net _ delta (weights layer)) as [W'|] eqn:HW; simpl;
      [|discriminate].
    destruct (updateBiases net delta (biases layer)) as [b'|] eqn:Hb; simpl;
      [|discriminate].
    destruct (backThrough _ delta W') as [nextShared|]; simpl; [|discriminate].
    destruct (backwardTrunk net below nextShared) as [below'|] eqn:Hbelow; simpl;
      [|discriminate].
    intros [= <-]. constructor; [now apply Rel_update | eapply IH; exact Hbelow].
Qed.

Lemma backward_layers (net' : NeuralNetwork) (policyDelta valueDelta : list R) :
  backward net policyDelta valueDelta = Some net' →
  Forall2 Rel (layers net) (layers net') ∧ Rel (valueHead net) (valueHead net').
Proof.
  unfold backward.
  destruct (splitLast (layers net)) as [[trunk policyLayer]|] eqn:Hsplit; simpl;
    [|discriminate].
  apply splitLast_app in Hsplit.
  destruct (updateWeights net _ policyDelta (weights policyLayer)) as [Wp|] eqn:HWp; simpl;
    [|discriminate].
  destruct (updateBiases net policyDelta (biases policyLayer)) as [bp|] eqn:Hbp; simpl;
    [|discriminate].
  destruct (valueDelta !! 0%nat) as [vd0|]; simpl; [|discriminate].
  destruct (updateWeights net _ [vd0] (weights (valueHead net))) as [Wv|] eqn:HWv; simpl;
    [|discriminate].
  destruct (updateBiases net [vd0] (biases (valueHead net))) as [bv|] eqn:Hbv; simpl;
    [|discriminate].
  destruct (backThrough _ policyDelta (weights policyLayer)) as [fromPolicy|]; simpl;
    [|discriminate].
  destruct (mapM _ _) as [sharedDelta|]; simpl; [|discriminate].
  destruct (backwardTrunk net (rev trunk) sharedDelta) as [revTrunk'|] eqn:Htrunk; simpl;
    [|discriminate].
  intros [= <-]. simpl. split.
  - rewrite Hsplit. apply Forall2_app.
    + rewrite <- (rev_involutive trunk) at 1. apply Forall2_rev.
      eapply backwardTrunk_layers. exact Htrunk.
    + constructor; [now apply Rel_update | constructor].
  - now apply Rel_update.
Qed.

End Update.

(** The biases after one call of [updateBiases]: each bias that has a
    gradient moves by the learning rate times the clipped gradient, the
    others stay. *)
Definition steppedBiases (net : NeuralNetwork) (b b' : list R) : Prop :=
  List.length b' = List.length b
  ∧ ∀ j x x', b !! j = Some x → b' !! j = Some x' →
      x' = x ∨ ∃ d, x' = x - currentLearningRate net * clipGradient net d.

Lemma updateBiases_stepped (net : NeuralNetwork) (delta b b' : list R) :
  updateBiases net delta b = Some b' → steppedBiases net b b'.
Proof.
  intros Hrun.
  pose (Inv := fun (k : nat) (c : list R) =>
    List.length c = List.length b
    ∧ ∀ j x x', b !! j = Some x → c !! j = Some x' →
        ((k ≤ j)%nat ∧ x' = x)
        ∨ ((j < k)%nat ∧ ∃ d, x' = x - currentLearningRate net * clipGradient net d)).
  assert (Hend : Inv (List.length delta) b').
  { refine (fold_seq_invariant _ Inv (List.length delta) b b' _ _ _ Hrun).
    - reflexivity.
    - split; [reflexivity|]. intros j x x' Hx Hx'. left. split; [lia | congruence].
    - intros k c c' Hk [Hlen Hcells]. cbn [mbind option_bind].
      destruct (delta !! k) as [d|]; cbn [mbind option_bind]; [|discriminate].
      destruct (c !! k) as [ck|] eqn:Hck; cbn [mbind option_bind]; [|discriminate].
      intros [= <-]. split; [now rewrite length_insert|].
      intros j x x' Hx Hx'. destruct (decide (j = k)) as [->|Hne].
      + rewrite list_lookup_insert_eq in Hx' by (apply lookup_lt_Some in Hck; lia).
        injection Hx' as <-. right. split; [lia|]. exists d.
        destruct (Hcells k x ck Hx Hck) as [[_ ->]|[Hlt _]]; [reflexivity | lia].
      + rewrite list_lookup_insert_ne in Hx' by congruence.
        destruct (Hcells j x x' Hx Hx') as [[Hle ->]|[Hlt Hd]].
        * left. split; [lia | reflexivity].
        * right. split; [lia | exact Hd]. }
  destruct Hend as [Hlen Hcells]. split; [exact Hlen|].
  intros j x x' Hx Hx'. destruct (Hcells j x x' Hx Hx') as [[_ ->]|[_ Hd]]; auto.
Qed.

Lemma steppedBiases_bound (net : NeuralNetwork) (b b' : list R) (j : nat) (x x' : R) :
  0 <= currentLearningRate net → 0 <= gradientClip net →
  steppedBiases net b b' → b !! j = Some x → b' !! j = Some x' →
  Rabs (x' - x) <= currentLearningRate net * gradientClip net.
Proof.
  intros Hlr Hc [_ Hcells] Hx Hx'.
  destruct (Hcells j x x' Hx Hx') as [->|[d ->]].
  - replace (x - x) with 0 by lra. rewrite Rabs_R0. now apply Rmult_le_pos.
  - replace (x - currentLearningRate net * clipGradient net d - x)
      with (- (currentLearningRate net * clipGradient net d)) by lra.
    rewrite Rabs_Ropp, Rabs_mult, (Rabs_pos_eq _ Hlr).
    apply Rmult_le_compat_l; [exact Hlr|].
    pose proof (clipGradient_bound net d) as Hb. now rewrite (Rabs_pos_eq _ Hc) in Hb.
Qed.

(** X21. In a step of [backward], with a learning rate and a clip magnitude
    that are not negative, no bias of a layer or of the value head moves by
    more than [learningRate * clipMagnitude]; the biases are not decayed. *)
Theorem bias_step_bound (net net' : NeuralNetwork) (policyDelta valueDelta : list R) :
  0 <= currentLearningRate net →
  0 <= gradientClip net →
  backward net policyDelta valueDelta = Some net' →
  (∀ l L L' j x x',
      layers net !! l = Some L → layers net' !! l = Some L' →
      biases L !! j = Some x → biases L' !! j = Some x' →
      Rabs (x' - x) <= currentLearningRate net * gradientClip net)
  ∧ (∀ j x x',
      biases (valueHead net) !! j = Some x → biases (valueHead net') !! j = Some x' →
      Rabs (x' - x) <= currentLearningRate net * gradientClip net).
Proof.
  intros Hlr Hc Hrun.
  destruct (backward_layers net (fun L L' => steppedBiases net (biases L) (biases L')))
    with (net' := net') (policyDelta := policyDelta) (valueDelta := valueDelta)
    as [Hlayers Hvalue]; [|exact Hrun|].
  { intros layer prev delta W' b' _ Hb. cbn. now apply (updateBiases_stepped net delta). }
  split.
  - intros l L L' j x x' HL HL'.
    apply (steppedBiases_bound net (biases L) (biases L') j x x' Hlr Hc).
    exact (Forall2_lookup_lr _ _ _ _ _ _ Hlayers HL HL').
  - intros j x x'. now apply (steppedBiases_bound net _ _ j x x' Hlr Hc).
Qed.

Lemma bias_step_bound_witness :
  ∃ net',
    backward directNet [100] [1] = Some net'
    ∧ (∀ l L L' j x x',
          layers directNet !! l = Some L → layers net' !! l = Some L' →
          biases L !! j = Some x → biases L' !! j = Some x' →
          Rabs (x' - x) <= currentLearningRate directNet * gradientClip directNet)
    ∧ (∀ j x x',
          biases (valueHead directNet) !! j = Some x →
          biases (valueHead net') !! j = Some x' →
          Rabs (x' - x) <= currentLearningRate directNet * gradientClip directNet).
Proof.
  eexists. split; [reflexivity|].
  eapply (bias_step_bound directNet _ [100] [1]); [simpl; lra | simpl; lra | reflexivity].
Defined.

(** X22. After a step of [backward], the diagnostic buffers that
    [getLayerDeltas] returns hold magnitudes of clipped gradients: every
    entry lies between 0 and the clip magnitude. *)
Theorem layer_deltas_range (net net' : NeuralNetwork) (policyDelta valueDelta : list R)
    (l : nat) (wd : list (list R)) (bd : list R) :
  backward net policyDelta valueDelta = Some net' →
  getLayerDeltas net' l = Some (wd, bd) →
  Forall (Forall (fun e => 0 <= e <= Rabs (gradientClip net))) wd
  ∧ Forall (fun e => 0 <= e <= Rabs (gradientClip net)) bd.
Proof.
  intros Hrun Hget.
  pose (inRange := fun e : R => 0 <= e <= Rabs (gradientClip net)).
  destruct (backward_layers net
              (fun _ L' => Forall (Forall inRange) (weightDeltas L')
                           ∧ Forall inRange (biasDeltas L')))
    with (net' := net') (policyDelta := policyDelta) (valueDelta := valueDelta)
    as [Hlayers _]; [|exact Hrun|].
  { intros layer prev delta W' b' _ _. cbn. unfold weightDeltasOf, biasDeltasOf. split.
    - apply Forall_forall. intros row Hrow.
      apply list_elem_of_fmap in Hrow as (p & -> & _).
      apply Forall_forall. intros e He. apply list_elem_of_fmap in He as (d & -> & _).
      split; [apply Rabs_pos | apply clipGradient_bound].
    - apply Forall_forall. intros e He. apply list_elem_of_fmap in He as (d & -> & _).
      split; [apply Rabs_pos | apply clipGradient_bound]. }
  unfold getLayerDeltas in Hget.
  destruct (layers net' !! l) as [L'|] eqn:HL'; [|discriminate].
  cbn in Hget. injection Hget as <- <-.
  destruct (lookup_lt_is_Some_2 (layers net) l) as [L HL].
  { apply lookup_lt_Some in HL'. now rewrite (Forall2_length _ _ _ Hlayers). }
  exact (Forall2_lookup_lr _ _ _ _ _ _ Hlayers HL HL').
Qed.

Lemma layer_deltas_range_witness :
  ∃ net' wd bd,
    backward directNet [100] [1] = Some net'
    ∧ getLayerDeltas net' 0 = Some (wd, bd)
    ∧ Forall (Forall (fun e => 0 <= e <= Rabs (gradientClip directNet))) wd
    ∧ Forall (fun e => 0 <= e <= Rabs (gradientClip directNet)) bd.
Proof.
  eexists _, _, _. split; [reflexivity|]. split; [reflexivity|].
  eapply (layer_deltas_range directNet _ [100] [1] 0%nat); reflexivity.
Defined.

End NetworkExtras.

(** * Construction, training and snapshots: further properties *)

Module LifecycleExtras.
Import GameLogic Teacher Network NetworkApi Loops TeacherProofs NetworkProofs BackwardProofs.
Import SoftmaxProofs SnapshotProofs NetworkExtras.
Local Open Scope R_scope.

Lemma sameSettings_trans (a b c : NeuralNetwork) :
  sameSettings a b → sameSettings b c → sameSettings a c.
Proof. unfold sameSettings. intuition congruence. Qed.

(** ** [train] *)

Section Training.
Variable Mexp : R → R.
Variable Mtanh : R → R.
Variable Mlog : R → R.
Variable Mrandom : nat → R.

Lemma trainExample_settings (net net' : NeuralNetwork) (rs rs' : nat)
    (example : TrainingExample) (loss : R) :
  trainExample Mexp Mtanh Mlog Mrandom net rs example = Some (net', rs', loss) →
  sameSettings net net'.
Proof.
  unfold trainExample.
  destruct (forward Mexp Mtanh Mrandom net rs _ _) as [[[net1 rs1] [policy value]]|] eqn:Hf;
    simpl; [|discriminate].
  destruct (mapM _ _) as [policyGrad|]; destruct (mapM _ _) as [terms|]; simpl;
    try discriminate.
  destruct (backward net1 policyGrad _) as [net2|] eqn:Hb; simpl; [|discriminate].
  intros [= <- _ _].
  apply forward_parameters in Hf as (_ & _ & Hsame).
  apply backward_stepped in Hb as (_ & _ & Hsame').
  exact (sameSettings_trans _ _ _ Hsame Hsame').
Qed.

(** The loop of [train]: the settings stay, and the weights of the
    examples are added up. *)
Lemma train_loop (exs : list TrainingExample) :
  ∀ n0 r0 l0 w0 n1 r1 l1 w1,
    fold_left
      (fun (acc : option (NeuralNetwork * nat * R * R)) example =>
         '(net, rs, totalLoss, totalWeight) ← acc;
         '(net', rs', sampleLoss) ← trainExample Mexp Mtanh Mlog Mrandom net rs example;
         Some (net', rs', totalLoss + sampleLoss * exWeight example,
               totalWeight + exWeight example))
      exs (Some (n0, r0, l0, w0)) = Some (n1, r1, l1, w1) →
    sameSettings n0 n1 ∧ w1 = w0 + sumR (map exWeight exs).
Proof.
  induction exs as [|ex exs IH]; intros n0 r0 l0 w0 n1 r1 l1 w1; simpl.
  - intros [= <- _ _ <-]. split; [repeat split | lra].
  - destruct (trainExample Mexp Mtanh Mlog Mrandom n0 r0 ex) as [[[n' r'] sl]|] eqn:Hex;
      simpl.
    + intros Hrest. apply IH in Hrest as [Hsame ->].
      apply trainExample_settings in Hex.
      split; [exact (sameSettings_trans _ _ _ Hex Hsame) | lra].
    + rewrite fold_left_None; [discriminate|reflexivity].
Qed.

(** X23. A call of [train] that returns adds the number of examples to the
    training count and leaves the network in inference mode; it changes
    neither the configuration nor the learning rate, the loss weight, the
    weight decay, the clip magnitude or the dropout rate.  The loss it
    returns is 0 when the weights of the examples add up to 0 or less, and
    without examples no parameter changes. *)
Theorem train_bookkeeping (net net' : NeuralNetwork) (rs rs' : nat)
    (examples : list TrainingExample) (loss : R) :
  train Mexp Mtanh Mlog Mrandom net rs examples = Some (net', rs', loss) →
  trainingCount net' = (trainingCount net + Z.of_nat (List.length examples))%Z
  ∧ isTraining net' = false
  ∧ config net' = config net
  ∧ currentLearningRate net' = currentLearningRate net
  ∧ valueLossWeight net' = valueLossWeight net
  ∧ weightDecay net' = weightDecay net
  ∧ gradientClip net' = gradientClip net
  ∧ dropout net' = dropout net
  ∧ (sumR (map exWeight examples) <= 0 → loss = 0)
  ∧ (examples = [] →
     layers net' = layers net ∧ valueHead net' = valueHead net ∧ rs' = rs).
Proof.
  unfold train.
  destruct (fold_left _ examples _) as [[[[n1 r1] l1] w1]|] eqn:Hfold; simpl;
    [|discriminate].
  intros [= <- <- <-]. cbn.
  pose proof (train_loop examples _ _ _ _ _ _ _ _ Hfold) as [Hsame Hw].
  destruct Hsame as (Hc & Ht & Hv & Hd & Hg & Hl & Hp & _). cbn in *.
  split_and!; try assumption; try reflexivity.
  - now rewrite Ht.
  - intros Hsum. destruct (Rlt_dec 0 w1) as [Hpos|_]; [lra | reflexivity].
  - intros ->. simpl in Hfold. injection Hfold as <- <- _ _. auto.
Qed.

End Training.

Lemma train_bookkeeping_witness :
  ∃ net' rs' loss,
    train exp tanh ln noRandom directNet 0 [oneExample] = Some (net', rs', loss)
    ∧ trainingCount net' = 1%Z
    ∧ isTraining net' = false
    ∧ currentLearningRate net' = currentLearningRate directNet.
Proof.
  destruct (train exp tanh ln noRandom directNet 0 [oneExample])
    as [[[net' rs'] loss]|] eqn:Htrain.
  - exists net', rs', loss. split; [reflexivity|].
    destruct (train_bookkeeping exp tanh ln noRandom directNet net' 0%nat rs'
                [oneExample] loss Htrain) as (Hcount & Hmode & _ & Hrate & _).
    split_and!; [exact Hcount | exact Hmode | exact Hrate].
  - discriminate Htrain.
Defined.

(** ** [loadSnapshot] *)

(** X24. When [loadSnapshot] returns without an error, every layer holds
    the weights and the biases that the snapshot lists at its index, the
    value head holds the snapshot's when the snapshot has both its weights
    and its biases and is untouched otherwise, and the training count is the
    snapshot's.  The configuration stays the network's own, and the learning
    rate becomes the one of that configuration: the configuration stored in
    the snapshot is not read. *)
Theorem loadSnapshot_loaded (net : NeuralNetwork) (snapshot : NetworkSnapshot) :
  (loadSnapshot net snapshot).2 = None →
  List.length (layers (loadSnapshot net snapshot).1) = List.length (layers net)
  ∧ (∀ i l, layers (loadSnapshot net snapshot).1 !! i = Some l →
       snapWeights snapshot !! i = Some (weights l)
       ∧ snapBiases snapshot !! i = Some (biases l))
  ∧ (∀ w b, valueHeadWeights snapshot = Some w → valueHeadBiases snapshot = Some b →
       weights (valueHead (loadSnapshot net snapshot).1) = w
       ∧ biases (valueHead (loadSnapshot net snapshot).1) = b)
  ∧ (valueHeadWeights snapshot = None ∨ valueHeadBiases snapshot = None →
     valueHead (loadSnapshot net snapshot).1 = valueHead net)
  ∧ trainingCount (loadSnapshot net snapshot).1 = snapTrainingCount snapshot
  ∧ config (loadSnapshot net snapshot).1 = config net
  ∧ currentLearningRate (loadSnapshot net snapshot).1 = learningRate (config net).
Proof.
  intros Hok.
  destruct (loadSnapshot_layers net snapshot) as (Hlayers & Herr & Hcount & _).
  rewrite Herr in Hok.
  destruct (loadLayers_prefix (layers net) 0 snapshot)
    as (k & Hk & Hloaded & Hkept & Hnone & _).
  specialize (Hnone Hok). subst k.
  assert (Hlen : List.length (layers (loadSnapshot net snapshot).1)
                 = List.length (layers net)).
  { rewrite Hlayers.
    destruct (decide (List.length (loadLayers 0 (layers net) snapshot).1
                      = List.length (layers net))) as [|Hne]; [assumption|].
    exfalso.
    destruct (Nat.lt_ge_cases (List.length (loadLayers 0 (layers net) snapshot).1)
                (List.length (layers net))) as [Hlt|Hge].
    - destruct (Hloaded _ Hlt) as (l & w & b & _ & _ & _ & _ & Hl).
      apply lookup_lt_Some in Hl. lia.
    - assert (Hlt : (List.length (layers net)
                     < List.length (loadLayers 0 (layers net) snapshot).1)%nat) by lia.
      apply lookup_lt_is_Some_2 in Hlt as [l Hl].
      rewrite Hkept in Hl by lia. apply lookup_lt_Some in Hl. lia. }
  split; [exact Hlen|]. split.
  { intros i l Hl. rewrite Hlayers in Hl.
    assert (Hi : (i < List.length (layers net))%nat).
    { rewrite <- Hlen, Hlayers. now apply lookup_lt_Some in Hl. }
    destruct (Hloaded i Hi) as (l0 & w & b & _ & Hw & Hb & _ & Hl').
    rewrite Hl in Hl'. injection Hl' as ->. now simpl in *. }
  clear Hloaded Hkept Hlen Hlayers Herr Hk. revert Hcount.
  unfold loadSnapshot.
  destruct (loadLayers 0 (layers net) snapshot) as [ls err]. simpl in Hok. subst err.
  cbn. intros Hcount. split_and!; try reflexivity.
  - intros w b -> ->. now simpl.
  - intros [-> | H]; [reflexivity|].
    rewrite H. now destruct (valueHeadWeights snapshot).
Qed.

(** A snapshot that fits [smallNet], without biases for the value head and
    with another learning rate in its configuration. *)
Definition fittingSnapshot : NetworkSnapshot :=
  mkNetworkSnapshot (mkNetworkConfig 1 [1%Z] 1 0.5 None None None None)
    [ [[2]]; [[3]] ] [ [4]; [5] ] (Some [[6]]) None 7.

Lemma loadSnapshot_loaded_witness :
  (loadSnapshot smallNet fittingSnapshot).2 = None
  ∧ (∀ i l, layers (loadSnapshot smallNet fittingSnapshot).1 !! i = Some l →
       snapWeights fittingSnapshot !! i = Some (weights l)
       ∧ snapBiases fittingSnapshot !! i = Some (biases l))
  ∧ valueHead (loadSnapshot smallNet fittingSnapshot).1 = valueHead smallNet
  ∧ trainingCount (loadSnapshot smallNet fittingSnapshot).1 = 7%Z
  ∧ currentLearningRate (loadSnapshot smallNet fittingSnapshot).1 = 0.01.
Proof.
  split; [reflexivity|].
  destruct (loadSnapshot_loaded smallNet fittingSnapshot eq_refl)
    as (_ & Hlayers & _ & Hhead & Hcount & _ & Hrate).
  split_and!; [exact Hlayers | apply Hhead; now right | exact Hcount | exact Hrate].
Defined.

(** X25. A snapshot that lists fewer weight arrays, or fewer bias arrays,
    than the network has layers is refused with an error.  By then the
    training count is already the snapshot's, while the value head and the
    learning rate are as before. *)
Theorem loadSnapshot_too_short (net : NeuralNetwork) (snapshot : NetworkSnapshot) :
  (List.length (snapWeights snapshot) < List.length (layers net))%nat
  ∨ (List.length (snapBiases snapshot) < List.length (layers net))%nat →
  is_Some (loadSnapshot net snapshot).2
  ∧ trainingCount (loadSnapshot net snapshot).1 = snapTrainingCount snapshot
  ∧ valueHead (loadSnapshot net snapshot).1 = valueHead net
  ∧ currentLearningRate (loadSnapshot net snapshot).1 = currentLearningRate net
  ∧ List.length (layers (loadSnapshot net snapshot).1) = List.length (layers net).
Proof.
  intros Hshort.
  destruct (loadSnapshot_layers net snapshot) as (Hlayers & Herr & Hcount & Hhead).
  assert (Hsome : is_Some (loadSnapshot net snapshot).2).
  { rewrite Herr.
    destruct (loadLayers 0 (layers net) snapshot).2 as [e|] eqn:He; [eauto|].
    exfalso.
    destruct (loadLayers_prefix (layers net) 0 snapshot)
      as (k & _ & Hloaded & _ & Hnone & _).
    specialize (Hnone He). subst k.
    destruct Hshort as [Hw | Hb].
    - destruct (Hloaded _ Hw) as (l & w & b & _ & Hw' & _).
      apply lookup_lt_Some in Hw'. simpl in Hw'. lia.
    - destruct (Hloaded _ Hb) as (l & w & b & _ & _ & Hb' & _).
      apply lookup_lt_Some in Hb'. simpl in Hb'. lia. }
  split; [exact Hsome|]. split; [exact Hcount|]. split; [exact (Hhead Hsome)|].
  destruct (loadLayers_prefix (layers net) 0 snapshot)
    as (k & Hk & Hloaded & Hkept & _ & _).
  assert (Hlen : List.length (loadLayers 0 (layers net) snapshot).1
                 = List.length (layers net)).
  { destruct (Nat.lt_trichotomy (List.length (loadLayers 0 (layers net) snapshot).1)
                (List.length (layers net))) as [Hlt|[Heq|Hgt]]; [|exact Heq|].
    - exfalso. destruct (Nat.lt_ge_cases (List.length (loadLayers 0 (layers net) snapshot).1) k)
        as [Hlk|Hkl].
      + destruct (Hloaded _ Hlk) as (l & w & b & _ & _ & _ & _ & Hl).
        apply lookup_lt_Some in Hl. lia.
      + apply lookup_lt_is_Some_2 in Hlt as [l Hl].
        rewrite <- Hkept in Hl by lia. apply lookup_lt_Some in Hl. lia.
    - exfalso. apply lookup_lt_is_Some_2 in Hgt as [l Hl].
      rewrite Hkept in Hl by lia. apply lookup_lt_Some in Hl. lia. }
  split; [|now rewrite Hlayers].
  revert Hsome. unfold loadSnapshot.
  destruct (loadLayers 0 (layers net) snapshot) as [ls [e|]]; cbn; [reflexivity|].
  intros [e He]. discriminate He.
Qed.

(** A snapshot without any layer. *)
Definition emptySnapshot : NetworkSnapshot :=
  mkNetworkSnapshot (config smallNet) [] [] None None 7.

Lemma loadSnapshot_too_short_witness :
  (List.length (snapWeights emptySnapshot) < List.length (layers smallNet))%nat
  ∧ is_Some (loadSnapshot smallNet emptySnapshot).2
  ∧ trainingCount (loadSnapshot smallNet emptySnapshot).1 = 7%Z.
Proof.
  split; [simpl; lia|].
  destruct (loadSnapshot_too_short smallNet emptySnapshot) as (Herr & Hcount & _).
  - left. simpl. lia.
  - split; [exact Herr | exact Hcount].
Defined.

(** ** The constructor *)

Section Construction.
Variable Mrandom : nat → R.

#[local] Arguments newTrunk : simpl never.

(** What [new Layer(a, b)] holds. *)
Definition freshLayer (a b : Z) (l : Layer) : Prop :=
  List.length (weights l) = Z.to_nat a
  ∧ Forall (fun row => List.length row = Z.to_nat b
                       ∧ Forall (fun w => Rabs w <= sqrt (6 / IZR (a + b))) row)
           (weights l)
  ∧ biases l = repeat 0 (Z.to_nat b)
  ∧ weightDeltas l = repeat (repeat 0 (Z.to_nat b)) (Z.to_nat a)
  ∧ biasDeltas l = repeat 0 (Z.to_nat b)
  ∧ inputActivation l = [] ∧ outputActivation l = [].

Hypothesis Mrandom_range : ∀ k, 0 <= Mrandom k < 1.

Lemma newLayer_fresh (a b : Z) (rs rs' : nat) (l : Layer) :
  newLayer Mrandom a b rs = Ok (l, rs') → freshLayer a b l.
Proof.
  unfold newLayer. intros H.
  destruct (arrayLength a) as [n|] eqn:En; simpl in H; [|discriminate].
  destruct (arrayLength b) as [m|] eqn:Em; simpl in H; [|discriminate].
  apply arrayLength_Ok in En as [_ ->]. apply arrayLength_Ok in Em as [_ ->].
  injection H as <- _. unfold freshLayer. cbn.
  rewrite length_map, length_seq. split_and!; try reflexivity.
  apply Forall_map, Forall_forall. intros i _.
  rewrite length_map, length_seq. split; [reflexivity|].
  apply Forall_map, Forall_forall. intros j _. cbn.
  pose proof (Mrandom_range (rs + i * Z.to_nat b + j)) as Hr.
  pose proof (sqrt_pos (6 / IZR (a + b))) as Hs.
  rewrite Rabs_mult, (Rabs_pos_eq (sqrt _)) by exact Hs.
  rewrite <- (Rmult_1_l (sqrt _)) at 2.
  apply Rmult_le_compat_r; [exact Hs|].
  apply Rabs_le. lra.
Qed.

Lemma newTrunk_fresh (sizes : list Z) :
  ∀ rs rs' ls, newTrunk Mrandom sizes rs = Ok (ls, rs') →
    S (List.length ls) = Nat.max 1 (List.length sizes)
    ∧ ∀ i l a b, ls !! i = Some l → sizes !! i = Some a → sizes !! S i = Some b →
        freshLayer a b l.
Proof.
  induction sizes as [|a sizes IH]; intros rs rs' ls.
  - intros [= <- _]. split; [reflexivity | intros i l a b H; discriminate H].
  - destruct sizes as [|b rest].
    + intros [= <- _]. split; [reflexivity | intros i l a' b H; discriminate H].
    + rewrite newTrunk_cons. intros H.
      destruct (newLayer Mrandom a b rs) as [[l rs1]|] eqn:El; simpl in H; [|discriminate].
      destruct (newTrunk Mrandom (b :: rest) rs1) as [[ls' rs2]|] eqn:Et; simpl in H;
        [|discriminate].
      injection H as <- _.
      destruct (IH rs1 rs2 ls' Et) as [Hlen Hall].
      split.
      * cbn [List.length] in *. lia.
      * intros [|i] l' a' b' Hl Ha Hb.
        -- injection Hl as <-. injection Ha as <-. injection Hb as <-.
           exact (newLayer_fresh _ _ _ _ _ El).
        -- exact (Hall i l' a' b' Hl Ha Hb).
Qed.

Lemma lookup_last_cons (l : list Z) :
  ∀ a d, (a :: l) !! List.length l = Some (List.last (a :: l) d).
Proof.
  induction l as [|h hs IH]; intros a d; [reflexivity|].
  change (List.last (a :: h :: hs) d) with (List.last (h :: hs) d).
  cbn [List.length]. rewrite lookup_cons. apply IH.
Qed.

(** X26. A network that the constructor returns, with [Math.random] in
    [[0, 1)]: it has one layer per pair of consecutive sizes of its
    configuration; layer [i] has as many rows as size [i] and rows as long
    as size [i + 1], every weight is at most [sqrt (6 / (a + b))] in
    magnitude, and every bias and every stored update is 0; the value head
    is such a layer from the last hidden size to 1.  The training count is
    0, the learning rate is the configured one, the network is in inference
    mode, and the four optional settings default to 0.5, 0.0005, 5 and
    0.15. *)
Theorem constructor_initial (c : NetworkConfig) (rs rs' : nat) (net : NeuralNetwork) :
  constructor Mrandom c rs = Ok (net, rs') →
  S (List.length (layers net)) = List.length (allSizes c)
  ∧ (∀ i l a b, layers net !! i = Some l →
       allSizes c !! i = Some a → allSizes c !! S i = Some b → freshLayer a b l)
  ∧ freshLayer (List.last (hiddenLayers c) (inputSize c)) 1 (valueHead net)
  ∧ config net = c
  ∧ trainingCount net = 0%Z
  ∧ isTraining net = false
  ∧ currentLearningRate net = learningRate c
  ∧ valueLossWeight net = default 0.5 (cfgValueLossWeight c)
  ∧ weightDecay net = default 0.0005 (cfgWeightDecay c)
  ∧ gradientClip net = default 5 (cfgGradientClip c)
  ∧ dropout net = default 0.15 (cfgDropout c).
Proof.
  unfold constructor. intros H.
  set (hiddenSizes := inputSize c :: hiddenLayers c) in *.
  destruct (newTrunk Mrandom hiddenSizes rs) as [[trunk rs1]|] eqn:Et; simpl in H;
    [|discriminate].
  destruct (newLayer Mrandom _ (outputSize c) rs1) as [[pl rs2]|] eqn:Ep; simpl in H;
    [|discriminate].
  destruct (newLayer Mrandom _ 1 rs2) as [[vl rs3]|] eqn:Ev; simpl in H; [|discriminate].
  injection H as <- _.
  cbn [layers valueHead config trainingCount isTraining currentLearningRate
       valueLossWeight weightDecay gradientClip dropout].
  destruct (newTrunk_fresh hiddenSizes rs rs1 trunk Et) as [Hlen Hall].
  assert (Hhs : List.length hiddenSizes = S (List.length (hiddenLayers c))) by reflexivity.
  assert (Htl : List.length trunk = List.length (hiddenLayers c)) by lia.
  assert (Hlast : List.last hiddenSizes (inputSize c)
                  = List.last (hiddenLayers c) (inputSize c)).
  { unfold hiddenSizes. destruct (hiddenLayers c) as [|h hs]; reflexivity. }
  assert (Hlast' : hiddenSizes !! List.length (hiddenLayers c)
                   = Some (List.last hiddenSizes (inputSize c))).
  { unfold hiddenSizes. apply lookup_last_cons. }
  assert (Hsizes : allSizes c = (hiddenSizes ++ [outputSize c])%list) by reflexivity.
  split_and!; try reflexivity.
  - rewrite Hsizes, !length_app. cbn [List.length]. lia.
  - intros i l a b Hl Ha Hb. rewrite Hsizes in Ha, Hb.
    destruct (decide (i < List.length trunk)%nat) as [Hi|Hi].
    + rewrite lookup_app_l in Hl by exact Hi.
      rewrite lookup_app_l in Ha by lia. rewrite lookup_app_l in Hb by lia.
      exact (Hall i l a b Hl Ha Hb).
    + pose proof (lookup_lt_Some _ _ _ Hl) as Hi'.
      rewrite length_app in Hi'. cbn [List.length] in Hi'.
      assert (i = List.length trunk) as -> by lia.
      rewrite list_lookup_middle in Hl by reflexivity. injection Hl as <-.
      rewrite lookup_app_l in Ha by lia. rewrite Htl, Hlast' in Ha. injection Ha as <-.
      rewrite lookup_app_r in Hb by lia.
      replace (S (List.length trunk) - List.length hiddenSizes)%nat with 0%nat in Hb by lia.
      injection Hb as <-.
      exact (newLayer_fresh _ _ _ _ _ Ep).
  - rewrite <- Hlast. exact (newLayer_fresh _ _ _ _ _ Ev).
Qed.

End Construction.

Lemma constructor_initial_witness :
  ∃ net rs',
    constructor noRandom directConfig 0 = Ok (net, rs')
    ∧ S (List.length (layers net)) = List.length (allSizes directConfig)
    ∧ freshLayer 1 1 (valueHead net)
    ∧ trainingCount net = 0%Z
    ∧ gradientClip net = 5.
Proof.
  eexists _, _. split; [reflexivity|].
  destruct (constructor_initial noRandom (fun _ => conj (Rle_refl 0) Rlt_0_1)
              directConfig 0 _ _ eq_refl)
    as (Hlen & _ & Hhead & _ & Hcount & _ & _ & _ & _ & Hclip & _).
  split_and!; [exact Hlen | exact Hhead | exact Hcount | exact Hclip].
Defined.

(** ** [getLayerActivations] *)

Lemma splitLast_snoc {A} (front : list A) (x : A) :
  splitLast (front ++ [x]) = Some (front, x).
Proof.
  induction front as [|y front IH]; [reflexivity|].
  cbn [app]. destruct (front ++ [x])%list as [|z rest] eqn:E.
  - destruct front; discriminate E.
  - change (splitLast (y :: z :: rest))
      with ('(f, w) ← splitLast (z :: rest); Some (y :: f, w)).
    now rewrite IH.
Qed.

Lemma inputActivations_range (input : list R) :
  Forall (fun v => 0 <= v <= 1) (inputActivations input).
Proof.
  apply Forall_map, Forall_forall. intros v _. cbn.
  pose proof (Rmax_l 0 (Rmin 1 ((v + 1) / 2))).
  pose proof (Rmin_l 1 ((v + 1) / 2)).
  split; [assumption|]. apply Rmax_lub; lra.
Qed.

Lemma hiddenActivations_range (layer : Layer) :
  Forall (fun v => 0 <= v) (outputActivation layer) →
  Forall (fun v => 0 <= v <= 1) (hiddenActivations layer).
Proof.
  unfold hiddenActivations. destruct (outputActivation layer) as [|a rest]; [constructor|].
  intros Hpos.
  destruct (fold_left_Rmax_ge rest a) as [Ha Hrest].
  set (M := fold_left Rmax rest a) in *.
  pose proof (Rmax_l M 0.001). pose proof (Rmax_r M 0.001).
  assert (Hall : Forall (fun v => 0 <= v <= Rmax M 0.001) (a :: rest)).
  { apply Forall_cons in Hpos as [Ha0 Hrest0]. constructor; [lra|].
    rewrite Forall_forall in *. intros v Hv.
    specialize (Hrest v Hv). specialize (Hrest0 v Hv). lra. }
  apply Forall_map. eapply Forall_impl; [exact Hall|].
  intros v [Hv0 Hv1]. cbn. split.
  - apply Rmult_le_pos; [exact Hv0|]. left. apply Rinv_0_lt_compat. lra.
  - apply Rmult_le_reg_r with (Rmax M 0.001); [lra|]. field_simplify; lra.
Qed.

Section Activations.
Variable Mexp : R → R.
Variable Mtanh : R → R.
Variable Mrandom : nat → R.

Hypothesis Mexp_0 : Mexp 0 = 1.
Hypothesis Mexp_nonneg : ∀ x, 0 <= Mexp x.

Lemma generateDropoutMask_nonneg (net : NeuralNetwork) (size rs : nat) :
  dropout net < 1 →
  Forall (fun v => 0 <= v) (generateDropoutMask Mrandom net size rs).1.
Proof.
  intros Hd. unfold generateDropoutMask.
  destruct (negb (isTraining net) || Rleb (dropout net) 0); cbn.
  - apply Forall_forall. intros v Hv%list_elem_of_In%repeat_spec. lra.
  - apply Forall_map, Forall_forall. intros k _. cbn.
    destruct (Rlt_dec _ _); [|lra].
    apply Rmult_le_pos; [lra|]. left. apply Rinv_0_lt_compat. lra.
Qed.

Lemma forwardTrunk_nonneg (net : NeuralNetwork) (trunk : list Layer) :
  dropout net < 1 →
  ∀ act rs r, forwardTrunk Mrandom net trunk act rs = Some r →
    Forall (fun l => Forall (fun v => 0 <= v) (outputActivation l)) r.1.1.1.
Proof.
  intros Hd. induction trunk as [|l trunk IH]; intros act rs r; simpl.
  - intros [= <-]. constructor.
  - destruct (affine act (weights l) (biases l)) as [sums|]; simpl; [|discriminate].
    pose proof (generateDropoutMask_nonneg net (List.length (map relu sums)) rs Hd) as Hmask.
    destruct (generateDropoutMask Mrandom net _ rs) as [dm rs1]. cbn in Hmask.
    destruct (forwardTrunk Mrandom net trunk _ rs1) as [[[[t' o] m] r1]|] eqn:Hrest;
      simpl; [|discriminate].
    intros [= <-]. cbn. constructor; [|exact (IH _ _ _ Hrest)].
    cbn. apply Forall_forall. intros v Hv.
    apply elem_of_zip_with in Hv as (x & d & -> & Hx & Hdm).
    apply list_elem_of_fmap in Hx as (s & -> & _).
    rewrite Forall_forall in Hmask. specialize (Hmask d Hdm).
    apply Rmult_le_pos; [apply Rmax_l | exact Hmask].
Qed.

(** X27. After a call of [forward] on a network whose dropout rate is
    below 1, [getLayerActivations] returns one list more than the network
    has layers, and every number in every list lies between 0 and 1: the
    values handed to the visualisation are valid intensities, whatever the
    input that is shown. *)
Theorem layer_activations_range (net net' : NeuralNetwork) (rs rs' : nat)
    (input shown : list R) (mask : option (list Z)) (out : list R * R) :
  forward Mexp Mtanh Mrandom net rs input mask = Some (net', rs', out) →
  dropout net < 1 →
  ∃ acts, getLayerActivations net' shown = Some acts
          ∧ List.length acts = S (List.length (layers net'))
          ∧ Forall (Forall (fun v => 0 <= v <= 1)) acts.
Proof.
  unfold forward, forwardLogits. intros H Hd.
  destruct (splitLast (layers net)) as [[trunk pl]|]; simpl in H; [|discriminate].
  destruct (forwardTrunk Mrandom net trunk input rs) as [[[[t' a] m] r1]|] eqn:Htrunk;
    simpl in H; [|discriminate].
  apply (forwardTrunk_nonneg net trunk Hd) in Htrunk. cbn in Htrunk.
  destruct (affine a (weights pl) (biases pl)) as [logits|]; simpl in H; [|discriminate].
  destruct (biases (valueHead net) !! 0%nat) as [b0|]; simpl in H; [|discriminate].
  destruct (dotColumn a (weights (valueHead net)) 0 b0) as [valueSum|]; simpl in H;
    [|discriminate].
  injection H as <- _ _.
  unfold getLayerActivations. cbn [layers]. rewrite splitLast_snoc.
  cbn [mbind option_bind outputActivation setActivations].
  eexists. split; [reflexivity|]. split.
  - cbn [List.length]. rewrite !length_app, length_map. reflexivity.
  - constructor; [apply inputActivations_range|].
    apply Forall_app. split.
    + apply Forall_map. eapply Forall_impl; [exact Htrunk|].
      intros l Hl. now apply hiddenActivations_range.
    + constructor; [|constructor].
      destruct logits as [|x logits]; [constructor|].
      now apply (softmax_distribution Mexp Mexp_0 Mexp_nonneg).
Qed.

End Activations.

Lemma layer_activations_range_witness :
  ∃ net' rs' out acts,
    forward exp tanh noRandom smallNet 0 [1] None = Some (net', rs', out)
    ∧ dropout smallNet < 1
    ∧ getLayerActivations net' [1] = Some acts
    ∧ List.length acts = 3%nat
    ∧ Forall (Forall (fun v => 0 <= v <= 1)) acts.
Proof.
  assert (Hd : dropout smallNet < 1) by (simpl; lra).
  eexists _, _, _.
  destruct (layer_activations_range exp tanh noRandom exp_0
              (fun x => Rlt_le _ _ (exp_pos x)) smallNet _ 0%nat _ [1] [1] None _ eq_refl Hd)
    as (acts & Hacts & Hlen & Hrange).
  exists acts. split_and!; [reflexivity | exact Hd | exact Hacts | exact Hlen | exact Hrange].
Defined.

(** ** The encoders *)

(** The characters of a board. *)
Definition boardChars (board : string) : Prop :=
  Forall (fun ch => ch = "X"%char ∨ ch = "O"%char ∨ ch = "_"%char)
         (list_ascii_of_string board).

Lemma cellValue_inj (c d : ascii) :
  (c = "X"%char ∨ c = "O"%char ∨ c = "_"%char) →
  (d = "X"%char ∨ d = "O"%char ∨ d = "_"%char) →
  cellValue c = cellValue d → c = d.
Proof.
  assert (HX : cellValue "X" = 1) by reflexivity.
  assert (HO : cellValue "O" = -1).
  { unfold cellValue. rewrite bool_decide_eq_false_2 by discriminate. reflexivity. }
  assert (HE : cellValue "_" = 0).
  { unfold cellValue. now rewrite !bool_decide_eq_false_2 by discriminate. }
  intros [-> | [-> | ->]] [-> | [-> | ->]]; rewrite ?HX, ?HO, ?HE; intros H;
    try reflexivity; exfalso; lra.
Qed.

(** X28. The two encoders of a position agree with the game logic: the mask
    of [boardToMask] is the teacher's [boardMask], it holds 1 exactly at the
    cells where [isMoveValid] accepts a move, and the input of
    [boardToInputWithTurn] is 0 at each of those cells.  The input has one
    entry more than the board has cells, and on boards made of X, O and _ it
    determines the board and the turn. *)
Theorem encoders_agree (board : string) (turn : PlayerSymbol) :
  boardToMask board = boardMask board
  ∧ List.length (boardToMask board) = String.length board
  ∧ List.length (boardToInputWithTurn board turn) = S (String.length board)
  ∧ (∀ i, boardToMask board !! i = Some 1%Z ↔ isMoveValid board i = true)
  ∧ (∀ i, isMoveValid board i = true → boardToInputWithTurn board turn !! i = Some 0)
  ∧ (∀ board' turn', boardChars board → boardChars board' →
       boardToInputWithTurn board turn = boardToInputWithTurn board' turn' →
       board = board' ∧ turn = turn').
Proof.
  pose proof (chars_length board) as Hlen.
  split_and!.
  - reflexivity.
  - unfold boardToMask. now rewrite length_map.
  - unfold boardToInputWithTurn. rewrite length_app, length_map. simpl. lia.
  - intros i. unfold boardToMask, isMoveValid, isEmptyCell.
    rewrite charAt_lookup, list_lookup_fmap.
    destruct (list_ascii_of_string board !! i) as [ch|]; simpl.
    + destruct (decide (ch = "_"%char)) as [->|Hne].
      * rewrite bool_decide_eq_true_2 by reflexivity.
        rewrite bool_decide_eq_true_2 by reflexivity. tauto.
      * rewrite (bool_decide_eq_false_2 (ch = "_"%char)) by exact Hne.
        rewrite bool_decide_eq_false_2 by congruence.
        split; intros H; discriminate H.
    + split; intros H; discriminate H.
  - intros i. unfold boardToInputWithTurn, isMoveValid, isEmptyCell.
    rewrite charAt_lookup. intros H. apply bool_decide_eq_true in H.
    rewrite lookup_app_l
      by (rewrite length_map; now apply lookup_lt_Some in H).
    rewrite list_lookup_fmap, H. reflexivity.
  - intros board' turn' Hb Hb'. unfold boardToInputWithTurn. intros H.
    apply app_inj_tail in H as [Hcells Hturn].
    split.
    + apply string_chars_inj.
      unfold boardChars in *.
      revert Hb Hb' Hcells.
      generalize (list_ascii_of_string board') as l'.
      generalize (list_ascii_of_string board) as l.
      induction l as [|ch l IH]; intros [|ch' l'] Hl Hl' Heq; try discriminate Heq;
        [reflexivity|].
      apply Forall_cons in Hl as [Hc Hl]. apply Forall_cons in Hl' as [Hc' Hl'].
      injection Heq as Hv Hrest.
      f_equal; [exact (cellValue_inj _ _ Hc Hc' Hv) | exact (IH _ Hl Hl' Hrest)].
    + destruct turn, turn'; try reflexivity; exfalso; lra.
Qed.

End LifecycleExtras.

(** * The opponent of the single-player page: properties *)

Module AiExtras.
Import GameLogic Teacher Ai Loops TeacherProofs.
Local Open Scope Z_scope.

#[local] Arguments minimax : simpl never.
#[local] Arguments minimaxOpponent : simpl never.

Lemma minimax_S (fuel : nat) (b : string) (p ai : PlayerSymbol) :
  minimax (S fuel) b p ai =
  match computeWinner b with
  | Some winner => Some (winnerScore winner ai, None)
  | None =>
      if negb (hasEmpty b) then Some (Int 0, None)
      else fold_left (searchStep jsgt (fun b p => minimaxOpponent fuel b p ai) b p)
                     (seq 0 9) (Some (NegInf, None))
  end.
Proof. reflexivity. Qed.

Lemma minimaxOpponent_S (fuel : nat) (b : string) (p ai : PlayerSymbol) :
  minimaxOpponent (S fuel) b p ai =
  match computeWinner b with
  | Some winner => Some (winnerScore winner ai, None)
  | None =>
      if negb (hasEmpty b) then Some (Int 0, None)
      else fold_left (searchStep jslt (fun b p => minimax fuel b p ai) b p)
                     (seq 0 9) (Some (PosInf, None))
  end.
Proof. reflexivity. Qed.

(** ** The outcome lies between -1 and 1 *)

Lemma outcome_range (fuel : nat) : ∀ b p, -1 ≤ outcome fuel b p ≤ 1.
Proof.
  induction fuel as [|fuel IH]; intros b p; simpl; [lia|].
  destruct (bool_decide _); [lia|]. destruct (negb _); [lia|].
  assert (Hloop : ∀ l best, -1 ≤ best ≤ 1 →
            -1 ≤ fold_left (outcomeStep (outcome fuel) b p) l best ≤ 1).
  { induction l as [|i l IHl]; intros best Hbest; simpl; [exact Hbest|].
    apply IHl. unfold outcomeStep. destruct (negb _); [exact Hbest|].
    pose proof (IH (applyMove b i p) (nextSymbol p)). lia. }
  apply (Hloop (seq 0 9) (-1)). lia.
Qed.

Lemma outcomeOf_range (b : string) (p : PlayerSymbol) : -1 ≤ outcomeOf b p ≤ 1.
Proof. apply outcome_range. Qed.

(** ** The hard opponent *)

(** A nine-cell position in which a completed line, if there is one,
    belongs to the player who has just moved. *)
Definition playable (b : string) (p : PlayerSymbol) : Prop :=
  String.length b = 9%nat
  ∧ ∀ c, computeWinner b = Some c → c = symbolChar (nextSymbol p).

Lemma playable_move (b : string) (p : PlayerSymbol) (i : nat) :
  String.length b = 9%nat → computeWinner b = None →
  (i < 9)%nat → isMoveValid b i = true →
  playable (applyMove b i p) (nextSymbol p).
Proof.
  intros Hlen Hopen Hi Hv. split.
  - rewrite length_applyMove; [exact Hlen | lia].
  - intros c Hc. rewrite (winner_after_move b i p c Hlen Hopen Hi Hc).
    now destruct p.
Qed.

(** The state of a loop after the cells before [k]: nothing found, or the
    first of the best moves so far. *)
Definition loopState (b : string) (p : PlayerSymbol) (start : jsnum) (sign : Z) (k : nat)
    (acc : option (jsnum * option nat)) : Prop :=
  let m := fold_left (outcomeStep (outcome (emptiesIn b)) b p) (seq 0 k) (-1) in
  (acc = Some (start, None) ∧ m = -1
   ∧ ∀ j, (j < k)%nat → isMoveValid b j = false)
  ∨ ∃ j, acc = Some (Int (sign * 10 * m), Some j) ∧ (j < k)%nat
         ∧ isMoveValid b j = true
         ∧ - outcomeOf (applyMove b j p) (nextSymbol p) = m.

(** What a search function returns on [b] with [p] to move. *)
Definition searched (b : string) (p : PlayerSymbol) (sign : Z)
    (r : option (jsnum * option nat)) : Prop :=
  ∃ index, r = Some (Int (sign * 10 * outcomeOf b p), index)
    ∧ (isTerminal b = true → index = None)
    ∧ (isTerminal b = false →
       ∃ i, index = Some i ∧ (i < 9)%nat ∧ isMoveValid b i = true
            ∧ - outcomeOf (applyMove b i p) (nextSymbol p) = outcomeOf b p).

Lemma searchStep_valid (better : jsnum → jsnum → bool)
    (recurse : string → PlayerSymbol → option (jsnum * option nat))
    (b : string) (p : PlayerSymbol) (best s : jsnum) (index index' : option nat) (i : nat) :
  isMoveValid b i = true →
  recurse (applyMove b i p) (nextSymbol p) = Some (s, index') →
  searchStep better recurse b p (Some (best, index)) i
  = if better s best then Some (s, Some i) else Some (best, index).
Proof. intros Hv Hr. unfold searchStep. simpl. rewrite Hv. simpl. now rewrite Hr. Qed.

Lemma searchStep_invalid (better : jsnum → jsnum → bool)
    (recurse : string → PlayerSymbol → option (jsnum * option nat))
    (b : string) (p : PlayerSymbol) (best : jsnum) (index : option nat) (i : nat) :
  isMoveValid b i = false →
  searchStep better recurse b p (Some (best, index)) i = Some (best, index).
Proof. intros Hv. unfold searchStep. simpl. now rewrite Hv. Qed.

Lemma search_loop (better : jsnum → jsnum → bool) (start : jsnum) (sign : Z)
    (recurse : string → PlayerSymbol → option (jsnum * option nat))
    (b : string) (p : PlayerSymbol) :
  (∀ z, better (Int z) start = true) →
  (∀ x y, better (Int (sign * 10 * x)) (Int (sign * 10 * y)) = (y <? x)) →
  (∀ i, (i < 9)%nat → isMoveValid b i = true →
     searched (applyMove b i p) (nextSymbol p) (- sign)
       (recurse (applyMove b i p) (nextSymbol p))) →
  ∀ k, (k ≤ 9)%nat →
    loopState b p start sign k
      (fold_left (searchStep better recurse b p) (seq 0 k) (Some (start, None))).
Proof.
  intros Hstart Hbetter Hrec.
  induction k as [|k IH]; intros Hk.
  - left. split_and!; [reflexivity | reflexivity | intros j Hj; lia].
  - specialize (IH ltac:(lia)).
    unfold loopState in *. rewrite seq_S, !fold_left_app. cbn [fold_left Nat.add].
    set (m := fold_left (outcomeStep (outcome (emptiesIn b)) b p) (seq 0 k) (-1)) in *.
    set (acc := fold_left (searchStep better recurse b p) (seq 0 k) (Some (start, None)))
      in *.
    clearbody acc m.
    unfold outcomeStep.
    destruct (isMoveValid b k) eqn:Hv; cbn [negb].
    + assert (Hchild : outcome (emptiesIn b) (applyMove b k p) (nextSymbol p)
                       = outcomeOf (applyMove b k p) (nextSymbol p)).
      { unfold outcomeOf. now rewrite (emptiesIn_applyMove_S b k p) by (lia || exact Hv). }
      rewrite Hchild.
      pose proof (outcomeOf_range (applyMove b k p) (nextSymbol p)) as Hrange.
      destruct (Hrec k ltac:(lia) Hv) as (index & Hr & _).
      remember (outcomeOf (applyMove b k p) (nextSymbol p)) as v eqn:Ev.
      replace (- sign * 10 * v) with (sign * 10 * - v) in Hr by lia.
      destruct IH as [(-> & Hm & Hnone) | (j & -> & Hj & Hvj & Hmj)].
      * right. exists k.
        rewrite (searchStep_valid _ _ _ _ _ _ _ _ _ Hv Hr), Hstart, Hm.
        replace (Z.max (-1) (- v)) with (- v) by lia.
        split_and!; [reflexivity | lia | exact Hv | now rewrite Ev].
      * right. rewrite (searchStep_valid _ _ _ _ _ _ _ _ _ Hv Hr), Hbetter.
        destruct (Z.ltb_spec m (- v)) as [Hlt|Hge].
        -- exists k. replace (Z.max m (- v)) with (- v) by lia.
           split_and!; [reflexivity | lia | exact Hv | now rewrite Ev].
        -- exists j. replace (Z.max m (- v)) with m by lia.
           split_and!; [reflexivity | lia | exact Hvj | exact Hmj].
    + destruct IH as [(-> & Hm & Hnone) | (j & -> & Hj & Hvj & Hmj)].
      * left. rewrite (searchStep_invalid _ _ _ _ _ _ _ Hv).
        split_and!; [reflexivity | exact Hm |].
        intros j Hj. destruct (decide (j = k)) as [->|Hne]; [exact Hv | apply Hnone; lia].
      * right. exists j. rewrite (searchStep_invalid _ _ _ _ _ _ _ Hv).
        split_and!; [reflexivity | lia | exact Hvj | exact Hmj].
Qed.

Lemma winnerScore_playable (b : string) (p ai : PlayerSymbol) (c : ascii) (sign : Z) :
  playable b p → computeWinner b = Some c →
  (p = ai ∧ sign = 1) ∨ (p = nextSymbol ai ∧ sign = -1) →
  winnerScore c ai = Int (sign * 10 * -1).
Proof.
  intros [_ Hwin] Hc Hside. rewrite (Hwin c Hc). unfold winnerScore.
  destruct Hside as [[-> ->] | [-> ->]].
  - rewrite bool_decide_eq_false_2; [reflexivity | destruct ai; discriminate].
  - rewrite bool_decide_eq_true_2; [reflexivity | now destruct ai].
Qed.

Lemma searched_terminal (b : string) (p : PlayerSymbol) (sign : Z) (o : Z) :
  isTerminal b = true → outcomeOf b p = o →
  searched b p sign (Some (Int (sign * 10 * o), None)).
Proof.
  intros Hterm <-. exists None. split_and!; [reflexivity | reflexivity |].
  intros H. congruence.
Qed.

Lemma searched_open (b : string) (p : PlayerSymbol) (start : jsnum) (sign : Z)
    (r : option (jsnum * option nat)) :
  String.length b = 9%nat → computeWinner b = None → hasEmpty b = true →
  loopState b p start sign 9 r → searched b p sign r.
Proof.
  intros Hlen Hopen Hempty Hloop.
  assert (Hterm : isTerminal b = false).
  { unfold isTerminal. rewrite Hopen, Hempty. reflexivity. }
  assert (Hout : outcomeOf b p
                 = fold_left (outcomeStep (outcome (emptiesIn b)) b p) (seq 0 9) (-1)).
  { rewrite outcomeOf_eq, Hopen, Hempty. reflexivity. }
  unfold loopState in Hloop. rewrite <- Hout in Hloop.
  destruct Hloop as [(_ & _ & Hnone) | (j & -> & Hj & Hvj & Hmj)].
  - destruct (hasEmpty_valid b Hlen Hempty) as (i & Hi & Hv).
    rewrite (Hnone i Hi) in Hv. discriminate Hv.
  - exists (Some j). split_and!; [reflexivity | congruence |].
    intros _. exists j. auto.
Qed.

(** Both search functions return ten times the outcome of the position,
    seen from the side of [ai], and on an open position the index of a move
    that keeps the outcome. *)
Lemma search_value (ai : PlayerSymbol) (fuel : nat) :
  ∀ b, (emptiesIn b < fuel)%nat →
    (playable b ai → searched b ai 1 (minimax fuel b ai ai))
    ∧ (playable b (nextSymbol ai) →
       searched b (nextSymbol ai) (-1) (minimaxOpponent fuel b (nextSymbol ai) ai)).
Proof.
  induction fuel as [|fuel IH]; intros b Hfuel; [lia|].
  assert (Hchild : ∀ p i, (i < 9)%nat → isMoveValid b i = true →
            (emptiesIn (applyMove b i p) < fuel)%nat).
  { intros p i Hi Hv. pose proof (emptiesIn_applyMove_S b i p Hi Hv). lia. }
  split; intros Hplay; pose proof Hplay as [Hlen Hwin].
  - rewrite minimax_S.
    destruct (computeWinner b) as [c|] eqn:Hc.
    + rewrite (winnerScore_playable b ai ai c 1 Hplay Hc) by auto.
      apply searched_terminal.
      * unfold isTerminal. now rewrite Hc.
      * rewrite outcomeOf_eq, Hc. reflexivity.
    + destruct (hasEmpty b) eqn:Hempty; cbn [negb].
      * apply (searched_open b ai NegInf 1 _ Hlen Hc Hempty).
        apply search_loop; [reflexivity | | | lia].
        -- intros x y. cbn. destruct (Z.ltb_spec (10 * y) (10 * x)), (Z.ltb_spec y x);
             try reflexivity; lia.
        -- intros i Hi Hv. change (- (1)) with (-1).
           apply (IH (applyMove b i ai) (Hchild ai i Hi Hv)).
           exact (playable_move b ai i Hlen Hc Hi Hv).
      * change (Int 0) with (Int (1 * 10 * 0)). apply searched_terminal.
        -- unfold isTerminal. rewrite Hempty. apply orb_true_r.
        -- rewrite outcomeOf_eq, Hc, Hempty. reflexivity.
  - rewrite minimaxOpponent_S.
    destruct (computeWinner b) as [c|] eqn:Hc.
    + rewrite (winnerScore_playable b (nextSymbol ai) ai c (-1) Hplay Hc) by auto.
      apply searched_terminal.
      * unfold isTerminal. now rewrite Hc.
      * rewrite outcomeOf_eq, Hc. reflexivity.
    + destruct (hasEmpty b) eqn:Hempty; cbn [negb].
      * apply (searched_open b (nextSymbol ai) PosInf (-1) _ Hlen Hc Hempty).
        apply search_loop; [reflexivity | | | lia].
        -- intros x y. unfold jslt. cbn.
           destruct (Z.ltb_spec (-10 * x) (-10 * y)), (Z.ltb_spec y x); try reflexivity; lia.
        -- intros i Hi Hv. change (- (-1)) with 1.
           pose proof (playable_move b (nextSymbol ai) i Hlen Hc Hi Hv) as Hp.
           assert (Hback : nextSymbol (nextSymbol ai) = ai) by now destruct ai.
           rewrite Hback in *.
           apply (IH (applyMove b i (nextSymbol ai)) (Hchild _ i Hi Hv)). exact Hp.
      * change (Int 0) with (Int (-1 * 10 * 0)). apply searched_terminal.
        -- unfold isTerminal. rewrite Hempty. apply orb_true_r.
        -- rewrite outcomeOf_eq, Hc, Hempty. reflexivity.
Qed.

(** X29. The hard opponent on a nine-cell board: on a finished game
    (a completed line or no empty cell) it returns [null]; otherwise it
    returns a legal move, and one that is best for it: the outcome of the
    game with best play on both sides is the same after the move as
    before. *)
Theorem aiMove_hard_optimal (random : R) (b : string) (ai : PlayerSymbol) :
  String.length b = 9%nat →
  (isTerminal b = true → aiMove random b ai HARD = Some Null)
  ∧ (isTerminal b = false →
     ∃ i, aiMove random b ai HARD = Some (Index (Z.of_nat i))
          ∧ isMoveValid b i = true
          ∧ - outcomeOf (applyMove b i ai) (nextSymbol ai) = outcomeOf b ai).
Proof.
  intros Hlen. unfold aiMove.
  assert (Hfuel : (emptiesIn b < searchFuel)%nat).
  { pose proof (emptiesIn_le b). unfold searchFuel. lia. }
  split; intros Hterm.
  - unfold searchFuel. rewrite minimax_S.
    unfold isTerminal in Hterm.
    destruct (computeWinner b) as [c|]; [reflexivity|].
    cbn in Hterm. rewrite Hterm. reflexivity.
  - assert (Hplay : playable b ai).
    { split; [exact Hlen|]. intros c Hc. unfold isTerminal in Hterm.
      rewrite Hc in Hterm. cbn in Hterm. discriminate Hterm. }
    destruct (search_value ai searchFuel b Hfuel) as [Hmax _].
    destruct (Hmax Hplay) as (index & -> & _ & Hopen).
    destruct (Hopen Hterm) as (i & -> & _ & Hv & Hkeep).
    exists i. auto.
Qed.

Lemma aiMove_hard_optimal_witness :
  String.length "XX_OO____" = 9%nat
  ∧ ∃ i, aiMove 0 "XX_OO____" O HARD = Some (Index (Z.of_nat i))
         ∧ isMoveValid "XX_OO____" i = true
         ∧ - outcomeOf (applyMove "XX_OO____" i O) (nextSymbol O) = outcomeOf "XX_OO____" O.
Proof.
  split; [reflexivity|].
  destruct (aiMove_hard_optimal 0 "XX_OO____" O eq_refl) as [_ Hopen].
  exact (Hopen eq_refl).
Defined.

(** ** The easy opponent *)

Local Open Scope R_scope.

Lemma Int_part_index (random : R) (n : nat) :
  0 <= random < 1 → (0 < n)%nat →
  (0 ≤ Int_part (random * INR n) < Z.of_nat n)%Z.
Proof.
  intros [H0 H1] Hn.
  assert (HN : 0 < INR n) by (apply lt_0_INR; exact Hn).
  destruct (base_Int_part (random * INR n)) as [Hle Hgt].
  assert (Hx0 : 0 <= random * INR n) by (apply Rmult_le_pos; lra).
  assert (Hx1 : random * INR n < INR n).
  { rewrite <- (Rmult_1_l (INR n)) at 2. apply Rmult_lt_compat_r; lra. }
  split.
  - assert (H : (-1 < Int_part (random * INR n))%Z); [|lia].
    apply lt_IZR. lra.
  - apply lt_IZR. rewrite <- INR_IZR_INZ. lra.
Qed.

(** The options of the easy opponent are the indices of the empty cells. *)
Lemma emptyOptions_spec (b : string) (z : Z) :
  z ∈ emptyOptions b ↔ ∃ i, z = Z.of_nat i ∧ isMoveValid b i = true.
Proof.
  unfold emptyOptions, isMoveValid, isEmptyCell.
  rewrite list_elem_of_filter, elem_of_lookup_imap.
  split.
  - intros (Hz & i & c & -> & Hi). exists i. rewrite charAt_lookup, Hi.
    destruct (decide (c = "_"%char)) as [->|Hne].
    + rewrite bool_decide_eq_true_2 by reflexivity.
      split; [reflexivity | now apply bool_decide_eq_true_2].
    + rewrite bool_decide_eq_false_2 in Hz by exact Hne. lia.
  - intros (i & -> & Hv%bool_decide_eq_true). rewrite charAt_lookup in Hv.
    split; [lia|]. exists i, "_"%char.
    split; [now rewrite bool_decide_eq_true_2 | exact Hv].
Qed.

(** X30. The easy opponent, with [Math.random()] in [[0, 1)]: it returns
    [null] exactly when the board has no empty cell, and otherwise the
    index of an empty cell.  It does not look for a completed line: it moves
    on a board that is already won. *)
Theorem aiMove_easy_legal (random : R) (b : string) (ai : PlayerSymbol) :
  0 <= random < 1 →
  (hasEmpty b = false → aiMove random b ai EASY = Some Null)
  ∧ (hasEmpty b = true →
     ∃ i, aiMove random b ai EASY = Some (Index (Z.of_nat i))
          ∧ isMoveValid b i = true).
Proof.
  intros Hrandom. unfold aiMove.
  split; intros Hempty.
  - rewrite bool_decide_eq_true_2; [reflexivity|].
    destruct (emptyOptions b) as [|z l] eqn:Hopts; [reflexivity|]. exfalso.
    assert (Hz : z ∈ emptyOptions b) by (rewrite Hopts; apply list_elem_of_here).
    apply emptyOptions_spec in Hz as (i & _ & Hv).
    apply isMoveValid_hasEmpty in Hv. congruence.
  - assert (Hlen : (0 < List.length (emptyOptions b))%nat).
    { unfold hasEmpty in Hempty.
      apply existsb_exists in Hempty as (c & Hin & Hc).
      apply bool_decide_eq_true in Hc. subst c.
      apply list_elem_of_In, list_elem_of_lookup in Hin as [i Hi].
      assert (Hz : Z.of_nat i ∈ emptyOptions b).
      { apply emptyOptions_spec. exists i. split; [reflexivity|].
        unfold isMoveValid, isEmptyCell. rewrite charAt_lookup, Hi.
        now apply bool_decide_eq_true_2. }
      destruct (emptyOptions b); [by apply elem_of_nil in Hz | simpl; lia]. }
    rewrite bool_decide_eq_false_2 by lia.
    pose proof (Int_part_index random _ Hrandom Hlen) as Hk.
    unfold optionAt.
    destruct (Z.ltb_spec (Int_part (random * INR (List.length (emptyOptions b)))) 0);
      [lia|].
    destruct (lookup_lt_is_Some_2 (emptyOptions b)
                (Z.to_nat (Int_part (random * INR (List.length (emptyOptions b))))))
      as [z Hz]; [lia|].
    rewrite Hz.
    assert (Hin : z ∈ emptyOptions b) by (eapply list_elem_of_lookup_2; exact Hz).
    apply emptyOptions_spec in Hin as (i & -> & Hv).
    exists i. auto.
Qed.

Lemma aiMove_easy_legal_witness :
  (0 <= 0 < 1)%R
  ∧ ∃ i, aiMove 0 "XXX_O_O__" O EASY = Some (Index (Z.of_nat i))
         ∧ isMoveValid "XXX_O_O__" i = true.
Proof.
  split; [lra|].
  destruct (aiMove_easy_legal 0 "XXX_O_O__" O) as [_ Hsome]; [lra|].
  exact (Hsome eq_refl).
Defined.

End AiExtras.
